(** * SpellQuest-AR: the gesture-driven drag-and-drop engine

    A shallow embedding of the two game-screen variants of the repository
    (the richer one with cursor smoothing and grab confirmation, and the
    simpler one with the periodic pool scramble), of the word evaluator and
    of the advisory feedback service.

    Conventions of the embedding.
    - A JavaScript [number] that holds a coordinate, a distance or a
      multiplier is an exact rational ([Q]); counters and tray slots are
      [nat]; scores and seconds are [Z].
    - [Math.sqrt] and [Math.random] belong to the host: the first is a
      parameter of the richer variant, the second is a stream of draws.
    - A [LetterTile] object that is reached through [find] and then mutated
      is a position of the pool list that is updated in place, so aliasing
      between the pool, the filtered tray array and the active tile is kept.
    - Calls of [playSound] are logged as the list of sounds a step returns.
      Canvas drawing, particles and the interval handles do not feed back
      into the state and are left out. *)

From Stdlib Require Import Bool Arith Lia List String Ascii ZArith QArith
  Qround Qabs Qminmax Qpower Lqa Permutation Sorted DecimalString DecimalNat.
From ExtLib Require Import Structures.Monad Structures.MonadExc
  Data.Monads.EitherMonad.
Import ListNotations.

Local Open Scope string_scope.
Local Open Scope list_scope.
Local Open Scope nat_scope.

(** ** Numbers *)

(** [a < b] on numbers, as a boolean. *)
Definition Qltb (a b : Q) : bool :=
  match (a ?= b)%Q with Lt => true | _ => false end.

(** An executable square root on rationals, exact on squares of rationals;
    used to run the richer variant on concrete frames. *)
Definition Qsqrt (q : Q) : Q :=
  Qmake (Z.sqrt (Qnum q * Z.pos (Qden q))) (Qden q).

(** ** Data model (types.ts) *)

Module Point.
Record t : Type := mk { x : Q; y : Q }.
End Point.

Inductive TileColor : Type :=
  red | blue | green | yellow | purple | orange | cyan | pink.

(** A tile.  Its [char] is a string of one letter, taken from the alphabet
    or from the letters of the target word, and is kept as that letter. *)
Record LetterTile : Type := mkTile {
  id : string;
  char : ascii;
  x : Q;
  y : Q;
  targetX : Q;
  targetY : Q;
  color : TileColor;
  isDragging : bool;
  inTray : bool;
  trayIndex : option nat
}.

Inductive Sound : Type := success | failure | tick | click.

Inductive Difficulty : Type := EASY | MEDIUM | HARD.

(** DIFFICULTY_SETTINGS *)
Definition time (d : Difficulty) : Z :=
  match d with EASY => 45 | MEDIUM => 30 | HARD => 20 end%Z.

Definition multiplier (d : Difficulty) : Q :=
  match d with EASY => 1 | MEDIUM => 1.5 | HARD => 2 end%Q.

(** Constants shared by both game screens. *)
Definition TRAY_Y : Q := 220.
Definition TILE_SIZE : Q := 60.
Definition POOL_SPACING : Q := 1.3.

Definition TILE_COLORS : list TileColor :=
  [red; blue; green; yellow; purple; orange; cyan; pink].

(** One hand of [results.multiHandLandmarks]: only landmarks 8 (index
    fingertip) and 4 (thumb tip) are read. *)
Record Landmark : Type := mkLandmark { lx : Q; ly : Q }.
Record Hand : Type := mkHand { idxTip : Landmark; thumbTip : Landmark }.

(** The part of the component state both game screens share.  The active
    tile id is a non-empty string or [null]. *)
Record Game : Type := mkGame {
  tiles : list LetterTile;
  activeTileId : option string;
  currentWord : string;
  trayWord : string;
  isCorrect : bool;
  score : Z;
  timeLeft : Z;
  difficulty : Difficulty;
  wordsCompleted : nat
}.

(** ** Field updates *)

Definition setPos (nx ny : Q) (t : LetterTile) : LetterTile :=
  mkTile (id t) (char t) nx ny (targetX t) (targetY t) (color t)
         (isDragging t) (inTray t) (trayIndex t).

Definition setTarget (tx ty : Q) (t : LetterTile) : LetterTile :=
  mkTile (id t) (char t) (x t) (y t) tx ty (color t)
         (isDragging t) (inTray t) (trayIndex t).

Definition setTargetY (ty : Q) (t : LetterTile) : LetterTile :=
  setTarget (targetX t) ty t.

Definition setDragging (b : bool) (t : LetterTile) : LetterTile :=
  mkTile (id t) (char t) (x t) (y t) (targetX t) (targetY t) (color t)
         b (inTray t) (trayIndex t).

Definition setInTray (b : bool) (t : LetterTile) : LetterTile :=
  mkTile (id t) (char t) (x t) (y t) (targetX t) (targetY t) (color t)
         (isDragging t) b (trayIndex t).

Definition setTrayIndex (i : option nat) (t : LetterTile) : LetterTile :=
  mkTile (id t) (char t) (x t) (y t) (targetX t) (targetY t) (color t)
         (isDragging t) (inTray t) i.

Definition withTiles (ts : list LetterTile) (g : Game) : Game :=
  mkGame ts (activeTileId g) (currentWord g) (trayWord g) (isCorrect g)
         (score g) (timeLeft g) (difficulty g) (wordsCompleted g).

Definition withActive (a : option string) (g : Game) : Game :=
  mkGame (tiles g) a (currentWord g) (trayWord g) (isCorrect g)
         (score g) (timeLeft g) (difficulty g) (wordsCompleted g).

(** ** Arrays of objects *)

(** [array.find(p)] as the position and value of the first match. *)
Fixpoint findFrom {A : Type} (p : A -> bool) (i : nat) (l : list A)
  : option (nat * A) :=
  match l with
  | [] => None
  | a :: l' => if p a then Some (i, a) else findFrom p (S i) l'
  end.

Definition find {A : Type} (p : A -> bool) (l : list A) : option (nat * A) :=
  findFrom p 0 l.

(** Mutation of the object stored at position [i]; nothing out of range. *)
Fixpoint updateAt {A : Type} (i : nat) (f : A -> A) (l : list A) : list A :=
  match l, i with
  | [], _ => []
  | a :: l', 0 => f a :: l'
  | a :: l', S i' => a :: updateAt i' f l'
  end.

(** The array paired with the positions of its objects. *)
Fixpoint enumerateFrom {A : Type} (i : nat) (l : list A) : list (nat * A) :=
  match l with
  | [] => []
  | a :: l' => (i, a) :: enumerateFrom (S i) l'
  end.

Definition enumerate {A : Type} (l : list A) : list (nat * A) :=
  enumerateFrom 0 l.

(** [array.sort((a, b) => key(a) - key(b))]: the sort is stable, so it is
    the insertion of each element before the first one with a key that is
    not smaller. *)
Fixpoint insertBy {A : Type} (key : A -> nat) (a : A) (l : list A) : list A :=
  match l with
  | [] => [a]
  | b :: l' => if key b <? key a then b :: insertBy key a l' else a :: l
  end.

Definition sortBy {A : Type} (key : A -> nat) (l : list A) : list A :=
  fold_right (insertBy key) [] l.

(** [String.prototype.toUpperCase] on the ASCII letters. *)
Definition toUpper (c : ascii) : ascii :=
  let n := nat_of_ascii c in
  if (97 <=? n) && (n <=? 122) then ascii_of_nat (n - 32) else c.

Definition toUpperCase (s : string) : string :=
  string_of_list_ascii (map toUpper (list_ascii_of_string s)).

(** ** Word evaluator: updateTrayWord *)

(** [t.trayIndex || 0] *)
Definition trayKey (t : LetterTile) : nat :=
  match trayIndex t with Some n => n | None => 0 end.

Definition trayLetters (ts : list LetterTile) : string :=
  string_of_list_ascii
    (map char (sortBy trayKey (filter inTray ts))).

(** The score added by a solve. *)
Definition solveBonus (word : string) (d : Difficulty) (secs : Z) : Z :=
  (Qfloor (inject_Z (Z.of_nat (String.length word)) * 10 * multiplier d)
   + Qfloor (inject_Z secs * multiplier d))%Z.

(** [updateTrayWord] on the bindings it reads: [timeLeft g] and
    [difficulty g] are the ones of the closure it is called from (see
    [Session] for the closure of the frame callback). *)
Definition updateTrayWord (g : Game) : Game * list Sound :=
  let word := trayLetters (tiles g) in
  if (word =? currentWord g)%string && (0 <? String.length word) then
    (mkGame (tiles g) (activeTileId g) (currentWord g) word true
            (score g + solveBonus word (difficulty g) (timeLeft g))
            (timeLeft g) (difficulty g) (wordsCompleted g),
     [success])
  else
    (mkGame (tiles g) (activeTileId g) (currentWord g) word false
            (score g) (timeLeft g) (difficulty g) (wordsCompleted g),
     []).

(** ** Drag controller and settle animator

    This block of [onResults] is the same text in both game screens. *)

Definition hitTest (h : Point.t) (t : LetterTile) : bool :=
  Qltb (Qabs (x t - Point.x h)) (TILE_SIZE / 2)
  && Qltb (Qabs (y t - Point.y h)) (TILE_SIZE / 2).

Definition inBand (t : LetterTile) : bool :=
  Qltb (Qabs (y t - TRAY_Y)) 100.

(** One slot of the tray row. *)
Definition slot (startX : Q) (i : nat) (t : LetterTile) : LetterTile :=
  setTarget
    (startX + inject_Z (Z.of_nat i) * TILE_SIZE * 1.1 - (TILE_SIZE * 1.1) / 2)
    TRAY_Y
    (setTrayIndex (Some i) t).

(** [refs.forEach((t, i) => ...)] over positions of the pool. *)
Fixpoint assignSlots (startX : Q) (i : nat) (refs : list nat)
  (ts : list LetterTile) : list LetterTile :=
  match refs with
  | [] => ts
  | p :: refs' => assignSlots startX (S i) refs' (updateAt p (slot startX i) ts)
  end.

(** The other tiles of the tray, sorted by slot, as positions of the pool. *)
Definition trayTilesOf (tile : LetterTile) (ts : list LetterTile)
  : list (nat * LetterTile) :=
  sortBy (fun r => trayKey (snd r))
    (filter (fun r => inTray (snd r) && negb (id (snd r) =? id tile)%string)
            (enumerate ts)).

Definition dropInside (cw : Q) (k : nat) (tile : LetterTile)
  (ts : list LetterTile) : list LetterTile :=
  let ts1 := updateAt k (setInTray true) ts in
  let trayTiles := trayTilesOf tile ts1 in
  let n := List.length trayTiles in
  let ts2 := updateAt k (fun t => setTargetY TRAY_Y (setTrayIndex (Some n) t)) ts1 in
  let totalWidth := (inject_Z (Z.of_nat (n + 1)) * TILE_SIZE * 1.1)%Q in
  let startX := ((cw - totalWidth) / 2 + (TILE_SIZE * 1.1) / 2)%Q in
  assignSlots startX 0 (map fst trayTiles ++ [k]) ts2.

Definition dropOutside (k : nat) (ts : list LetterTile) : list LetterTile :=
  updateAt k (fun t => setTrayIndex None (setInTray false t)) ts.

(** What the release does to the pool: [if (tile) { ... }]. *)
Definition dropActive (cw : Q) (aid : string) (ts : list LetterTile)
  : list LetterTile * list Sound :=
  match find (fun t => (id t =? aid)%string) ts with
  | Some (k, tile) =>
      let ts0 := updateAt k (setDragging false) ts in
      if inBand tile then
        (dropInside cw k tile ts0, if inTray tile then [] else [click])
      else (dropOutside k ts0, [])
  | None => (ts, [])
  end.

(** The [else if (activeTileId.current)] branch. *)
Definition release (cw : Q) (aid : string) (g : Game) : Game * list Sound :=
  let '(ts', snd1) := dropActive cw aid (tiles g) in
  let '(g', snd2) := updateTrayWord (withActive None (withTiles ts' g)) in
  (g', snd1 ++ snd2).

Definition dragController (cw : Q) (handPos : option Point.t)
  (isPinching : bool) (g : Game) : Game * list Sound :=
  match handPos, isPinching && negb (isCorrect g) with
  | Some h, true =>
      match activeTileId g with
      | None =>
          match find (hitTest h) (tiles g) with
          | Some (k, clicked) =>
              (withActive (Some (id clicked))
                 (withTiles (updateAt k (setDragging true) (tiles g)) g),
               [click])
          | None => (g, [])
          end
      | Some aid =>
          match find (fun t => (id t =? aid)%string) (tiles g) with
          | Some (k, _) =>
              (withTiles
                 (updateAt k (setPos (Point.x h) (Point.y h)) (tiles g)) g,
               [])
          | None => (g, [])
          end
      end
  | _, _ =>
      match activeTileId g with
      | Some aid => release cw aid g
      | None => (g, [])
      end
  end.

(** The easing step of the render loop. *)
Definition ease (t : LetterTile) : LetterTile :=
  if isDragging t then t
  else setPos (x t + (targetX t - x t) * 0.15)
              (y t + (targetY t - y t) * 0.15) t.

Definition settle (ts : list LetterTile) : list LetterTile := map ease ts.

(** Everything [onResults] does after the gesture has been classified. *)
Definition frameTail (cw : Q) (handPos : option Point.t) (isPinching : bool)
  (g : Game) : Game * list Sound :=
  let '(g', snds) := dragController cw handPos isPinching g in
  (withTiles (settle (tiles g')) g', snds).

(** ** Pool construction shared by both game screens *)

(** The [k]-th call of [Math.random()] within one shuffle. *)
Definition Draws : Type := nat -> Q.

(** [[s[i], s[j]] = [s[j], s[i]]].  Both positions exist whenever the draw
    lies in [0, 1), which [Math.random] promises; for any other draw the
    array is left as it is here. *)
Definition swap {A : Type} (i j : nat) (l : list A) : list A :=
  match nth_error l i, nth_error l j with
  | Some a, Some b => updateAt i (fun _ => b) (updateAt j (fun _ => a) l)
  | _, _ => l
  end.

(** The loop of [shuffleArray], from position [i] down to 1. *)
Fixpoint shuffleLoop {A : Type} (rnd : Draws) (k i : nat) (l : list A)
  : list A :=
  match i with
  | 0 => l
  | S i' =>
      let j := Z.to_nat (Qfloor (rnd k * inject_Z (Z.of_nat (i + 1)))) in
      shuffleLoop rnd (S k) i' (swap i j l)
  end.

Definition shuffleArray {A : Type} (rnd : Draws) (array : list A) : list A :=
  shuffleLoop rnd 0 (List.length array - 1) array.

Definition alphabet : list ascii :=
  list_ascii_of_string "ABCDEFGHIJKLMNOPQRSTUVWXYZ".

(** [`tile-${char}-${charIdx}`] *)
Definition tileId (c : ascii) (charIdx : nat) : string :=
  "tile-" ++ String c ("-" ++ NilEmpty.string_of_uint (Nat.to_uint charIdx)).

Definition newTile (c : ascii) (charIdx : nat) (px py : Q) : LetterTile :=
  mkTile (tileId c charIdx) c px py px py
         (nth (charIdx mod List.length TILE_COLORS) TILE_COLORS red)
         false false None.

Definition cell : Q := TILE_SIZE * POOL_SPACING.

(** The inner [for (col ...)] loop: [cols] columns are still to fill, the
    letters from [charIdx] on are [letters]; the loop breaks when they run
    out. *)
Fixpoint layoutCols (rowStartX py : Q) (cols col charIdx : nat)
  (letters : list ascii) : list LetterTile * (nat * list ascii) :=
  match cols, letters with
  | S cols', c :: rest =>
      let t := newTile c charIdx
                 (rowStartX + inject_Z (Z.of_nat col) * TILE_SIZE * POOL_SPACING
                  - cell / 2) py in
      let '(ts, out) := layoutCols rowStartX py cols' (S col) (S charIdx) rest in
      (t :: ts, out)
  | _, _ => ([], (charIdx, letters))
  end.

(** [rows.forEach((colsInRow, rowIndex) => ...)] *)
Fixpoint layoutRows (width poolStartY : Q) (rows : list nat)
  (rowIndex charIdx : nat) (letters : list ascii) : list LetterTile :=
  match rows with
  | [] => []
  | colsInRow :: rows' =>
      let rowWidth := (inject_Z (Z.of_nat colsInRow) * TILE_SIZE * POOL_SPACING)%Q in
      let rowStartX := ((width - rowWidth) / 2 + cell / 2)%Q in
      let py := (poolStartY
                 + inject_Z (Z.of_nat rowIndex) * TILE_SIZE * POOL_SPACING)%Q in
      let '(ts, (charIdx', rest)) :=
        layoutCols rowStartX py colsInRow 0 charIdx letters in
      ts ++ layoutRows width poolStartY rows' (S rowIndex) charIdx' rest
  end.

Definition buildPool (width height : Q) (rows : list nat)
  (letters : list ascii) : list LetterTile :=
  let poolHeight := (inject_Z (Z.of_nat (List.length rows)) * TILE_SIZE * POOL_SPACING)%Q in
  let poolStartY := (height - poolHeight - 40)%Q in
  layoutRows width poolStartY rows 0 0 letters.

(** Draws of [Math.random()] lie in [0, 1). *)
Definition unitDraws (rnd : Draws) : Prop :=
  forall k, (0 <= rnd k)%Q /\ (rnd k < 1)%Q.

(** ** Session events outside the frame callback *)

(** One tick of the countdown interval. *)
Definition tickTimer (g : Game) : Game :=
  mkGame (tiles g) (activeTileId g) (currentWord g) (trayWord g)
         (isCorrect g) (score g)
         (if (timeLeft g <=? 1)%Z then 0%Z else (timeLeft g - 1)%Z)
         (difficulty g) (wordsCompleted g).

(** A change of the difficulty setting. *)
Definition setDifficulty (d : Difficulty) (g : Game) : Game :=
  mkGame (tiles g) (activeTileId g) (currentWord g) (trayWord g)
         (isCorrect g) (score g) (timeLeft g) d (wordsCompleted g).

(** ** The richer game screen: smoothing and grab confirmation *)

Module Rich.

Definition PINCH_GRAB_THRESHOLD : Q := 0.065.
Definition PINCH_RELEASE_THRESHOLD : Q := 0.1.
Definition HAND_SMOOTH : Q := 0.45.
Definition GRAB_CONFIRM_FRAMES : nat := 2.

Record State : Type := mkState {
  game : Game;
  smoothHandPos : Point.t;
  pinchFrames : nat;
  pinchConfirmed : bool
}.

(** [wordLetterCounts[ch] = (wordLetterCounts[ch] || 0) + 1], the object
    as an association list in insertion order. *)
Fixpoint bump (ch : ascii) (m : list (ascii * nat)) : list (ascii * nat) :=
  match m with
  | [] => [(ch, 1)]
  | (c, n) :: m' =>
      if Ascii.eqb c ch then (c, n + 1) :: m' else (c, n) :: bump ch m'
  end.

Definition wordLetterCounts (word : string) : list (ascii * nat) :=
  fold_left (fun m ch => bump ch m)
            (list_ascii_of_string (toUpperCase word)) [].

Definition isDigit (c : ascii) : bool :=
  (48 <=? nat_of_ascii c) && (nat_of_ascii c <=? 57).

(** [Object.entries]: integer-like keys first, in ascending order, then
    the other keys in insertion order. *)
Definition objectEntries (m : list (ascii * nat)) : list (ascii * nat) :=
  sortBy (fun e => nat_of_ascii (fst e)) (filter (fun e => isDigit (fst e)) m)
  ++ filter (fun e => negb (isDigit (fst e))) m.

Definition extraLetters (word : string) : list ascii :=
  flat_map (fun e => repeat (fst e) (snd e - 1))
           (objectEntries (wordLetterCounts word)).

(** The [while (remaining > 0)] loop that cuts the letters into rows. *)
Fixpoint rowsOf (fuel remaining : nat) : list nat :=
  match fuel with
  | 0 => []
  | S fuel' =>
      if 0 <? remaining
      then Nat.min 9 remaining :: rowsOf fuel' (remaining - 9)
      else []
  end.

Definition initPool (rnd : Draws) (width height : Q) (word : string)
  : list LetterTile :=
  let allLetters := shuffleArray rnd (alphabet ++ extraLetters word) in
  let totalLetters := List.length allLetters in
  buildPool width height (rowsOf totalLetters totalLetters) allLetters.

(** [nextWord]; the word drawn from the word list is [nextWordText]. *)
Definition nextWord (rnd : Draws) (width height : Q) (nextWordText : string)
  (g : Game) : Game :=
  mkGame (initPool rnd width height nextWordText) (activeTileId g)
         nextWordText "" false (score g) (time (difficulty g))
         (difficulty g) (S (wordsCompleted g)).

(** [resize]: the pool is built only when there is none. *)
Definition resize (rnd : Draws) (width height : Q) (g : Game) : Game :=
  match tiles g with
  | [] => withTiles (initPool rnd width height (currentWord g)) g
  | _ :: _ => g
  end.

Section Frame.

Variable sqrt : Q -> Q.

Definition pinchDistanceOf (h : Hand) : Q :=
  let idxTipX := (1 - lx (idxTip h))%Q in
  let thumbTipX := (1 - lx (thumbTip h))%Q in
  let dx := (idxTipX - thumbTipX)%Q in
  let dy := (ly (idxTip h) - ly (thumbTip h))%Q in
  sqrt (dx * dx + dy * dy).

Definition rawSample (cw ch : Q) (h : Hand) : Point.t :=
  let idxTipX := (1 - lx (idxTip h))%Q in
  let thumbTipX := (1 - lx (thumbTip h))%Q in
  Point.mk ((idxTipX * cw + thumbTipX * cw) / 2)
           ((ly (idxTip h) * ch + ly (thumbTip h) * ch) / 2).

(** [smoothHandPos.current.x += (rawX - smoothHandPos.current.x) * HAND_SMOOTH] *)
Definition smooth (prev raw : Point.t) : Point.t :=
  Point.mk (Point.x prev + (Point.x raw - Point.x prev) * HAND_SMOOTH)
           (Point.y prev + (Point.y raw - Point.y prev) * HAND_SMOOTH).

Definition threshold (active : bool) : Q :=
  if active then PINCH_RELEASE_THRESHOLD else PINCH_GRAB_THRESHOLD.

Definition isSome {A : Type} (o : option A) : bool :=
  match o with Some _ => true | None => false end.

Definition onResults (cw ch : Q) (multiHandLandmarks : list Hand)
  (s : State) : State * list Sound :=
  let active := isSome (activeTileId (game s)) in
  let '(sm, handPos, rawPinching, pf0, pc0) :=
    match multiHandLandmarks with
    | landmarks :: _ =>
        let sm := smooth (smoothHandPos s) (rawSample cw ch landmarks) in
        (sm, Some sm,
         Qltb (pinchDistanceOf landmarks) (threshold active),
         pinchFrames s, pinchConfirmed s)
    | [] => (smoothHandPos s, None, false, 0, false)
    end in
  let '(pf, pc) :=
    if rawPinching then
      let pf := Nat.min (pf0 + 1) (GRAB_CONFIRM_FRAMES + 1) in
      (pf, if GRAB_CONFIRM_FRAMES <=? pf then true else pc0)
    else (0, if active then pc0 else false) in
  let isPinching := rawPinching && (pc || active) in
  let '(g', snds) := frameTail cw handPos isPinching (game s) in
  (mkState g' sm pf pc, snds).

End Frame.

Definition withGame (g : Game) (s : State) : State :=
  mkState g (smoothHandPos s) (pinchFrames s) (pinchConfirmed s).

Definition initial : State :=
  mkState (mkGame [] None "" "" false 0%Z 30%Z MEDIUM 0)
          (Point.mk 0 0) 0 false.

(** The states one mount of the component can be in: any interleaving of
    tracked or untracked frames, new rounds, resizes, timer ticks and
    changes of the difficulty setting. *)
Inductive reachable (sqrt : Q -> Q) : State -> Prop :=
| reach_initial : reachable sqrt initial
| reach_frame s cw ch hands :
    reachable sqrt s -> reachable sqrt (fst (onResults sqrt cw ch hands s))
| reach_nextWord s rnd w h word :
    unitDraws rnd -> reachable sqrt s ->
    reachable sqrt (withGame (nextWord rnd w h word (game s)) s)
| reach_resize s rnd w h :
    unitDraws rnd -> reachable sqrt s ->
    reachable sqrt (withGame (resize rnd w h (game s)) s)
| reach_tick s :
    reachable sqrt s -> reachable sqrt (withGame (tickTimer (game s)) s)
| reach_setDifficulty s d :
    reachable sqrt s -> reachable sqrt (withGame (setDifficulty d (game s)) s).

End Rich.

(** ** The simpler game screen: raw cursor and periodic scramble *)

Module Simple.

Definition PINCH_GRAB_THRESHOLD : Q := 0.05.
Definition PINCH_RELEASE_THRESHOLD : Q := 0.08.

(** The three rows of 9, 9 and 8 tiles. *)
Definition rows : list nat := [9; 9; 8].

Definition initPool (rnd : Draws) (width height : Q) : list LetterTile :=
  buildPool width height rows (shuffleArray rnd alphabet).

(** The inner loop of [scramblePool]: new targets for the next tiles of
    the shuffled pool. *)
Fixpoint retargetCols (rowStartX py : Q) (cols col : nat)
  (ts : list LetterTile) : list LetterTile * list LetterTile :=
  match cols, ts with
  | S cols', t :: rest =>
      let t' := setTarget
                  (rowStartX
                   + inject_Z (Z.of_nat col) * TILE_SIZE * POOL_SPACING
                   - cell / 2) py t in
      let '(done, rest') := retargetCols rowStartX py cols' (S col) rest in
      (t' :: done, rest')
  | _, _ => ([], ts)
  end.

Fixpoint retargetRows (width poolStartY : Q) (rs : list nat) (rowIndex : nat)
  (ts : list LetterTile) : list LetterTile :=
  match rs with
  | [] => ts
  | colsInRow :: rs' =>
      let rowWidth := (inject_Z (Z.of_nat colsInRow) * TILE_SIZE * POOL_SPACING)%Q in
      let rowStartX := ((width - rowWidth) / 2 + cell / 2)%Q in
      let py := (poolStartY
                 + inject_Z (Z.of_nat rowIndex) * TILE_SIZE * POOL_SPACING)%Q in
      let '(done, rest) := retargetCols rowStartX py colsInRow 0 ts in
      done ++ retargetRows width poolStartY rs' (S rowIndex) rest
  end.

Definition scramblePool (rnd : Draws) (clientWidth clientHeight : Q)
  (ts : list LetterTile) : list LetterTile :=
  let poolTiles := filter (fun t => negb (inTray t)) ts in
  let trayTiles := filter inTray ts in
  let shuffledPool := shuffleArray rnd poolTiles in
  let poolHeight := (inject_Z (Z.of_nat (List.length rows)) * TILE_SIZE * POOL_SPACING)%Q in
  let poolStartY := (clientHeight - poolHeight - 40)%Q in
  retargetRows clientWidth poolStartY rows 0 shuffledPool ++ trayTiles.

(** [startScrambleTimer] is created again when [isCorrect] changes, and
    [nextWord], which calls it, with it: the interval that a call of
    [nextWord] starts keeps the [isCorrect] of the render [g] the call is
    made from. *)
Definition startScrambleTimer (g : Game) : bool := isCorrect g.

(** The interval callback of [startScrambleTimer].  It tests
    [seenIsCorrect], the binding of the render that created
    [startScrambleTimer], not the current flag.  A solve clears the interval
    ([updateTrayWord]) and only [nextWord], which resets [isCorrect], starts
    a new one, so no callback runs while the round is solved. *)
Definition scrambleTick (rnd : Draws) (w h : Q) (seenIsCorrect : bool)
  (g : Game) : Game :=
  if seenIsCorrect || isCorrect g then g
  else withTiles (scramblePool rnd w h (tiles g)) g.

Definition nextWord (rnd : Draws) (width height : Q) (nextWordText : string)
  (g : Game) : Game :=
  mkGame (initPool rnd width height) (activeTileId g)
         nextWordText "" false (score g) (time (difficulty g))
         (difficulty g) (S (wordsCompleted g)).

Definition resize (rnd : Draws) (width height : Q) (g : Game) : Game :=
  match tiles g with
  | [] => withTiles (initPool rnd width height) g
  | _ :: _ => g
  end.

Section Frame.

Variable sqrt : Q -> Q.

Definition onResults (cw ch : Q) (multiHandLandmarks : list Hand)
  (g : Game) : Game * list Sound :=
  let '(handPos, isPinching) :=
    match multiHandLandmarks with
    | landmarks :: _ =>
        let idxTipX := (1 - lx (idxTip landmarks))%Q in
        let thumbTipX := (1 - lx (thumbTip landmarks))%Q in
        let handPos :=
          Point.mk ((idxTipX * cw + thumbTipX * cw) / 2)
                   ((ly (idxTip landmarks) * ch
                     + ly (thumbTip landmarks) * ch) / 2) in
        let dx := (idxTipX - thumbTipX)%Q in
        let dy := (ly (idxTip landmarks) - ly (thumbTip landmarks))%Q in
        let pinchDistance := sqrt (dx * dx + dy * dy)%Q in
        (Some handPos,
         match activeTileId g with
         | Some _ => Qltb pinchDistance PINCH_RELEASE_THRESHOLD
         | None => Qltb pinchDistance PINCH_GRAB_THRESHOLD
         end)
    | [] => (None, false)
    end in
  frameTail cw handPos isPinching g.

End Frame.

Definition initial : Game := mkGame [] None "" "" false 0%Z 30%Z MEDIUM 0.

(** The states one mount of the simpler screen can be in. *)
Inductive reachable (sqrt : Q -> Q) : Game -> Prop :=
| reach_initial : reachable sqrt initial
| reach_frame g cw ch hands :
    reachable sqrt g -> reachable sqrt (fst (onResults sqrt cw ch hands g))
| reach_nextWord g rnd w h word :
    unitDraws rnd -> reachable sqrt g ->
    reachable sqrt (nextWord rnd w h word g)
| reach_resize g rnd w h :
    unitDraws rnd -> reachable sqrt g -> reachable sqrt (resize rnd w h g)
| reach_scramble g rnd w h seenIsCorrect :
    unitDraws rnd -> reachable sqrt g ->
    reachable sqrt (scrambleTick rnd w h seenIsCorrect g)
| reach_tick g :
    reachable sqrt g -> reachable sqrt (tickTimer g)
| reach_setDifficulty g d :
    reachable sqrt g -> reachable sqrt (setDifficulty d g).

End Simple.

(** ** The advisory feedback service (services/geminiService.ts)

    An [async] function is a computation in the error monad [sum Thrown]:
    [inl e] is a rejected promise (a throw that escapes), [inr v] a
    fulfilled one.  [try { ... } catch] is the monad's [catch]; a handler
    is itself a computation, so a throw inside a handler escapes it. *)

Module GeminiService.

Import MonadNotation.
Local Open Scope monad_scope.

(** A thrown value is any JavaScript value.  The handlers only read its
    [.message]: on [null] and on [undefined] that read throws a TypeError;
    on every other value it yields a string or [undefined]. *)
Inductive Thrown : Type :=
| nullish
| thrown (message : option string).

Record SpellingFeedback : Type := mkFeedback {
  word : string;
  isValid : bool;
  definition : option string;
  sentence : option string;
  suggestion : option string;
  emoji : option string
}.

(** The request handed to [ai.models.generateContent]. *)
Record Request : Type := mkRequest {
  model : string;
  promptText : string;
  mimeType : string;
  data : string;
  maxOutputTokens : nat;
  temperature : Q;
  responseMimeType : string
}.

(** The response, of which only [.text] is read. *)
Record Response : Type := mkResponse { text : option string }.

Definition MODEL_NAME : string := "gemini-3-flash-preview".

Definition dquote : string := String (ascii_of_nat 34) EmptyString.

Fixpoint stripPrefix (p s : string) : option string :=
  match p, s with
  | EmptyString, _ => Some s
  | String a p', String b s' =>
      if Ascii.eqb a b then stripPrefix p' s' else None
  | String _ _, EmptyString => None
  end.

(** [s.replace(/^data:image\/(png|jpeg|jpg);base64,/, '')]: one of the three
    prefixes is dropped from the start of the string. *)
Definition stripDataUrl (s : string) : string :=
  match stripPrefix "data:image/png;base64," s with
  | Some r => r
  | None =>
      match stripPrefix "data:image/jpeg;base64," s with
      | Some r => r
      | None =>
          match stripPrefix "data:image/jpg;base64," s with
          | Some r => r
          | None => s
          end
      end
  end.

(** [x || fallback] on an optional string: [undefined] and the empty
    string are both falsy. *)
Definition orElse (o : option string) (fallback : string) : string :=
  match o with
  | Some EmptyString | None => fallback
  | Some s => s
  end.

(** [`${v}`] of an optional string. *)
Definition interpolate (o : option string) : string :=
  match o with Some s => s | None => "undefined" end.

(** [Math.round] *)
Definition round (q : Q) : Z := Qfloor (q + 0.5).

Section Service.

(** A value produced by [JSON.parse]. *)
Variable Json : Type.
Variable JSON_parse : string -> Thrown + Json.

(** The remote model, the clock and the fixed instruction text of the
    prompt template around its two holes. *)
Variable generateContent : Request -> Thrown + Response.
Variables startTime endTime : Q.
Variable timestamp : string.
Variables promptHead promptMiddle promptTail : string.

(** The text of the TypeError the engine raises when a property of [null]
    or [undefined] is read. *)
Variable typeErrorText : string.

Definition typeError : Thrown := thrown (Some typeErrorText).

(** [e.message] *)
Definition readMessage (e : Thrown) : Thrown + option string :=
  match e with
  | nullish => inl typeError
  | thrown m => inr m
  end.

(** The [feedback] property is typed [SpellingFeedback] but holds
    whatever [JSON.parse] returned on the success path. *)
Inductive FeedbackValue : Type :=
| parsedJson (j : Json)
| literal (f : SpellingFeedback).

Record DebugInfo : Type := mkDebug {
  latency : Z;
  screenshotBase64 : option string;
  promptContext : string;
  rawResponse : string;
  parsedResponse : option Json;
  error : option string;
  debugTimestamp : string
}.

Record AiResponse : Type := mkAiResponse {
  feedback : FeedbackValue;
  debug : DebugInfo
}.

Definition withError (e : string) (d : DebugInfo) : DebugInfo :=
  mkDebug (latency d) (screenshotBase64 d) (promptContext d)
          (rawResponse d) (parsedResponse d) (Some e) (debugTimestamp d).

Definition fallback (tray hint : string) : FeedbackValue :=
  literal (mkFeedback tray false None None (Some hint) None).

(** The prompt and the cleaned screenshot sent to the model. *)
Definition requestFor (imageBase64 currentTrayLetters : string)
  (availableLetters : list string) : Request :=
  let prompt :=
    (promptHead ++ currentTrayLetters ++ promptMiddle
     ++ String.concat ", " availableLetters ++ promptTail)%string in
  let cleanBase64 := stripDataUrl imageBase64 in
  mkRequest MODEL_NAME prompt "image/png" cleanBase64
            1024 0.7 "application/json".

(** The outer [catch (error: any)] block; [debug] is the object as the
    statements before the throw have left it. *)
Definition apiFailure (currentTrayLetters : string) (debug : DebugInfo)
  (error : Thrown) : Thrown + AiResponse :=
  m <- readMessage error ;;
  ret (mkAiResponse (fallback currentTrayLetters "Coach is resting.")
                    (withError (orElse m "Unknown API Error") debug)).

Definition getSpellingFeedback (imageBase64 currentTrayLetters : string)
  (availableLetters : list string) : Thrown + AiResponse :=
  let debug0 :=
    mkDebug 0 (Some imageBase64)
            ("Tray: " ++ dquote ++ currentTrayLetters ++ dquote
             ++ ", Pool: [" ++ String.concat ", " availableLetters ++ "]")
            "" None None timestamp in
  match generateContent
          (requestFor imageBase64 currentTrayLetters availableLetters)
  with
  | inl error => apiFailure currentTrayLetters debug0 error
  | inr response =>
      let txt := orElse (text response) "{}" in
      let debug1 :=
        mkDebug (round (endTime - startTime)) (screenshotBase64 debug0)
                (promptContext debug0) txt None None
                (debugTimestamp debug0) in
      catch
        (catch
           (json <- JSON_parse txt ;;
            ret (mkAiResponse (parsedJson json)
                   (mkDebug (latency debug1) (screenshotBase64 debug1)
                            (promptContext debug1) (rawResponse debug1)
                            (Some json) None (debugTimestamp debug1))))
           (fun e =>
              m <- readMessage e ;;
              ret (mkAiResponse
                     (fallback currentTrayLetters "Keep trying!")
                     (withError ("JSON Parse Error: " ++ interpolate m)
                                debug1))))
        (apiFailure currentTrayLetters debug1)
  end.

End Service.

End GeminiService.

(** The slot a position of the pool receives from [forEach]: its first
    index in the array of references. *)
Fixpoint indexOf (p : nat) (refs : list nat) : option nat :=
  match refs with
  | [] => None
  | q :: refs' => if q =? p then Some 0 else option_map S (indexOf p refs')
  end.

(** The array [trayTiles] of a drop inside the band: the other tiles of the
    tray once the released tile at position [k] is marked as in the tray. *)
Definition otherTrayTiles (k : nat) (tile : LetterTile) (ts : list LetterTile)
  : list (nat * LetterTile) :=
  trayTilesOf tile (updateAt k (setInTray true) ts).

(** The array [trayTiles.concat(tile)], as positions of the pool. *)
Definition slotOrder (k : nat) (tile : LetterTile) (ts : list LetterTile)
  : list nat :=
  map fst (otherTrayTiles k tile ts) ++ [k].

(** ** One frame of either screen *)

(** [frame sqrt g g' snds]: one call of [onResults], on the richer or on the
    simpler screen, takes the game from [g] to [g'] and plays [snds]. *)
Inductive frame (sqrt : Q -> Q) : Game -> Game -> list Sound -> Prop :=
| frame_rich cw ch hands (s : Rich.State) :
    frame sqrt (Rich.game s)
          (Rich.game (fst (Rich.onResults sqrt cw ch hands s)))
          (snd (Rich.onResults sqrt cw ch hands s))
| frame_simple cw ch hands (g : Game) :
    frame sqrt g
          (fst (Simple.onResults sqrt cw ch hands g))
          (snd (Simple.onResults sqrt cw ch hands g)).

(** The four things the drag controller and the settle animator can do in
    one frame: nothing but settling, a grab, a move of the active tile, or a
    release. *)
Inductive FrameOutcome (cw : Q) (handPos : option Point.t) (isPinching : bool)
  (g : Game) : Game * list Sound -> Prop :=
| frame_idle :
    activeTileId g = None ->
    (forall h, handPos = Some h -> isPinching && negb (isCorrect g) = true ->
               find (hitTest h) (tiles g) = None) ->
    FrameOutcome cw handPos isPinching g
      (withTiles (settle (tiles g)) g, [])
| frame_grab h k clicked :
    handPos = Some h -> isPinching = true -> isCorrect g = false ->
    activeTileId g = None ->
    find (hitTest h) (tiles g) = Some (k, clicked) ->
    FrameOutcome cw handPos isPinching g
      (withActive (Some (id clicked))
         (withTiles (settle (updateAt k (setDragging true) (tiles g))) g),
       [click])
| frame_move h aid :
    handPos = Some h -> isPinching = true -> isCorrect g = false ->
    activeTileId g = Some aid ->
    FrameOutcome cw handPos isPinching g
      (withTiles
         (settle
            match find (fun t => (id t =? aid)%string) (tiles g) with
            | Some (k, _) =>
                updateAt k (setPos (Point.x h) (Point.y h)) (tiles g)
            | None => tiles g
            end) g,
       [])
| frame_release aid :
    activeTileId g = Some aid ->
    (handPos = None \/ isPinching = false \/ isCorrect g = true) ->
    FrameOutcome cw handPos isPinching g
      (let ts' := fst (dropActive cw aid (tiles g)) in
       let r := updateTrayWord (withActive None (withTiles ts' g)) in
       (withTiles (settle ts') (fst r),
        snd (dropActive cw aid (tiles g)) ++ snd r)).

(** ** Invariants of the pool *)

(** At most one tile of the pool is dragged, and a dragged tile is the
    active one. *)
Definition oneTileDragged (g : Game) : Prop :=
  (forall i j ti tj,
      nth_error (tiles g) i = Some ti -> nth_error (tiles g) j = Some tj ->
      isDragging ti = true -> isDragging tj = true -> i = j) /\
  (forall t, In t (tiles g) -> isDragging t = true ->
             activeTileId g = Some (id t)).

(** What every step preserves: the ids of the pool are distinct and every
    dragged tile carries the active id. *)
Definition dragInvariant (g : Game) : Prop :=
  NoDup (map id (tiles g)) /\
  (forall t, In t (tiles g) -> isDragging t = true ->
             activeTileId g = Some (id t)).

(** The two fields of a tile the drag invariant is about. *)
Definition flagsOf (t : LetterTile) : string * bool := (id t, isDragging t).

(** The letters of a word. *)
Definition letters (w : string) : list ascii := list_ascii_of_string w.

(** What every step of the simpler screen preserves: the characters of the
    pool are distinct and a solved round has a target without a repeated
    letter. *)
Definition poolInvariant (g : Game) : Prop :=
  NoDup (map char (tiles g)) /\
  (isCorrect g = true -> NoDup (letters (currentWord g))).

(** ** The countdown of a round (startTimer) *)

(** The updater the interval hands to [setTimeLeft]: the new number of
    seconds, the sounds it plays, and whether the interval cleared itself
    (after which [nextWord] is scheduled). *)
Definition timerCallback (prev : Z) : Z * list Sound * bool :=
  let ticks := if (prev <=? 5)%Z && (0 <? prev)%Z then [tick] else [] in
  if (prev <=? 1)%Z then (0%Z, ticks ++ [failure], true)
  else ((prev - 1)%Z, ticks, false).

(** [n] seconds of the interval, which fires no more once it is cleared. *)
Fixpoint countdown (n : nat) (prev : Z) : Z * list Sound * bool :=
  match n with
  | 0 => (prev, [], false)
  | S n' =>
      let '(t, snds, cleared) := timerCallback prev in
      if cleared then (t, snds, true)
      else
        let '(t', snds', cleared') := countdown n' t in
        (t', snds ++ snds', cleared')
  end.

(** ** The hand cursor of the richer screen *)

(** [Math.max(0, Math.min(1, 1 - (pinchDistance - 0) / (PINCH_GRAB_THRESHOLD * 2)))] *)
Definition pinchStrength (pinchDistance : Q) : Q :=
  Qmax 0 (Qmin 1 (1 - (pinchDistance - 0) / (Rich.PINCH_GRAB_THRESHOLD * 2))).

Definition outerR (pinchDistance : Q) : Q := 30 - pinchStrength pinchDistance * 12.

Definition innerR (pinchDistance : Q) : Q := 4 + pinchStrength pinchDistance * 8.

(** ** Sequences of frames *)

(** The richer screen fed one frame after the other. *)
Fixpoint runFrames (sqrt : Q -> Q) (cw ch : Q) (frames : list (list Hand))
  (s : Rich.State) : Rich.State :=
  match frames with
  | [] => s
  | hands :: rest =>
      runFrames sqrt cw ch rest (fst (Rich.onResults sqrt cw ch hands s))
  end.

(** [n] rounds of the settle animator. *)
Fixpoint settleTimes (n : nat) (ts : list LetterTile) : list LetterTile :=
  match n with
  | 0 => ts
  | S n' => settleTimes n' (settle ts)
  end.

(** Every field of a tile but its target. *)
Definition untargeted (t : LetterTile)
  : string * ascii * Q * Q * TileColor * bool * bool * option nat :=
  (id t, char t, x t, y t, color t, isDragging t, inTray t, trayIndex t).

(** The fields of a tile the tray word is read from. *)
Definition trayView (t : LetterTile) : bool * nat * ascii :=
  (inTray t, trayKey t, char t).

(** The fields of a tile no frame writes. *)
Definition identityOf (t : LetterTile) : string * ascii * TileColor :=
  (id t, char t, color t).

(** The id, the character and the colour of the tile built at [charIdx]. *)
Definition identityAt (c : ascii) (charIdx : nat) : string * ascii * TileColor :=
  (tileId c charIdx, c,
   nth (charIdx mod List.length TILE_COLORS) TILE_COLORS red).

(** The target abscissa of slot [j] in a tray row of [n] tiles:
    [startX + i * TILE_SIZE * 1.1 - (TILE_SIZE * 1.1) / 2] with
    [startX = (cw - n * TILE_SIZE * 1.1) / 2 + (TILE_SIZE * 1.1) / 2]. *)
Definition slotTarget (cw : Q) (n j : nat) : Q :=
  (cw - inject_Z (Z.of_nat n) * 66) / 2 + inject_Z (Z.of_nat j) * 66.

(** Every tile of the tray aims at the slot its index names. *)
Definition trayLaidOut (cw : Q) (ts : list LetterTile) : Prop :=
  forall p t, nth_error ts p = Some t -> inTray t = true ->
    exists j, trayIndex t = Some j /\ targetY t = TRAY_Y /\
              (targetX t == slotTarget cw (List.length (filter inTray ts)) j)%Q.

(** A point of the canvas, and a hand whose landmarks are normalised. *)
Definition onCanvas (cw ch : Q) (p : Point.t) : Prop :=
  (0 <= Point.x p <= cw)%Q /\ (0 <= Point.y p <= ch)%Q.

Definition normalised (l : Landmark) : Prop :=
  (0 <= lx l <= 1)%Q /\ (0 <= ly l <= 1)%Q.

(** [Math.floor(Math.random() * (i + 1))] for the [k]-th draw of a
    shuffle. *)
Definition drawIndex (rnd : Draws) (k i : nat) : nat :=
  Z.to_nat (Qfloor (rnd k * inject_Z (Z.of_nat (i + 1)))).

(** A tile as [initPool] leaves it: at rest on its target, out of the
    tray. *)
Definition atRest (t : LetterTile) : Prop :=
  x t = targetX t /\ y t = targetY t /\
  isDragging t = false /\ inTray t = false /\ trayIndex t = None.

(** ** The word lists (wordLists.ts) *)

Inductive Category : Type := ANIMALS | NATURE | OBJECTS | ACTIONS.

Definition WORD_CATEGORIES (c : Category) (d : Difficulty) : list string :=
  match c, d with
  | ANIMALS, EASY =>
      ["CAT"; "DOG"; "BAT"; "PIG"; "COW"; "FOX"; "OWL"; "BEE"; "ANT"; "YAK"]
  | ANIMALS, MEDIUM =>
      ["TIGER"; "ZEBRA"; "HORSE"; "SHEEP"; "PANDA"; "KOALA"; "EAGLE";
       "SHARK"; "WHALE"; "SNAKE"]
  | ANIMALS, HARD =>
      ["ELEPHANT"; "GIRAFFE"; "DOLPHIN"; "PENGUIN"; "CHEETAH"; "GORILLA";
       "OCTOPUS"; "BUTTERFLY"; "KANGAROO"; "CROCODILE"]
  | NATURE, EASY =>
      ["SUN"; "SKY"; "SEA"; "BUD"; "DEW"; "FOG"; "MUD"; "ICE"; "GAS"; "AIR"]
  | NATURE, MEDIUM =>
      ["RIVER"; "CLOUD"; "STORM"; "GRASS"; "FLOWER"; "STONE"; "WATER";
       "BEACH"; "NIGHT"; "PLANT"]
  | NATURE, HARD =>
      ["MOUNTAIN"; "VOLCANO"; "TORNADO"; "THUNDER"; "RAINBOW"; "FOREST";
       "DESERT"; "GLACIER"; "SUNRISE"; "BLOSSOM"]
  | OBJECTS, EASY =>
      ["BAT"; "BOX"; "CAN"; "FAN"; "HAT"; "JAR"; "KEY"; "MAP"; "PAN"; "TAG"]
  | OBJECTS, MEDIUM =>
      ["TABLE"; "CHAIR"; "CLOCK"; "PHONE"; "GLASS"; "PLATE"; "SPOON";
       "BRUSH"; "PAPER"; "WATCH"]
  | OBJECTS, HARD =>
      ["COMPUTER"; "KEYBOARD"; "MONITOR"; "UMBRELLA"; "SCISSORS";
       "TRUMPET"; "GUITAR"; "CAMERA"; "LADDER"; "WHISTLE"]
  | ACTIONS, EASY =>
      ["RUN"; "SIT"; "EAT"; "FLY"; "CRY"; "MIX"; "DIG"; "HOP"; "CUT"; "NAP"]
  | ACTIONS, MEDIUM =>
      ["DANCE"; "SLEEP"; "WRITE"; "DRINK"; "LAUGH"; "CLIMB"; "SWIM";
       "DRIVE"; "PAINT"; "SMILE"]
  | ACTIONS, HARD =>
      ["EXPLORE"; "WHISPER"; "STRETCH"; "BOUNCE"; "SPRINT"; "JUGGLE";
       "SKETCH"; "LISTEN"; "WANDER"; "TRAVEL"]
  end.

Definition categories : list Category := [ANIMALS; NATURE; OBJECTS; ACTIONS].

Definition difficulties : list Difficulty := [EASY; MEDIUM; HARD].

(** Every word of every list, category by category. *)
Definition allWords : list string :=
  flat_map (fun c => flat_map (WORD_CATEGORIES c) difficulties) categories.

(** [wordList[Math.floor(Math.random() * wordList.length)]]; [None] is
    [undefined]. *)
Definition pickWord (r : Q) (wordList : list string) : option string :=
  nth_error wordList
    (Z.to_nat (Qfloor (r * inject_Z (Z.of_nat (List.length wordList))))).

(** No character occurs twice. *)
Fixpoint distinctb (l : list ascii) : bool :=
  match l with
  | [] => true
  | c :: l' => negb (existsb (Ascii.eqb c) l') && distinctb l'
  end.

(** An upper-case word of letters of the alphabet, not empty. *)
Definition plainWord (w : string) : bool :=
  (toUpperCase w =? w)%string && (0 <? String.length w)
  && forallb (fun c => existsb (Ascii.eqb c) alphabet) (letters w).

(** The listed words with a letter that occurs twice. *)
Definition repeatedLetterWords : list string :=
  filter (fun w => negb (distinctb (letters w))) allWords.

(** The grid of the pool: the row, the column and the number of columns of
    that row for the [i]-th tile laid out over rows of [rows] columns, the
    first of which has index [rowIndex]. *)
Fixpoint cellOf (rows : list nat) (rowIndex i : nat)
  : option (nat * nat * nat) :=
  match rows with
  | [] => None
  | n :: rows' =>
      if i <? n then Some (rowIndex, i, n)
      else cellOf rows' (S rowIndex) (i - n)
  end.

(** The abscissa of column [c] in a row of [n] tiles and the ordinate of row
    [r] in a pool of [rowsN] rows, with cells of 60 * 1.3 = 78. *)
Definition gridX (w : Q) (n c : nat) : Q :=
  (w - inject_Z (Z.of_nat n) * 78) / 2 + inject_Z (Z.of_nat c) * 78.

Definition gridY (h : Q) (rowsN r : nat) : Q :=
  h - inject_Z (Z.of_nat rowsN) * 78 - 40 + inject_Z (Z.of_nat r) * 78.

(** What the session keeps in step: the displayed tray word is the one the
    tiles spell, and a solved round has no active tile and a tray that
    spells the non-empty target. *)
Definition sessionInvariant (g : Game) : Prop :=
  trayWord g = trayLetters (tiles g) /\
  (isCorrect g = true ->
   activeTileId g = None /\ trayLetters (tiles g) = currentWord g /\
   currentWord g <> "").

(** The number a letter has in the object [wordLetterCounts], 0 when it is
    no key of it. *)
Definition countIn (c : ascii) (m : list (ascii * nat)) : nat :=
  list_sum (map (fun e => if ascii_dec (fst e) c then snd e else 0) m).

(** ** The strategic hint of the advisory service (getStrategicHint) *)

Module StrategicHint.

Import MonadNotation.
Local Open Scope monad_scope.

Record TargetCandidate : Type := mkCandidate {
  candidateId : string;
  candidateColor : string;
  size : Q;
  row : Q;
  col : Q;
  pointsPerBubble : Q;
  description : string
}.

(** The object literal of the two fallbacks. *)
Record FallbackHint : Type := mkHint {
  hintMessage : string;
  rationale : string
}.

Section Service.

Variable Json : Type.
Variable JSON_parse : string -> GeminiService.Thrown + Json.

(** [JSON.stringify(allClusters)], [JSON.stringify(allClusters, null, 2)]
    and the text of a number in a template. *)
Variable JSON_stringify : list TargetCandidate -> string.
Variable JSON_stringify_pretty : list TargetCandidate -> string.
Variable numberText : Q -> string.

Variable generateContent :
  GeminiService.Request -> GeminiService.Thrown + GeminiService.Response.
Variables startTime endTime : Q.
Variable timestamp : string.
Variables promptHead promptMiddle promptTail : string.
Variable typeErrorText : string.

(** The [hint] property is typed [any]. *)
Inductive HintValue : Type :=
| parsedHint (j : Json)
| literalHint (h : FallbackHint).

Record HintResponse : Type := mkHintResponse {
  hint : HintValue;
  debug : GeminiService.DebugInfo Json
}.

Definition requestFor (imageBase64 : string) (allClusters : list TargetCandidate)
  (maxRow : Q) : GeminiService.Request :=
  let prompt :=
    (promptHead ++ JSON_stringify_pretty allClusters ++ promptMiddle
     ++ numberText maxRow ++ promptTail)%string in
  let cleanBase64 := GeminiService.stripDataUrl imageBase64 in
  GeminiService.mkRequest GeminiService.MODEL_NAME prompt "image/png"
                          cleanBase64 512 0.2 "application/json".

(** The outer [catch (error: any)] block. *)
Definition apiFailure (debug : GeminiService.DebugInfo Json)
  (error : GeminiService.Thrown) : GeminiService.Thrown + HintResponse :=
  m <- GeminiService.readMessage typeErrorText error ;;
  ret (mkHintResponse
         (literalHint
            (mkHint "Tactical computer offline..."
                    "API communication issue."))
         (GeminiService.withError Json
            (GeminiService.orElse m "Unknown API Error") debug)).

Definition getStrategicHint (imageBase64 : string)
  (allClusters : list TargetCandidate) (maxRow : Q)
  : GeminiService.Thrown + HintResponse :=
  let debug0 :=
    GeminiService.mkDebug Json 0 (Some imageBase64)
      ("Reachable Clusters: " ++ JSON_stringify allClusters
       ++ ", Max Active Row: " ++ numberText maxRow)
      "" None None timestamp in
  match generateContent (requestFor imageBase64 allClusters maxRow) with
  | inl error => apiFailure debug0 error
  | inr response =>
      let txt := GeminiService.orElse (GeminiService.text response) "{}" in
      let debug1 :=
        GeminiService.mkDebug Json
          (GeminiService.round (endTime - startTime))
          (GeminiService.screenshotBase64 Json debug0)
          (GeminiService.promptContext Json debug0) txt None None
          (GeminiService.debugTimestamp Json debug0) in
      catch
        (catch
           (json <- JSON_parse txt ;;
            ret (mkHintResponse (parsedHint json)
                   (GeminiService.mkDebug Json
                      (GeminiService.latency Json debug1)
                      (GeminiService.screenshotBase64 Json debug1)
                      (GeminiService.promptContext Json debug1)
                      (GeminiService.rawResponse Json debug1)
                      (Some json) None
                      (GeminiService.debugTimestamp Json debug1))))
           (fun e =>
              m <- GeminiService.readMessage typeErrorText e ;;
              ret (mkHintResponse
                     (literalHint
                        (mkHint "Focus on the big clusters!"
                                "AI advice encountered a parsing snag."))
                     (GeminiService.withError Json
                        ("JSON Parse Error: " ++ GeminiService.interpolate m)
                        debug1))))
        (apiFailure debug1)
  end.

End Service.

End StrategicHint.

(** ** The render the frame callback belongs to

    [onResults] is created by an effect whose dependencies are
    [initPool, currentWord, isCorrect, playSound]; it is created again only
    after a render in which one of them has changed.  Until then
    [updateTrayWord], which it calls, reads the [timeLeft] and the
    [difficulty] of the render that created it.  [currentWord] and
    [isCorrect] are dependencies, the score is updated through
    [setScore(prev => ...)], and the tiles, the active id and the gesture
    state are refs: these are always the current ones.  [initPool] never
    changes; [playSound] changes with the sound setting, which is not part
    of this model. *)
Record Seen : Type := mkSeen { seenTimeLeft : Z; seenDifficulty : Difficulty }.

Definition seenAt (g : Game) : Seen := mkSeen (timeLeft g) (difficulty g).

(** The game as the callback reads it. *)
Definition asSeen (r : Seen) (g : Game) : Game :=
  mkGame (tiles g) (activeTileId g) (currentWord g) (trayWord g)
         (isCorrect g) (score g) (seenTimeLeft r) (seenDifficulty r)
         (wordsCompleted g).

(** What a frame leaves: it writes neither [timeLeft] nor [difficulty]. *)
Definition withClock (live g : Game) : Game :=
  mkGame (tiles g) (activeTileId g) (currentWord g) (trayWord g)
         (isCorrect g) (score g) (timeLeft live) (difficulty live)
         (wordsCompleted g).

(** The richer screen with the bindings its registered callback holds. *)
Record Session : Type := mkSession { current : Rich.State; seen : Seen }.

(** The effect after a render. *)
Definition rerender (before after : Game) (r : Seen) : Seen :=
  if (currentWord before =? currentWord after)%string
     && Bool.eqb (isCorrect before) (isCorrect after)
  then r else seenAt after.

(** The first render: no word, 30 seconds, MEDIUM. *)
Definition mount : Session :=
  mkSession Rich.initial (seenAt (Rich.game Rich.initial)).

Definition sessionFrame (sqrt : Q -> Q) (cw ch : Q) (hands : list Hand)
  (m : Session) : Session * list Sound :=
  let g := Rich.game (current m) in
  let out := Rich.onResults sqrt cw ch hands
               (Rich.withGame (asSeen (seen m) g) (current m)) in
  let g' := withClock g (Rich.game (fst out)) in
  (mkSession (Rich.withGame g' (fst out)) (rerender g g' (seen m)), snd out).

Definition sessionNextWord (rnd : Draws) (w h : Q) (word : string)
  (m : Session) : Session :=
  let g := Rich.game (current m) in
  let g' := Rich.nextWord rnd w h word g in
  mkSession (Rich.withGame g' (current m)) (rerender g g' (seen m)).

(** A timer tick renders again, and no dependency of the effect changes. *)
Definition sessionTick (m : Session) : Session :=
  mkSession (Rich.withGame (tickTimer (Rich.game (current m))) (current m))
            (seen m).

Fixpoint sessionTicks (n : nat) (m : Session) : Session :=
  match n with
  | 0 => m
  | S n' => sessionTicks n' (sessionTick m)
  end.

(** ** The comparison the specification describes *)

(** Equality of two words up to the case of their letters. *)
Definition equalsIgnoreCase (a b : string) : Prop :=
  toUpperCase a = toUpperCase b.

(** ** Concrete pools and frames *)

(** A tile resting in slot [i] of the tray. *)
Definition trayTile (c : ascii) (i : nat) : LetterTile :=
  mkTile (tileId c i) c (inject_Z (Z.of_nat i) * 66) TRAY_Y
         (inject_Z (Z.of_nat i) * 66) TRAY_Y red false true (Some i).

Fixpoint spelledFrom (i : nat) (l : list ascii) : list LetterTile :=
  match l with
  | [] => []
  | c :: l' => trayTile c i :: spelledFrom (S i) l'
  end.

(** A pool whose tray spells [w], slot by slot. *)
Definition spelled (w : string) : list LetterTile :=
  spelledFrom 0 (list_ascii_of_string w).

(** A round with target [target] whose tray spells [tray]. *)
Definition trayGame (tray target : string) : Game :=
  mkGame (spelled tray) None target "" false 0%Z 20%Z MEDIUM 0.

(** A tile held by the hand at height [py], out of the tray until now. *)
Definition heldTile (c : ascii) (i : nat) (py : Q) : LetterTile :=
  mkTile (tileId c i) c 400 py 100 600 blue true false None.

(** D and O rest in the tray and G is held over the tray line; the target
    is DOG at MEDIUM with 20 seconds left. *)
Definition dogGame : Game :=
  mkGame (spelled "DO" ++ [heldTile "G" 2 TRAY_Y])
         (Some (tileId "G" 2)) "DOG" "DO" false 0%Z 20%Z MEDIUM 1.

Definition dogState : Rich.State :=
  Rich.mkState dogGame (Point.mk 400 220) 3 true.


(** An open hand over the point (100, 200) of a 1000 x 1000 canvas. *)
Definition openHand : Hand :=
  mkHand (mkLandmark 0.9 0.1) (mkLandmark 0.9 0.3).

(** A, B and C rest in slots 0, 1 and 2 of the tray; A has been grabbed
    again and is held at height [py]. *)
Definition regrabbedGame (py : Q) : Game :=
  mkGame [mkTile (tileId "A" 0) "A" 300 py 0 TRAY_Y red true true (Some 0);
          trayTile "B" 1; trayTile "C" 2]
         (Some (tileId "A" 0)) "CAB" "ABC" false 0%Z 20%Z MEDIUM 1.

(** Draws that are all 0: every swap of the shuffle takes position 0. *)
Definition zeroDraws : Draws := fun _ => 0%Q.

(** A closed pinch over the canvas point (289, 446) of a 1280 x 720 canvas,
    where the first tile of a three-row pool lies. *)
Definition pinchOnFirstTile : Hand :=
  mkHand (mkLandmark (1 - 289 / 1280) (446 / 720))
         (mkLandmark (1 - 289 / 1280) (446 / 720)).

(** The simpler screen after a new round and one frame with that pinch. *)
Definition grabbedGame : Game :=
  fst (Simple.onResults Qsqrt 1280 720 [pinchOnFirstTile]
         (Simple.nextWord zeroDraws 1280 720 "CHEETAH" Simple.initial)).

(** A closed pinch over the canvas point ([px], [py]). *)
Definition pinchAt (cw ch px py : Q) : Hand :=
  mkHand (mkLandmark (1 - px / cw) (py / ch))
         (mkLandmark (1 - px / cw) (py / ch)).

(** The simpler screen with the one-letter round "B" played to the end: the
    first tile is grabbed, carried into the tray band and let go. *)
Definition carriedGame : Game :=
  fst (Simple.onResults Qsqrt 1280 720 [pinchAt 1280 720 640 220]
         (fst (Simple.onResults Qsqrt 1280 720 [pinchOnFirstTile]
                 (Simple.nextWord zeroDraws 1280 720 "B" Simple.initial)))).

Definition solvedGame : Game :=
  fst (Simple.onResults Qsqrt 1280 720 [] carriedGame).

(** A hand whose fingertips are 0.08 apart around the canvas point
    (400, 220) of a 1000 x 1000 canvas: too open to grab, closed enough to
    hold. *)
Definition looseHand : Hand :=
  mkHand (mkLandmark 0.6 0.18) (mkLandmark 0.6 0.26).

(** D and O rest in the tray of the richer screen; the cursor was last seen
    over D, and [n] pinch frames have been counted. *)
Definition restingState (n : nat) (confirmed : bool) : Rich.State :=
  Rich.mkState (trayGame "DO" "DOG") (Point.mk 0 220) n confirmed.

(** A second draw sequence, and the round it deals while the first tile of
    [grabbedGame] is still held. *)
Definition halfDraws : Draws := fun _ => (1 # 2)%Q.

Definition staleGame : Game :=
  Simple.nextWord halfDraws 1280 720 "DOG" grabbedGame.

(** The same tray and held tile in a round whose target is DOGS, so that
    dropping G does not solve it. *)
Definition dogsState : Rich.State :=
  Rich.mkState
    (mkGame (spelled "DO" ++ [heldTile "G" 2 TRAY_Y])
            (Some (tileId "G" 2)) "DOGS" "DO" false 0%Z 20%Z MEDIUM 1)
    (Point.mk 400 220) 3 true.

(** D and O rest in the tray and G is held over the tray line, ten seconds
    into a round of DOG at MEDIUM whose callback was registered when the
    round began. *)
Definition dogSession : Session := mkSession dogState (mkSeen 30 MEDIUM).

(** * Properties *)

(** ** Numbers and arrays *)

Lemma Qltb_lt (a b : Q) : Qltb a b = true <-> (a < b)%Q.
Proof.
  unfold Qltb. rewrite Qlt_alt.
  destruct (a ?= b)%Q; split; intro H; congruence.
Qed.

Lemma nth_error_updateAt {A : Type} (f : A -> A) (l : list A) (i j : nat) :
  nth_error (updateAt i f l) j =
  if i =? j then option_map f (nth_error l j) else nth_error l j.
Proof.
  revert i j; induction l as [|a l IH]; intros i j.
  - destruct i, j; simpl; try reflexivity.
    now destruct (i =? j).
  - destruct i, j; simpl; auto.
Qed.

Lemma map_updateAt {A B : Type} (g : A -> B) (f : A -> A) (l : list A) (i : nat) :
  (forall a, g (f a) = g a) -> map g (updateAt i f l) = map g l.
Proof.
  intros Hf. revert i; induction l as [|a l IH]; intros [|i]; simpl;
    rewrite ?Hf, ?IH; auto.
Qed.

Lemma findFrom_Some {A : Type} (p : A -> bool) (l : list A) (i k : nat) (a : A) :
  findFrom p i l = Some (k, a) ->
  i <= k /\ nth_error l (k - i) = Some a /\ p a = true /\
  forall j b, j < k - i -> nth_error l j = Some b -> p b = false.
Proof.
  revert i; induction l as [|b l IH]; simpl; intros i H; [discriminate|].
  destruct (p b) eqn:Hp.
  - inversion H; subst. rewrite Nat.sub_diag. simpl.
    repeat split; auto. intros j c Hj; lia.
  - apply IH in H. destruct H as (Hle & Hn & Hpa & Hmin).
    replace (k - i) with (S (k - S i)) by lia. simpl.
    repeat split; auto; try lia.
    intros [|j] c Hj Hc; simpl in Hc.
    + congruence.
    + apply (Hmin j); auto. lia.
Qed.

Lemma find_Some {A : Type} (p : A -> bool) (l : list A) (k : nat) (a : A) :
  find p l = Some (k, a) ->
  nth_error l k = Some a /\ p a = true /\
  forall j b, j < k -> nth_error l j = Some b -> p b = false.
Proof.
  intros H. apply findFrom_Some in H. rewrite Nat.sub_0_r in H. tauto.
Qed.

Lemma findFrom_None {A : Type} (p : A -> bool) (l : list A) (i : nat) :
  findFrom p i l = None -> forall a, In a l -> p a = false.
Proof.
  revert i; induction l as [|b l IH]; simpl; intros i H a Ha; [tauto|].
  destruct (p b) eqn:Hp; [discriminate|].
  destruct Ha as [<-|Ha]; eauto.
Qed.

Lemma find_None {A : Type} (p : A -> bool) (l : list A) :
  find p l = None -> forall a, In a l -> p a = false.
Proof. apply findFrom_None. Qed.

(** ** Fields that a frame never writes *)

Lemma assignSlots_map {B : Type} (g : LetterTile -> B) (sx : Q) :
  (forall i t, g (slot sx i t) = g t) ->
  forall refs i ts, map g (assignSlots sx i refs ts) = map g ts.
Proof.
  intros Hg refs; induction refs as [|p refs IH]; intros i ts; simpl; auto.
  rewrite IH. apply map_updateAt. intros; apply Hg.
Qed.

Lemma dropInside_map {B : Type} (g : LetterTile -> B) cw k tile ts :
  (forall a b t, g (setTarget a b t) = g t) ->
  (forall o t, g (setTrayIndex o t) = g t) ->
  (forall b t, g (setInTray b t) = g t) ->
  map g (dropInside cw k tile ts) = map g ts.
Proof.
  intros H1 H2 H3. unfold dropInside.
  rewrite assignSlots_map, !map_updateAt; auto.
  - intros; unfold setTargetY; now rewrite H1, H2.
  - intros; unfold slot; now rewrite H1, H2.
Qed.

Lemma settle_map {B : Type} (g : LetterTile -> B) ts :
  (forall a b t, g (setPos a b t) = g t) ->
  map g (settle ts) = map g ts.
Proof.
  intros H. unfold settle. rewrite map_map. apply map_ext.
  intros t; unfold ease. destruct (isDragging t); auto.
Qed.

Lemma updateTrayWord_tiles g : tiles (fst (updateTrayWord g)) = tiles g.
Proof.
  unfold updateTrayWord.
  destruct (_ && _); reflexivity.
Qed.

Lemma updateTrayWord_active g :
  activeTileId (fst (updateTrayWord g)) = activeTileId g.
Proof.
  unfold updateTrayWord.
  destruct (_ && _); reflexivity.
Qed.

(** ** The four things a frame can do *)

Lemma release_settled cw aid g :
  (let '(g', snds) := release cw aid g in
   (withTiles (settle (tiles g')) g', snds)) =
  (let ts' := fst (dropActive cw aid (tiles g)) in
   let r := updateTrayWord (withActive None (withTiles ts' g)) in
   (withTiles (settle ts') (fst r),
    snd (dropActive cw aid (tiles g)) ++ snd r)).
Proof.
  unfold release.
  destruct (dropActive cw aid (tiles g)) as [ts' s1]. cbv zeta. simpl fst.
  pose proof (updateTrayWord_tiles (withActive None (withTiles ts' g))) as Ht.
  destruct (updateTrayWord _) as [g' s2]. simpl in *. now rewrite Ht.
Qed.

Lemma frameTail_outcome cw handPos isPinching g :
  FrameOutcome cw handPos isPinching g (frameTail cw handPos isPinching g).
Proof.
  unfold frameTail, dragController.
  destruct handPos as [h|], isPinching, (isCorrect g) eqn:Hc,
    (activeTileId g) as [aid|] eqn:Ha; simpl;
    try (rewrite release_settled; apply frame_release; now auto);
    try (apply frame_idle;
         [assumption | intros h' E1 E2; rewrite ?Hc in E2; simpl in E2; congruence]).
  - pose proof (frame_move cw (Some h) true g h aid eq_refl eq_refl Hc Ha) as H.
    destruct (find _ (tiles g)) as [[k t]|]; simpl; exact H.
  - destruct (find (hitTest h) (tiles g)) as [[k clicked]|] eqn:Hf; simpl.
    + eapply frame_grab; eauto.
    + apply frame_idle; auto. intros h' Hh _. congruence.
Qed.

(** ** Scoring *)

Lemma dropActive_sounds cw aid ts :
  ~ In success (snd (dropActive cw aid ts)).
Proof.
  unfold dropActive.
  destruct (find _ ts) as [[k tile]|]; simpl; auto.
  destruct (inBand tile); simpl; auto.
  destruct (inTray tile); simpl; intuition discriminate.
Qed.

Lemma updateTrayWord_score g :
  let r := updateTrayWord g in
  (In success (snd r) ->
   score (fst r) =
   (score g + solveBonus (currentWord g) (difficulty g) (timeLeft g))%Z) /\
  (~ In success (snd r) -> score (fst r) = score g).
Proof.
  unfold updateTrayWord.
  destruct (_ && _) eqn:E; simpl; split; intros H; auto.
  - apply andb_prop in E. destruct E as [E _].
    apply String.eqb_eq in E. now rewrite E.
  - exfalso; apply H; auto.
  - tauto.
Qed.

Lemma frameTail_score cw handPos isPinching g :
  let r := frameTail cw handPos isPinching g in
  (In success (snd r) ->
   score (fst r) =
   (score g + solveBonus (currentWord g) (difficulty g) (timeLeft g))%Z) /\
  (~ In success (snd r) -> score (fst r) = score g).
Proof.
  destruct (frameTail_outcome cw handPos isPinching g); simpl;
    try (split; [intros [?|[]]; discriminate || tauto | reflexivity]).
  - split; [tauto | reflexivity].
  - split; [tauto | reflexivity].
  - set (g0 := withActive None (withTiles (fst (dropActive cw aid (tiles g))) g)).
    pose proof (updateTrayWord_score g0) as [Hs Hn]. simpl in Hs, Hn.
    pose proof (dropActive_sounds cw aid (tiles g)) as Hd.
    split; intros Hin.
    + apply in_app_or in Hin. destruct Hin as [Hin|Hin]; [tauto|].
      apply Hs in Hin. exact Hin.
    + apply Hn. intros Hc. apply Hin. apply in_or_app. now right.
Qed.

Lemma rich_onResults_frameTail sqrt cw ch hands s :
  exists handPos isPinching,
    Rich.game (fst (Rich.onResults sqrt cw ch hands s))
    = fst (frameTail cw handPos isPinching (Rich.game s)) /\
    snd (Rich.onResults sqrt cw ch hands s)
    = snd (frameTail cw handPos isPinching (Rich.game s)) /\
    (hands = [] -> handPos = None).
Proof.
  unfold Rich.onResults.
  destruct hands as [|h hs].
  - destruct (Rich.isSome _);
      match goal with |- context [frameTail ?a ?b ?c ?d] =>
        exists b, c; destruct (frameTail a b c d) end; auto.
  - destruct (Qltb _ _);
      [ destruct (Rich.GRAB_CONFIRM_FRAMES <=? _) | destruct (Rich.isSome _) ];
      match goal with |- context [frameTail ?a ?b ?c ?d] =>
        exists b, c; destruct (frameTail a b c d) end;
      simpl; repeat split; auto; discriminate.
Qed.

Lemma simple_onResults_frameTail sqrt cw ch hands g :
  exists handPos isPinching,
    Simple.onResults sqrt cw ch hands g = frameTail cw handPos isPinching g /\
    (hands = [] -> handPos = None).
Proof.
  unfold Simple.onResults.
  destruct hands as [|h hs]; eauto.
  eexists; eexists; split; [reflexivity | discriminate].
Qed.

(** The bonus of a solving frame, in the bindings its callback reads. *)
Lemma solve_adds_length_and_time_bonus :
  forall sqrt cw ch hands (s : Rich.State),
    In success (snd (Rich.onResults sqrt cw ch hands s)) ->
    score (Rich.game (fst (Rich.onResults sqrt cw ch hands s))) =
    (score (Rich.game s)
     + Qfloor (inject_Z (Z.of_nat (String.length (currentWord (Rich.game s))))
               * 10 * multiplier (difficulty (Rich.game s)))
     + Qfloor (inject_Z (timeLeft (Rich.game s))
               * multiplier (difficulty (Rich.game s))))%Z.
Proof.
  intros sqrt cw ch hands s Hin.
  destruct (rich_onResults_frameTail sqrt cw ch hands s)
    as (hp & pinch & Hg & Hs & _).
  rewrite Hs in Hin. rewrite Hg.
  apply frameTail_score in Hin. rewrite Hin.
  unfold solveBonus. lia.
Qed.

Lemma sessionTicks_seen n : forall m, seen (sessionTicks n m) = seen m.
Proof.
  induction n as [|n IH]; intros m; simpl; auto.
  rewrite IH. reflexivity.
Qed.

Lemma sessionTicks_timeLeft n : forall m,
  (Z.of_nat n < timeLeft (Rich.game (current m)))%Z ->
  timeLeft (Rich.game (current (sessionTicks n m)))
  = (timeLeft (Rich.game (current m)) - Z.of_nat n)%Z.
Proof.
  induction n as [|n IH]; intros m H.
  - simpl. lia.
  - cbn [sessionTicks].
    assert (E : timeLeft (Rich.game (current (sessionTick m)))
                = (timeLeft (Rich.game (current m)) - 1)%Z).
    { unfold sessionTick, tickTimer. cbn.
      destruct (Z.leb_spec (timeLeft (Rich.game (current m))) 1); lia. }
    rewrite IH; rewrite E; lia.
Qed.

(** C7 does not hold of the code: the time bonus is not taken from the
    seconds left.  Whenever a frame solves the round, the score grows by
    floor(word length * 10 * multiplier) + floor(t * multiplier) where t and
    the multiplier are the [timeLeft] and the difficulty of the render that
    registered the frame callback.  A new round with another word registers
    the callback with the full time of the difficulty, and timer ticks do
    not register it again: ten ticks into a round of DOG at MEDIUM the
    callback still holds 30 seconds while 20 are left, and the solve adds
    45 + 45 = 90 points where the claim (and the banner the screen shows)
    says 45 + 30 = 75. *)
Theorem solve_bonus_uses_the_time_of_registration :
  (forall sqrt cw ch hands (m : Session),
     let out := sessionFrame sqrt cw ch hands m in
     let g := Rich.game (current m) in
     In success (snd out) ->
     score (Rich.game (current (fst out))) =
     (score g
      + Qfloor (inject_Z (Z.of_nat (String.length (currentWord g)))
                * 10 * multiplier (seenDifficulty (seen m)))
      + Qfloor (inject_Z (seenTimeLeft (seen m))
                * multiplier (seenDifficulty (seen m))))%Z /\
     timeLeft (Rich.game (current (fst out))) = timeLeft g) /\
  (forall rnd w h word n (m : Session),
     let g := Rich.game (current m) in
     let m' := sessionTicks n (sessionNextWord rnd w h word m) in
     word <> currentWord g ->
     seen m' = mkSeen (time (difficulty g)) (difficulty g) /\
     (Z.of_nat n < time (difficulty g) ->
      timeLeft (Rich.game (current m'))
      = time (difficulty g) - Z.of_nat n)%Z) /\
  (let m := sessionTicks 10 (sessionNextWord zeroDraws 1280 720 "DOG" mount) in
   seen m = seen dogSession /\
   timeLeft (Rich.game (current m)) = timeLeft (Rich.game (current dogSession)) /\
   currentWord (Rich.game (current m))
   = currentWord (Rich.game (current dogSession)) /\
   difficulty (Rich.game (current m))
   = difficulty (Rich.game (current dogSession))) /\
  (let out := sessionFrame Qsqrt 1280 720 [] dogSession in
   timeLeft (Rich.game (current dogSession)) = 20%Z /\
   score (Rich.game (current dogSession)) = 0%Z /\
   In success (snd out) /\
   score (Rich.game (current (fst out))) = 90%Z /\
   timeLeft (Rich.game (current (fst out))) = 20%Z /\
   (Qfloor (3 * 10 * multiplier MEDIUM) + Qfloor (20 * multiplier MEDIUM)
    = 75)%Z).
Proof.
  split; [|split; [|split]].
  - intros sqrt cw ch hands m out g Hin.
    unfold out, sessionFrame in *. cbv zeta in *. cbn [fst snd current] in *.
    split; [|reflexivity].
    unfold Rich.withGame at 1. cbn [Rich.game]. unfold withClock. cbn [score].
    rewrite (solve_adds_length_and_time_bonus _ _ _ _ _ Hin).
    reflexivity.
  - intros rnd w h word n m g m' Hne. unfold m'.
    rewrite sessionTicks_seen. split.
    + unfold sessionNextWord, rerender. cbv zeta. cbn [seen].
      fold g. cbn [Rich.nextWord currentWord].
      destruct (String.eqb_spec (currentWord g) word) as [E|_];
        [now elim Hne|].
      reflexivity.
    + intros Hn. rewrite sessionTicks_timeLeft; [reflexivity | exact Hn].
  - vm_compute. repeat split.
  - vm_compute. repeat split. right. left. reflexivity.
Qed.

(** The same holds on the simpler screen. *)
Lemma simple_solve_adds_bonus sqrt cw ch hands g :
  In success (snd (Simple.onResults sqrt cw ch hands g)) ->
  score (fst (Simple.onResults sqrt cw ch hands g)) =
  (score g + solveBonus (currentWord g) (difficulty g) (timeLeft g))%Z.
Proof.
  destruct (simple_onResults_frameTail sqrt cw ch hands g) as (hp & pinch & E & _).
  rewrite E. apply frameTail_score.
Qed.

(** The multipliers are 1, 1.5 and 2, and a 3-letter word at MEDIUM with 20
    seconds left is worth 45 + 30 points. *)
Example multipliers_and_dog_bonus :
  (multiplier EASY == 1)%Q /\ (multiplier MEDIUM == 3 # 2)%Q /\
  (multiplier HARD == 2)%Q /\
  Qfloor (3 * 10 * multiplier MEDIUM) = 45%Z /\
  Qfloor (20 * multiplier MEDIUM) = 30%Z /\
  solveBonus "DOG" MEDIUM 20 = 75%Z.
Proof. repeat split. Qed.

(** ** Word evaluator *)

Lemma nonempty_length (w : string) : (0 <? String.length w) = true <-> w <> "".
Proof.
  destruct w; simpl; split; intros H; try discriminate; try reflexivity.
  now elim H.
Qed.

Lemma updateTrayWord_isCorrect g :
  isCorrect (fst (updateTrayWord g)) =
  (trayLetters (tiles g) =? currentWord g)%string
  && (0 <? String.length (trayLetters (tiles g))).
Proof.
  unfold updateTrayWord. destruct (_ && _); reflexivity.
Qed.

(** C3, as the specification words it, fails: a tray that spells "cat"
    equals the target "CAT" up to case and is not empty, and the evaluator
    does not mark the round solved; neither does it for the upper-case tray
    "CAT" against a target stored as "cat". *)
Lemma lowercase_tray_is_not_solved :
  trayLetters (tiles (trayGame "cat" "CAT")) = "cat" /\
  trayLetters (tiles (trayGame "cat" "CAT")) <> "" /\
  equalsIgnoreCase (trayLetters (tiles (trayGame "cat" "CAT")))
                   (currentWord (trayGame "cat" "CAT")) /\
  isCorrect (fst (updateTrayWord (trayGame "cat" "CAT"))) = false /\
  trayLetters (tiles (trayGame "CAT" "cat")) = "CAT" /\
  equalsIgnoreCase (trayLetters (tiles (trayGame "CAT" "cat")))
                   (currentWord (trayGame "CAT" "cat")) /\
  isCorrect (fst (updateTrayWord (trayGame "CAT" "cat"))) = false.
Proof.
  split; [reflexivity|]. split; [discriminate|]. repeat split.
Qed.

(** C3, amended. The word evaluator marks the round solved if and only if
    the tray word (the characters of the in-tray tiles in ascending slot
    order) is non-empty and equal to the target word character by
    character; when the tray word and the target are both upper-case this
    is the same as equality up to case. *)
Theorem evaluator_solves_on_exact_match :
  forall g : Game,
    (isCorrect (fst (updateTrayWord g)) = true <->
     trayLetters (tiles g) <> "" /\ trayLetters (tiles g) = currentWord g) /\
    (toUpperCase (trayLetters (tiles g)) = trayLetters (tiles g) ->
     toUpperCase (currentWord g) = currentWord g ->
     (isCorrect (fst (updateTrayWord g)) = true <->
      trayLetters (tiles g) <> "" /\
      equalsIgnoreCase (trayLetters (tiles g)) (currentWord g))).
Proof.
  intros g.
  assert (E : isCorrect (fst (updateTrayWord g)) = true <->
              trayLetters (tiles g) <> "" /\ trayLetters (tiles g) = currentWord g).
  { rewrite updateTrayWord_isCorrect, andb_true_iff, String.eqb_eq,
      nonempty_length. tauto. }
  split; [exact E|].
  intros Hu Hv. rewrite E. unfold equalsIgnoreCase. rewrite Hu, Hv. tauto.
Qed.

Lemma evaluator_solves_on_exact_match_witness :
  toUpperCase (trayLetters (tiles (trayGame "CAT" "CAT")))
  = trayLetters (tiles (trayGame "CAT" "CAT")) /\
  toUpperCase (currentWord (trayGame "CAT" "CAT"))
  = currentWord (trayGame "CAT" "CAT") /\
  (isCorrect (fst (updateTrayWord (trayGame "CAT" "CAT"))) = true <->
   trayLetters (tiles (trayGame "CAT" "CAT")) <> "" /\
   equalsIgnoreCase (trayLetters (tiles (trayGame "CAT" "CAT")))
                    (currentWord (trayGame "CAT" "CAT"))).
Proof.
  split; [reflexivity|]. split; [reflexivity|].
  apply (proj2 (evaluator_solves_on_exact_match (trayGame "CAT" "CAT")));
    reflexivity.
Defined.

(** The examples of the specification that the evaluator does satisfy. *)
Example evaluator_examples :
  isCorrect (fst (updateTrayWord (trayGame "CAT" "CAT"))) = true /\
  isCorrect (fst (updateTrayWord (trayGame "CA" "CAT"))) = false /\
  (forall target, isCorrect (fst (updateTrayWord (trayGame "" target))) = false).
Proof.
  repeat split. intros target.
  rewrite updateTrayWord_isCorrect. simpl. apply andb_false_r.
Qed.

(** ** Pinch classifier and smoothing filter *)

Lemma rich_tracked_frame sqrt cw ch h hs s :
  let active := Rich.isSome (activeTileId (Rich.game s)) in
  let raw := Qltb (Rich.pinchDistanceOf sqrt h) (Rich.threshold active) in
  let sm := Rich.smooth (Rich.smoothHandPos s) (Rich.rawSample cw ch h) in
  let pf := if raw then Nat.min (Rich.pinchFrames s + 1) 3 else 0 in
  let pc := if raw then Rich.pinchConfirmed s || (2 <=? pf)
            else Rich.pinchConfirmed s && active in
  Rich.onResults sqrt cw ch (h :: hs) s =
  (Rich.mkState (fst (frameTail cw (Some sm) (raw && (pc || active)) (Rich.game s)))
                sm pf pc,
   snd (frameTail cw (Some sm) (raw && (pc || active)) (Rich.game s))).
Proof.
  unfold Rich.onResults. cbv zeta.
  change (Rich.GRAB_CONFIRM_FRAMES + 1) with 3.
  change Rich.GRAB_CONFIRM_FRAMES with 2.
  destruct (Qltb _ _) eqn:Hraw;
    [ destruct (2 <=? Nat.min (Rich.pinchFrames s + 1) 3)
    | destruct (Rich.isSome _) ];
    rewrite ?orb_true_r, ?orb_false_r, ?andb_true_r, ?andb_false_r;
    simpl; destruct (frameTail _ _ _ _); reflexivity.
Qed.

Lemma rich_lost_frame sqrt cw ch s :
  Rich.onResults sqrt cw ch [] s =
  (Rich.mkState (fst (frameTail cw None false (Rich.game s)))
                (Rich.smoothHandPos s) 0 false,
   snd (frameTail cw None false (Rich.game s))).
Proof.
  unfold Rich.onResults. cbv zeta.
  destruct (Rich.isSome _); simpl; destruct (frameTail _ _ _ _); reflexivity.
Qed.

(** C5. On every frame with a tracked hand: the raw pinch is the test of the
    fingertip distance against the RELEASE threshold when a tile is active
    and against the strictly tighter GRAB threshold when none is; the
    counter of consecutive pinch frames is incremented up to
    GRAB_CONFIRM_FRAMES + 1 or reset to 0; an unconfirmed pinch becomes
    confirmed exactly when the counter has reached GRAB_CONFIRM_FRAMES = 2,
    and a confirmed one stays confirmed across a counter reset while a tile
    is active; the drag controller is run with raw AND (confirmed OR
    active). *)
Theorem pinch_classifier_hysteresis_and_confirmation :
  forall sqrt cw ch h hs (s : Rich.State),
    let active := Rich.isSome (activeTileId (Rich.game s)) in
    let dist := Rich.pinchDistanceOf sqrt h in
    let raw := Qltb dist (if active then Rich.PINCH_RELEASE_THRESHOLD
                          else Rich.PINCH_GRAB_THRESHOLD) in
    let s' := fst (Rich.onResults sqrt cw ch (h :: hs) s) in
    let sm := Rich.smooth (Rich.smoothHandPos s) (Rich.rawSample cw ch h) in
    (Rich.PINCH_GRAB_THRESHOLD < Rich.PINCH_RELEASE_THRESHOLD)%Q /\
    Rich.GRAB_CONFIRM_FRAMES = 2 /\
    (raw = true <->
     (dist < (if active then Rich.PINCH_RELEASE_THRESHOLD
              else Rich.PINCH_GRAB_THRESHOLD))%Q) /\
    Rich.pinchFrames s' =
      (if raw then Nat.min (Rich.pinchFrames s + 1) (Rich.GRAB_CONFIRM_FRAMES + 1)
       else 0) /\
    Rich.pinchFrames s' <= Rich.GRAB_CONFIRM_FRAMES + 1 /\
    Rich.pinchConfirmed s' =
      (if raw
       then Rich.pinchConfirmed s || (Rich.GRAB_CONFIRM_FRAMES <=? Rich.pinchFrames s')
       else Rich.pinchConfirmed s && active) /\
    (Rich.pinchConfirmed s = false ->
     (Rich.pinchConfirmed s' = true <->
      Rich.GRAB_CONFIRM_FRAMES <= Rich.pinchFrames s')) /\
    (raw = false -> active = true ->
     Rich.pinchFrames s' = 0 /\ Rich.pinchConfirmed s' = Rich.pinchConfirmed s) /\
    Rich.onResults sqrt cw ch (h :: hs) s =
      (Rich.mkState
         (fst (frameTail cw (Some sm)
                 (raw && (Rich.pinchConfirmed s' || active)) (Rich.game s)))
         sm (Rich.pinchFrames s') (Rich.pinchConfirmed s'),
       snd (frameTail cw (Some sm)
              (raw && (Rich.pinchConfirmed s' || active)) (Rich.game s))).
Proof.
  intros sqrt cw ch h hs s active dist raw s' sm.
  pose proof (rich_tracked_frame sqrt cw ch h hs s) as E. cbv zeta in E.
  fold active in E. unfold Rich.threshold in E. fold dist in E.
  fold raw in E. fold sm in E.
  assert (Hpf : Rich.pinchFrames s' =
                if raw then Nat.min (Rich.pinchFrames s + 1) 3 else 0)
    by (unfold s'; rewrite E; reflexivity).
  assert (Hpc : Rich.pinchConfirmed s' =
                if raw then Rich.pinchConfirmed s || (2 <=? Rich.pinchFrames s')
                else Rich.pinchConfirmed s && active).
  { rewrite Hpf. unfold s'; rewrite E. simpl. destruct raw; reflexivity. }
  change Rich.GRAB_CONFIRM_FRAMES with 2. change (2 + 1) with 3.
  split; [reflexivity|]. split; [reflexivity|].
  split; [apply Qltb_lt|].
  split; [exact Hpf|].
  split; [rewrite Hpf; destruct raw; lia|].
  split; [exact Hpc|].
  split.
  { intros Hn. rewrite Hpc, Hn. destruct raw; cbn [orb andb].
    - apply Nat.leb_le.
    - rewrite Hpf. split; [discriminate | lia]. }
  split.
  { intros Hr Ha. rewrite Hpc, Hpf, Hr, Ha. split; [reflexivity|].
    apply andb_true_r. }
  rewrite E. unfold s'. rewrite E. simpl.
  destruct raw; reflexivity.
Qed.

Lemma pinch_classifier_hysteresis_and_confirmation_witness :
  let s := Rich.mkState dogGame (Point.mk 400 220) 1 true in
  let s' := fst (Rich.onResults Qsqrt 1000 1000 [openHand] s) in
  Rich.pinchConfirmed s = true /\
  Qltb (Rich.pinchDistanceOf Qsqrt openHand) Rich.PINCH_RELEASE_THRESHOLD = false /\
  Rich.isSome (activeTileId (Rich.game s)) = true /\
  Rich.pinchFrames s' = 0 /\ Rich.pinchConfirmed s' = Rich.pinchConfirmed s.
Proof.
  split; [reflexivity|]. split; [reflexivity|]. split; [reflexivity|].
  apply (pinch_classifier_hysteresis_and_confirmation
           Qsqrt 1000 1000 openHand []
           (Rich.mkState dogGame (Point.mk 400 220) 1 true));
    reflexivity.
Defined.

(** Every tracked frame blends the raw sample into the smoothed cursor, and
    an untracked frame leaves the smoothed cursor where it was. *)
Lemma tracked_frame_blends sqrt cw ch h hs s :
  Rich.smoothHandPos (fst (Rich.onResults sqrt cw ch (h :: hs) s)) =
  Rich.smooth (Rich.smoothHandPos s) (Rich.rawSample cw ch h).
Proof. rewrite rich_tracked_frame. reflexivity. Qed.

Lemma lost_frame_keeps_cursor sqrt cw ch s :
  Rich.smoothHandPos (fst (Rich.onResults sqrt cw ch [] s)) = Rich.smoothHandPos s.
Proof. rewrite rich_lost_frame. reflexivity. Qed.

(** C4. After a frame without a hand, the first tracked frame does not snap
    the smoothed cursor to its raw sample: from the cursor (0, 0), a hand
    that reappears over (100, 200) leaves the cursor at (45, 90), the
    blend of the two. *)
Theorem reacquired_cursor_is_blended_not_snapped :
  let s1 := fst (Rich.onResults Qsqrt 1000 1000 [] Rich.initial) in
  let s2 := fst (Rich.onResults Qsqrt 1000 1000 [openHand] s1) in
  (Point.x (Rich.rawSample 1000 1000 openHand) == 100)%Q /\
  (Point.y (Rich.rawSample 1000 1000 openHand) == 200)%Q /\
  (Point.x (Rich.smoothHandPos s2) == 45)%Q /\
  (Point.y (Rich.smoothHandPos s2) == 90)%Q /\
  ~ (Point.x (Rich.smoothHandPos s2)
     == Point.x (Rich.rawSample 1000 1000 openHand))%Q.
Proof.
  cbv zeta. rewrite tracked_frame_blends, lost_frame_keeps_cursor.
  repeat split; try reflexivity.
  intros H. vm_compute in H. discriminate.
Qed.

(** ** Release *)

Lemma assignSlots_preserves (P : LetterTile -> Prop) (sx : Q) :
  (forall i t, P t -> P (slot sx i t)) ->
  forall refs i ts k t,
    nth_error ts k = Some t -> P t ->
    exists t', nth_error (assignSlots sx i refs ts) k = Some t' /\ P t'.
Proof.
  intros HP refs; induction refs as [|p refs IH]; intros i ts k t Hk Ht; simpl.
  - eauto.
  - destruct (Nat.eq_dec p k) as [->|Hne].
    + apply (IH (S i) _ k (slot sx i t)); auto.
      rewrite nth_error_updateAt, Nat.eqb_refl, Hk. reflexivity.
    + apply (IH (S i) _ k t); auto.
      rewrite nth_error_updateAt.
      destruct (Nat.eqb_spec p k); [contradiction | exact Hk].
Qed.

(** What the release leaves at the position of the released tile. *)
Lemma dropActive_released_tile cw aid ts k tile :
  find (fun t => (id t =? aid)%string) ts = Some (k, tile) ->
  exists t',
    nth_error (fst (dropActive cw aid ts)) k = Some t' /\
    isDragging t' = false /\ inTray t' = inBand tile /\
    x t' = x tile /\ y t' = y tile /\
    targetY t' = (if inBand tile then TRAY_Y else targetY tile) /\
    id t' = id tile /\ char t' = char tile.
Proof.
  intros Hf. unfold dropActive. rewrite Hf.
  apply find_Some in Hf. destruct Hf as (Hk & _ & _).
  destruct (inBand tile) eqn:Hb; simpl.
  - unfold dropInside.
    set (ts0 := updateAt k (setDragging false) ts).
    set (ts1 := updateAt k (setInTray true) ts0).
    set (n := List.length (trayTilesOf tile ts1)).
    set (t2 := setTargetY TRAY_Y
                 (setTrayIndex (Some n) (setInTray true (setDragging false tile)))).
    apply assignSlots_preserves
      with (P := fun t => isDragging t = false /\ inTray t = true /\
                          x t = x tile /\ y t = y tile /\ targetY t = TRAY_Y /\
                          id t = id tile /\ char t = char tile)
           (t := t2).
    + intros i t (H1 & H2 & H3 & H4 & H5 & H6 & H7). repeat split; assumption.
    + unfold ts1, ts0.
      rewrite !nth_error_updateAt, Nat.eqb_refl, Hk. reflexivity.
    + repeat split.
  - unfold dropOutside.
    rewrite !nth_error_updateAt, Nat.eqb_refl, Hk. simpl.
    eexists; split; [reflexivity|]. repeat split.
Qed.

Lemma nth_error_settle ts k :
  nth_error (settle ts) k = option_map ease (nth_error ts k).
Proof. unfold settle. apply nth_error_map. Qed.

(** A release, seen from the whole frame. *)
Lemma frameTail_release cw handPos isPinching g aid :
  activeTileId g = Some aid ->
  handPos = None \/ isPinching = false \/ isCorrect g = true ->
  frameTail cw handPos isPinching g =
  (let ts' := fst (dropActive cw aid (tiles g)) in
   let r := updateTrayWord (withActive None (withTiles ts' g)) in
   (withTiles (settle ts') (fst r), snd (dropActive cw aid (tiles g)) ++ snd r)).
Proof.
  intros Ha Hrel.
  destruct (frameTail_outcome cw handPos isPinching g)
    as [Hn _|h k c Hh Hp Hc Hn _|h aid' Hh Hp Hc _|aid' Ha' _];
    try congruence.
  destruct Hrel as [E|[E|E]]; congruence.
Qed.

Lemma frameTail_release_tile cw handPos isPinching g aid k tile :
  activeTileId g = Some aid ->
  handPos = None \/ isPinching = false \/ isCorrect g = true ->
  find (fun t => (id t =? aid)%string) (tiles g) = Some (k, tile) ->
  let g' := fst (frameTail cw handPos isPinching g) in
  activeTileId g' = None /\
  exists t',
    nth_error (tiles g') k = Some t' /\
    isDragging t' = false /\ inTray t' = inBand tile /\
    y t' = (y tile
            + ((if inBand tile then TRAY_Y else targetY tile) - y tile) * 0.15)%Q.
Proof.
  intros Ha Hrel Hf. cbv zeta.
  rewrite (frameTail_release _ _ _ _ aid Ha Hrel). cbv zeta. simpl.
  split.
  - unfold withTiles; simpl. rewrite updateTrayWord_active. reflexivity.
  - destruct (dropActive_released_tile cw aid (tiles g) k tile Hf)
      as (t' & Hk & Hd & Hi & Hx & Hy & Hty & _).
    exists (ease t'). rewrite nth_error_settle, Hk. split; [reflexivity|].
    unfold ease. rewrite Hd. simpl. rewrite Hy, Hty. auto.
Qed.

(** C1, as the specification words it, fails: a frame without a hand while
    G is being dragged clears the active tile id and the dragging flag of G
    and puts G into the tray. *)
Lemma hand_loss_mid_drag_drops_the_tile :
  activeTileId (Rich.game dogState) = Some (tileId "G" 2) /\
  map isDragging (tiles (Rich.game dogState)) = [false; false; true] /\
  map inTray (tiles (Rich.game dogState)) = [true; true; false] /\
  let s' := fst (Rich.onResults Qsqrt 1280 720 [] dogState) in
  activeTileId (Rich.game s') = None /\
  map isDragging (tiles (Rich.game s')) = [false; false; false] /\
  map inTray (tiles (Rich.game s')) = [true; true; true].
Proof. vm_compute. repeat split. Qed.

(** ** Advisory feedback service *)



(** ** Positions, stable sorting and slot assignment *)

Lemma enumerateFrom_fst {A : Type} (l : list A) (i : nat) :
  map fst (enumerateFrom i l) = seq i (List.length l).
Proof.
  revert i; induction l as [|a l IH]; intros i; simpl; [|rewrite IH]; auto.
Qed.

Lemma enumerateFrom_snd {A : Type} (l : list A) (i : nat) :
  map snd (enumerateFrom i l) = l.
Proof.
  revert i; induction l as [|a l IH]; intros i; simpl; [|rewrite IH]; auto.
Qed.

Lemma in_enumerateFrom {A : Type} (l : list A) (i p : nat) (a : A) :
  In (p, a) (enumerateFrom i l) <-> i <= p /\ nth_error l (p - i) = Some a.
Proof.
  revert i; induction l as [|b l IH]; intros i; simpl.
  - split; [tauto|]. intros [_ H]. destruct (p - i); discriminate.
  - rewrite IH. split.
    + intros [H|[H1 H2]].
      * inversion H; subst. rewrite Nat.sub_diag. auto.
      * split; [lia|]. replace (p - i) with (S (p - S i)) by lia. exact H2.
    + intros [H1 H2]. destruct (Nat.eq_dec i p) as [->|Hne].
      * rewrite Nat.sub_diag in H2. simpl in H2. left; congruence.
      * right. split; [lia|].
        replace (p - i) with (S (p - S i)) in H2 by lia. exact H2.
Qed.

Lemma in_enumerate {A : Type} (l : list A) (p : nat) (a : A) :
  In (p, a) (enumerate l) <-> nth_error l p = Some a.
Proof.
  unfold enumerate. rewrite in_enumerateFrom, Nat.sub_0_r.
  split; [tauto | split; [lia | assumption]].
Qed.

Lemma filter_enumerateFrom {A : Type} (f : A -> bool) (l : list A) (i : nat) :
  filter f l = map snd (filter (fun r => f (snd r)) (enumerateFrom i l)).
Proof.
  revert i; induction l as [|a l IH]; intros i; simpl; auto.
  destruct (f a); simpl; rewrite <- IH; reflexivity.
Qed.

Lemma NoDup_map_filter {A B : Type} (g : A -> B) (f : A -> bool) (l : list A) :
  NoDup (map g l) -> NoDup (map g (filter f l)).
Proof.
  induction l as [|a l IH]; simpl; intros H; [constructor|].
  inversion H as [|? ? Hn Hd]; subst.
  destruct (f a); simpl; auto.
  constructor; auto.
  intros Hin. apply Hn.
  apply in_map_iff in Hin. destruct Hin as (a' & E & Ha').
  apply filter_In in Ha'. apply in_map_iff. exists a'. tauto.
Qed.

Lemma insertBy_perm {A : Type} (key : A -> nat) (a : A) (l : list A) :
  Permutation (insertBy key a l) (a :: l).
Proof.
  induction l as [|b l IH]; simpl; auto.
  destruct (key b <? key a); auto.
  rewrite IH. apply perm_swap.
Qed.

Lemma sortBy_perm {A : Type} (key : A -> nat) (l : list A) :
  Permutation (sortBy key l) l.
Proof.
  induction l as [|a l IH]; simpl; auto.
  rewrite insertBy_perm. now constructor.
Qed.

Lemma insertBy_sorted {A : Type} (key : A -> nat) (a : A) (l : list A) :
  StronglySorted (fun u v => key u <= key v) l ->
  StronglySorted (fun u v => key u <= key v) (insertBy key a l).
Proof.
  induction l as [|b l IH]; simpl; intros H.
  - repeat constructor.
  - inversion H as [|? ? Hs Hf]; subst.
    destruct (Nat.ltb_spec (key b) (key a)) as [Hlt|Hge].
    + constructor; auto.
      eapply Permutation_Forall; [symmetry; apply insertBy_perm|].
      constructor; [lia | assumption].
    + constructor; auto. constructor; auto.
      eapply Forall_impl; [|exact Hf]. simpl; intros; lia.
Qed.

Lemma sortBy_sorted {A : Type} (key : A -> nat) (l : list A) :
  StronglySorted (fun u v => key u <= key v) (sortBy key l).
Proof.
  induction l as [|a l IH]; simpl; [constructor | now apply insertBy_sorted].
Qed.

Lemma StronglySorted_nth_error {A : Type} (R : A -> A -> Prop) (l : list A) :
  StronglySorted R l ->
  forall i j a b, i < j -> nth_error l i = Some a -> nth_error l j = Some b ->
                  R a b.
Proof.
  induction 1 as [|c l Hs IH Hf]; intros i j a b Hij Hi Hj.
  - destruct i; discriminate.
  - destruct j as [|j]; [lia|]. simpl in Hj.
    destruct i as [|i]; simpl in Hi.
    + inversion Hi; subst. rewrite Forall_forall in Hf.
      apply Hf. eapply nth_error_In; eauto.
    + apply (IH i j); auto. lia.
Qed.

Lemma indexOf_None (p : nat) (refs : list nat) :
  indexOf p refs = None <-> ~ In p refs.
Proof.
  induction refs as [|q refs IH]; simpl; [tauto|].
  destruct (Nat.eqb_spec q p) as [E|E].
  - split; [discriminate | tauto].
  - destruct (indexOf p refs) as [j|]; simpl in *.
    + split; [discriminate|]. intros H. exfalso.
      destruct IH as [_ IH].
      destruct (in_dec Nat.eq_dec p refs) as [Hin|Hout]; [tauto|].
      specialize (IH Hout). discriminate.
    + split; auto. intros _ [H|H]; [contradiction|]. now apply IH.
Qed.

Lemma indexOf_Some (p : nat) (refs : list nat) (j : nat) :
  indexOf p refs = Some j -> nth_error refs j = Some p.
Proof.
  revert j; induction refs as [|q refs IH]; simpl; intros j H; [discriminate|].
  destruct (Nat.eqb_spec q p).
  - inversion H; subst. reflexivity.
  - destruct (indexOf p refs); simpl in H; [|discriminate].
    inversion H; subst. simpl. now apply IH.
Qed.

Lemma indexOf_nth_error (refs : list nat) :
  NoDup refs ->
  forall j p, nth_error refs j = Some p -> indexOf p refs = Some j.
Proof.
  induction 1 as [|q refs Hn Hd IH]; intros j p Hj.
  - destruct j; discriminate.
  - simpl. destruct j as [|j]; simpl in Hj.
    + inversion Hj; subst. now rewrite Nat.eqb_refl.
    + destruct (Nat.eqb_spec q p) as [->|Hne].
      * exfalso. apply Hn. eapply nth_error_In; eauto.
      * rewrite (IH j p Hj). reflexivity.
Qed.

Lemma nth_error_assignSlots (sx : Q) (refs : list nat) :
  NoDup refs ->
  forall i ts p,
    nth_error (assignSlots sx i refs ts) p =
    match indexOf p refs with
    | Some j => option_map (slot sx (i + j)) (nth_error ts p)
    | None => nth_error ts p
    end.
Proof.
  induction 1 as [|q refs Hn Hd IH]; intros i ts p; simpl; auto.
  rewrite IH, nth_error_updateAt.
  destruct (Nat.eqb_spec q p) as [->|Hne].
  - apply indexOf_None in Hn. rewrite Hn, Nat.add_0_r. reflexivity.
  - destruct (indexOf p refs) as [j|]; simpl; auto.
    now rewrite Nat.add_succ_r.
Qed.

(** ** Tray reflow on a drop inside the band *)

Lemma in_trayTilesOf tile ts p t :
  In (p, t) (trayTilesOf tile ts) <->
  nth_error ts p = Some t /\ inTray t = true /\ id t <> id tile.
Proof.
  unfold trayTilesOf.
  split.
  - intros H. apply (Permutation_in _ (sortBy_perm _ _)) in H.
    apply filter_In in H. destruct H as [H1 H2]. simpl in H2.
    apply andb_prop in H2. destruct H2 as [H2 H3].
    apply negb_true_iff, String.eqb_neq in H3.
    apply in_enumerate in H1. auto.
  - intros (H1 & H2 & H3).
    apply (Permutation_in _ (Permutation_sym (sortBy_perm _ _))).
    apply filter_In. split; [now apply in_enumerate|]. simpl.
    rewrite H2. apply String.eqb_neq in H3. now rewrite H3.
Qed.

Lemma trayTilesOf_positions_NoDup tile ts :
  NoDup (map fst (trayTilesOf tile ts)).
Proof.
  unfold trayTilesOf.
  eapply Permutation_NoDup.
  - apply Permutation_map. symmetry. apply sortBy_perm.
  - apply NoDup_map_filter. unfold enumerate.
    rewrite enumerateFrom_fst. apply seq_NoDup.
Qed.

Lemma map_indexOf_self (refs : list nat) :
  NoDup refs ->
  map (fun p => indexOf p refs) refs = map Some (seq 0 (List.length refs)).
Proof.
  induction 1 as [|q refs Hn Hd IH]; simpl; auto.
  rewrite Nat.eqb_refl. f_equal.
  rewrite <- seq_shift, map_map.
  transitivity (map (fun p => option_map S (indexOf p refs)) refs).
  - apply map_ext_in. intros p Hp.
    destruct (Nat.eqb_spec q p) as [->|_]; [contradiction | reflexivity].
  - change (fun p => option_map S (indexOf p refs))
      with (fun p => option_map S ((fun p => indexOf p refs) p)).
    rewrite <- (map_map (fun p => indexOf p refs) (option_map S)), IH, map_map.
    reflexivity.
Qed.

(** A pool whose in-tray tiles are exactly the positions [refs], each
    carrying its place in [refs] as slot, has the slots 0 .. n-1. *)
Lemma slots_are_a_permutation (ts : list LetterTile) (refs : list nat) :
  NoDup refs ->
  (forall p t, nth_error ts p = Some t -> inTray t = true ->
               exists j, indexOf p refs = Some j /\ trayIndex t = Some j) ->
  (forall p j, indexOf p refs = Some j ->
               exists t, nth_error ts p = Some t /\ inTray t = true) ->
  List.length (filter inTray ts) = List.length refs /\
  Permutation (map trayIndex (filter inTray ts))
              (map Some (seq 0 (List.length (filter inTray ts)))).
Proof.
  intros Hnd HA HB.
  set (E := filter (fun r => inTray (snd r)) (enumerate ts)).
  assert (HE : filter inTray ts = map snd E)
    by apply filter_enumerateFrom.
  assert (Hin : forall p t, In (p, t) E <->
                            nth_error ts p = Some t /\ inTray t = true).
  { intros p t. unfold E. rewrite filter_In, in_enumerate. reflexivity. }
  assert (HP : Permutation (map fst E) refs).
  { apply NoDup_Permutation; auto.
    - apply NoDup_map_filter. unfold enumerate.
      rewrite enumerateFrom_fst. apply seq_NoDup.
    - intros p. split.
      + intros H. apply in_map_iff in H. destruct H as ([p' t] & Ep & H).
        simpl in Ep; subst p'. apply Hin in H. destruct H as [H1 H2].
        destruct (HA p t H1 H2) as (j & Hj & _).
        apply indexOf_Some in Hj. eapply nth_error_In; eauto.
      + intros H. destruct (indexOf p refs) as [j|] eqn:Hj.
        * destruct (HB p j Hj) as (t & H1 & H2).
          apply in_map_iff. exists (p, t). split; auto. now apply Hin.
        * apply indexOf_None in Hj. contradiction. }
  assert (Hlen : List.length (filter inTray ts) = List.length refs).
  { rewrite HE, length_map, <- (length_map fst). now apply Permutation_length. }
  split; [exact Hlen|].
  rewrite Hlen, <- (map_indexOf_self refs Hnd), HE, map_map.
  transitivity (map (fun p => indexOf p refs) (map fst E)).
  - rewrite map_map. apply Permutation_refl'. apply map_ext_in.
    intros [p t] H. simpl. apply Hin in H. destruct H as [H1 H2].
    destruct (HA p t H1 H2) as (j & Hj & Ht). congruence.
  - now apply Permutation_map.
Qed.

Lemma indexOf_last (l : list nat) (q : nat) :
  ~ In q l -> indexOf q (l ++ [q]) = Some (List.length l).
Proof.
  induction l as [|a l IH]; simpl; intros H.
  - now rewrite Nat.eqb_refl.
  - destruct (Nat.eqb_spec a q) as [->|_]; [tauto|].
    rewrite IH; auto.
Qed.

Section DropInside.

Variables (cw : Q) (k : nat) (tile t0 : LetterTile) (ts0 : list LetterTile).
Hypothesis ids_distinct : NoDup (map id ts0).
Hypothesis at_k : nth_error ts0 k = Some t0.
Hypothesis same_id : id t0 = id tile.

Lemma other_positions_differ p t :
  In (p, t) (otherTrayTiles k tile ts0) ->
  p <> k /\ nth_error ts0 p = Some t.
Proof.
  intros H. apply in_trayTilesOf in H. destruct H as (H1 & H2 & H3).
  rewrite nth_error_updateAt in H1.
  destruct (Nat.eqb_spec k p) as [->|Hne].
  - rewrite at_k in H1. simpl in H1. inversion H1; subst.
    simpl in H3. congruence.
  - split; auto.
Qed.

Lemma slotOrder_NoDup : NoDup (slotOrder k tile ts0).
Proof.
  unfold slotOrder. apply NoDup_app.
  - apply trayTilesOf_positions_NoDup.
  - repeat constructor. simpl; tauto.
  - intros p Hp [<-|[]].
    apply in_map_iff in Hp. destruct Hp as ([p' t] & E & Hp).
    simpl in E; subst p'.
    apply other_positions_differ in Hp. tauto.
Qed.

Lemma in_slotOrder p :
  In p (slotOrder k tile ts0) <->
  exists t, nth_error (updateAt k (setInTray true) ts0) p = Some t /\
            inTray t = true.
Proof.
  unfold slotOrder. rewrite in_app_iff. split.
  - intros [H|[<-|[]]].
    + apply in_map_iff in H. destruct H as ([p' t] & E & H).
      simpl in E; subst p'. apply in_trayTilesOf in H.
      exists t. tauto.
    + rewrite nth_error_updateAt, Nat.eqb_refl, at_k. simpl.
      eexists; split; reflexivity.
  - intros (t & H1 & H2).
    destruct (Nat.eq_dec k p) as [->|Hne]; [right; left; reflexivity|].
    left. apply in_map_iff. exists (p, t). split; auto.
    apply in_trayTilesOf. repeat split; auto.
    rewrite nth_error_updateAt in H1.
    destruct (Nat.eqb_spec k p) as [|_]; [contradiction|].
    intros Hid. apply Hne.
    apply (proj1 (NoDup_nth_error (map id ts0)) ids_distinct).
    + rewrite length_map. apply nth_error_Some. congruence.
    + rewrite !nth_error_map, at_k, H1. simpl. congruence.
Qed.

(** Every position of the slot order ends up in the tray with its place
    in that order as slot, and no other position is in the tray. *)
Lemma dropInside_nth_error p :
  nth_error (dropInside cw k tile ts0) p =
  match indexOf p (slotOrder k tile ts0) with
  | Some j =>
      option_map
        (fun t =>
           slot ((cw - inject_Z (Z.of_nat
                                   (List.length (otherTrayTiles k tile ts0) + 1))
                       * TILE_SIZE * 1.1) / 2 + TILE_SIZE * 1.1 / 2)%Q j
                (if k =? p
                 then setTargetY TRAY_Y
                        (setTrayIndex
                           (Some (List.length (otherTrayTiles k tile ts0))) t)
                 else t))
        (nth_error (updateAt k (setInTray true) ts0) p)
  | None => nth_error (updateAt k (setInTray true) ts0) p
  end.
Proof.
  unfold dropInside.
  change (trayTilesOf tile (updateAt k (setInTray true) ts0))
    with (otherTrayTiles k tile ts0).
  change (map fst (otherTrayTiles k tile ts0) ++ [k])
    with (slotOrder k tile ts0).
  rewrite (nth_error_assignSlots _ _ slotOrder_NoDup).
  rewrite nth_error_updateAt. simpl.
  destruct (indexOf p (slotOrder k tile ts0)) as [j|] eqn:Hj.
  - destruct (k =? p);
      destruct (nth_error (updateAt k (setInTray true) ts0) p); reflexivity.
  - destruct (Nat.eqb_spec k p) as [->|]; auto.
    apply indexOf_None in Hj. exfalso. apply Hj.
    unfold slotOrder. apply in_or_app. right. now left.
Qed.

Lemma dropInside_in_tray p t :
  nth_error (dropInside cw k tile ts0) p = Some t -> inTray t = true ->
  exists j, indexOf p (slotOrder k tile ts0) = Some j /\ trayIndex t = Some j.
Proof.
  rewrite dropInside_nth_error. intros H Ht.
  destruct (indexOf p (slotOrder k tile ts0)) as [j|] eqn:Hj.
  - exists j. split; auto.
    destruct (nth_error (updateAt k (setInTray true) ts0) p);
      simpl in H; inversion H; reflexivity.
  - apply indexOf_None in Hj. exfalso. apply Hj. apply in_slotOrder. eauto.
Qed.

Lemma dropInside_slot_order p j :
  indexOf p (slotOrder k tile ts0) = Some j ->
  exists t, nth_error (dropInside cw k tile ts0) p = Some t /\
            inTray t = true /\ trayIndex t = Some j.
Proof.
  intros Hj. rewrite dropInside_nth_error, Hj.
  assert (Hin : In p (slotOrder k tile ts0))
    by (apply indexOf_Some in Hj; eapply nth_error_In; eauto).
  apply in_slotOrder in Hin. destruct Hin as (t & H1 & H2).
  rewrite H1. simpl. eexists; split; [reflexivity|].
  split; [|reflexivity].
  destruct (k =? p); simpl; exact H2.
Qed.

Lemma dropInside_slots :
  List.length (filter inTray (dropInside cw k tile ts0))
  = S (List.length (otherTrayTiles k tile ts0)) /\
  Permutation
    (map trayIndex (filter inTray (dropInside cw k tile ts0)))
    (map Some
       (seq 0 (List.length (filter inTray (dropInside cw k tile ts0))))).
Proof.
  destruct (slots_are_a_permutation (dropInside cw k tile ts0)
              (slotOrder k tile ts0) slotOrder_NoDup dropInside_in_tray)
    as [Hl Hp].
  - intros p j Hj. destruct (dropInside_slot_order p j Hj) as (t & H & H' & _).
    eauto.
  - split; auto. rewrite Hl. unfold slotOrder.
    rewrite length_app, length_map. simpl. lia.
Qed.

Lemma slot_of_released :
  indexOf k (slotOrder k tile ts0)
  = Some (List.length (otherTrayTiles k tile ts0)).
Proof.
  unfold slotOrder.
  rewrite <- (length_map fst (otherTrayTiles k tile ts0)). apply indexOf_last.
  intros H. apply in_map_iff in H. destruct H as ([p t] & E & H).
  simpl in E; subst p. apply other_positions_differ in H. tauto.
Qed.

Lemma slot_of_other p t :
  p <> k -> nth_error ts0 p = Some t -> inTray t = true ->
  exists j, nth_error (otherTrayTiles k tile ts0) j = Some (p, t) /\
            indexOf p (slotOrder k tile ts0) = Some j /\
            j < List.length (otherTrayTiles k tile ts0).
Proof.
  intros Hne Hp Ht.
  assert (Hin : In (p, t) (otherTrayTiles k tile ts0)).
  { apply in_trayTilesOf. rewrite nth_error_updateAt.
    destruct (Nat.eqb_spec k p) as [E|_]; [congruence|].
    repeat split; auto.
    intros Hid. apply Hne. symmetry.
    apply (proj1 (NoDup_nth_error (map id ts0)) ids_distinct).
    - rewrite length_map. apply nth_error_Some. congruence.
    - rewrite !nth_error_map, at_k, Hp. simpl. congruence. }
  apply In_nth_error in Hin. destruct Hin as [j Hj].
  exists j. split; auto.
  assert (Hlt : j < List.length (otherTrayTiles k tile ts0))
    by (apply nth_error_Some; congruence).
  split; auto.
  apply (indexOf_nth_error _ slotOrder_NoDup).
  unfold slotOrder.
  rewrite nth_error_app1 by now rewrite length_map.
  rewrite nth_error_map, Hj. reflexivity.
Qed.

Lemma others_keep_their_order jp jq p q tp tq :
  nth_error (otherTrayTiles k tile ts0) jp = Some (p, tp) ->
  nth_error (otherTrayTiles k tile ts0) jq = Some (q, tq) ->
  trayKey tp < trayKey tq -> jp < jq.
Proof.
  intros Hp Hq Hlt.
  assert (Hs : StronglySorted
                 (fun u v : nat * LetterTile => trayKey (snd u) <= trayKey (snd v))
                 (otherTrayTiles k tile ts0))
    by apply sortBy_sorted.
  destruct (Nat.lt_trichotomy jp jq) as [H|[H|H]]; auto.
  - subst jq. rewrite Hp in Hq. inversion Hq; subst. lia.
  - pose proof (StronglySorted_nth_error _ _ Hs jq jp _ _ H Hq Hp) as Hle.
    simpl in Hle. lia.
Qed.

End DropInside.

(** ** Dragging to Idle *)

Lemma frame_is_frameTail sqrt g g' snds :
  frame sqrt g g' snds ->
  exists cw handPos isPinching,
    g' = fst (frameTail cw handPos isPinching g) /\
    snds = snd (frameTail cw handPos isPinching g).
Proof.
  intros [cw ch hands s|cw ch hands g0].
  - destruct hands as [|h hs].
    + rewrite rich_lost_frame. simpl. eauto.
    + rewrite rich_tracked_frame. simpl. eauto.
  - destruct (simple_onResults_frameTail sqrt cw ch hands g0)
      as (hp & pinch & E & _).
    rewrite E. eauto.
Qed.

(** A frame that starts with an active tile and ends without one has run
    the release. *)
Lemma frame_release_inv sqrt g g' snds aid :
  frame sqrt g g' snds ->
  activeTileId g = Some aid -> activeTileId g' = None ->
  exists cw,
    tiles g' = settle (fst (dropActive cw aid (tiles g))) /\
    snds = snd (dropActive cw aid (tiles g))
           ++ snd (updateTrayWord
                     (withActive None
                        (withTiles (fst (dropActive cw aid (tiles g))) g))).
Proof.
  intros Hf Ha Hn.
  destruct (frame_is_frameTail _ _ _ _ Hf) as (cw & hp & pinch & -> & ->).
  exists cw.
  destruct (frameTail_outcome cw hp pinch g)
    as [Hnone _|h k c Hh Hp Hc Hnone _|h aid' Hh Hp Hc Ha'|aid' Ha' _];
    try congruence.
  - simpl in Hn. congruence.
  - replace aid' with aid by congruence. split; reflexivity.
Qed.

Lemma dropActive_inside cw aid ts k tile :
  find (fun t => (id t =? aid)%string) ts = Some (k, tile) ->
  inBand tile = true ->
  dropActive cw aid ts =
  (dropInside cw k tile (updateAt k (setDragging false) ts),
   if inTray tile then [] else [click]).
Proof. intros Hf Hb. unfold dropActive. now rewrite Hf, Hb. Qed.

Lemma dropActive_outside cw aid ts k tile :
  find (fun t => (id t =? aid)%string) ts = Some (k, tile) ->
  inBand tile = false ->
  dropActive cw aid ts =
  (dropOutside k (updateAt k (setDragging false) ts), []).
Proof. intros Hf Hb. unfold dropActive. now rewrite Hf, Hb. Qed.

Lemma filter_updateAt_length {A : Type} (p : A -> bool) (f : A -> A) :
  forall (l : list A) (k : nat) (a : A),
    nth_error l k = Some a -> p a = false -> p (f a) = false ->
    List.length (filter p (updateAt k f l)) = List.length (filter p l).
Proof.
  induction l as [|b l IH]; intros k a Hk Ha Hfa.
  - destruct k; discriminate.
  - destruct k as [|k]; simpl in *.
    + injection Hk as ->. now rewrite Ha, Hfa.
    + destruct (p b); simpl; rewrite (IH k a Hk Ha Hfa); reflexivity.
Qed.

(** The tiles the released tile finds in the tray are the in-tray tiles of
    the pool with another id. *)
Lemma otherTrayTiles_length k tile ts :
  nth_error ts k = Some tile ->
  List.length (otherTrayTiles k tile (updateAt k (setDragging false) ts))
  = List.length
      (filter (fun t => inTray t && negb (id t =? id tile)%string) ts).
Proof.
  intros Hk. unfold otherTrayTiles, trayTilesOf.
  rewrite (Permutation_length (sortBy_perm _ _)).
  set (p := fun t : LetterTile => inTray t && negb (id t =? id tile)%string).
  change (fun r : nat * LetterTile =>
            inTray (snd r) && negb (id (snd r) =? id tile)%string)
    with (fun r : nat * LetterTile => p (snd r)).
  unfold enumerate.
  rewrite <- (length_map snd), <- filter_enumerateFrom.
  assert (Hp : forall t, id t = id tile -> p t = false).
  { intros t E. unfold p. rewrite E, String.eqb_refl.
    now destruct (inTray t). }
  rewrite (filter_updateAt_length p (setInTray true) _ k (setDragging false tile)).
  - apply (filter_updateAt_length p (setDragging false) _ k tile Hk);
      apply Hp; reflexivity.
  - rewrite nth_error_updateAt, Nat.eqb_refl, Hk. reflexivity.
  - apply Hp. reflexivity.
  - apply Hp. reflexivity.
Qed.

(** The released tile, exactly as the release leaves it. *)
Lemma dropActive_released_exact cw aid ts k tile :
  find (fun t => (id t =? aid)%string) ts = Some (k, tile) ->
  let n := List.length
             (filter (fun t => inTray t && negb (id t =? id tile)%string) ts) in
  nth_error (fst (dropActive cw aid ts)) k =
  Some (if inBand tile
        then slot ((cw - inject_Z (Z.of_nat (n + 1)) * TILE_SIZE * 1.1) / 2
                   + TILE_SIZE * 1.1 / 2)%Q n
               (setTargetY TRAY_Y
                  (setTrayIndex (Some n)
                     (setInTray true (setDragging false tile))))
        else setTrayIndex None (setInTray false (setDragging false tile))).
Proof.
  intros Hf n.
  pose proof (find_Some _ _ _ _ Hf) as (Hk & _ & _).
  destruct (inBand tile) eqn:Hb.
  - rewrite (dropActive_inside _ _ _ _ _ Hf Hb). simpl fst.
    assert (Hk0 : nth_error (updateAt k (setDragging false) ts) k
                  = Some (setDragging false tile))
      by (rewrite nth_error_updateAt, Nat.eqb_refl, Hk; reflexivity).
    rewrite (dropInside_nth_error cw k tile (setDragging false tile) _
               Hk0 eq_refl).
    rewrite (slot_of_released k tile (setDragging false tile) _ Hk0 eq_refl).
    rewrite nth_error_updateAt, Nat.eqb_refl, Hk0.
    rewrite (otherTrayTiles_length k tile ts Hk). reflexivity.
  - rewrite (dropActive_outside _ _ _ _ _ Hf Hb). simpl fst.
    unfold dropOutside.
    rewrite !nth_error_updateAt, Nat.eqb_refl, Hk. reflexivity.
Qed.

(** C1, amended. A frame without a hand while a tile is active resets the
    pinch counter and the confirmed flag, leaves the smoothed cursor where
    it was, and releases the tile where it is: the active tile id is
    cleared, the dragging flag of the tile is cleared, its tray membership
    is decided by the capture band around the tray line, and, no longer
    dragged, the tile is eased toward its target by the settle animator.
    The tile is not moved to any cursor position: its new position is its
    old one plus 15% of the way to its target, which is the last slot of the
    tray row (behind the [n] in-tray tiles with another id) after a drop
    inside the band and the target it had after a drop outside; its id,
    character and colour stay.  The simpler screen does the same to the
    game. *)
Theorem hand_loss_releases_the_active_tile :
  forall sqrt cw ch (s : Rich.State) aid k tile,
    activeTileId (Rich.game s) = Some aid ->
    find (fun t => (id t =? aid)%string) (tiles (Rich.game s)) = Some (k, tile) ->
    let s' := fst (Rich.onResults sqrt cw ch [] s) in
    let n := List.length
               (filter (fun t => inTray t && negb (id t =? id tile)%string)
                       (tiles (Rich.game s))) in
    let tx := if inBand tile then slotTarget cw (S n) n else targetX tile in
    let ty := if inBand tile then TRAY_Y else targetY tile in
    Rich.pinchFrames s' = 0 /\ Rich.pinchConfirmed s' = false /\
    Rich.smoothHandPos s' = Rich.smoothHandPos s /\
    activeTileId (Rich.game s') = None /\
    (exists t',
        nth_error (tiles (Rich.game s')) k = Some t' /\
        isDragging t' = false /\ inTray t' = inBand tile /\
        y t' = (y tile
                + ((if inBand tile then TRAY_Y else targetY tile) - y tile)
                  * 0.15)%Q /\
        (x t' == x tile + (tx - x tile) * 0.15)%Q /\
        (targetX t' == tx)%Q /\ targetY t' = ty /\
        trayIndex t' = (if inBand tile then Some n else None) /\
        identityOf t' = identityOf tile) /\
    fst (Simple.onResults sqrt cw ch [] (Rich.game s)) = Rich.game s'.
Proof.
  intros sqrt cw ch s aid k tile Ha Hf s' n tx ty.
  unfold s'. rewrite rich_lost_frame. simpl.
  split; [reflexivity|]. split; [reflexivity|]. split; [reflexivity|].
  assert (Hs : fst (Simple.onResults sqrt cw ch [] (Rich.game s))
               = fst (frameTail cw None false (Rich.game s))) by reflexivity.
  rewrite Hs.
  rewrite (frameTail_release cw None false (Rich.game s) aid Ha
             (or_introl eq_refl)).
  cbv zeta. simpl fst.
  split; [unfold withTiles; simpl; apply updateTrayWord_active|].
  split; [|reflexivity].
  unfold withTiles. simpl tiles.
  rewrite nth_error_settle, (dropActive_released_exact cw aid _ k tile Hf).
  fold n. simpl option_map.
  eexists. split; [reflexivity|].
  unfold tx, ty. destruct (inBand tile); unfold ease; simpl.
  - assert (E : ((cw - inject_Z (Z.of_nat (n + 1)) * TILE_SIZE * 1.1) / 2
                 + TILE_SIZE * 1.1 / 2 + inject_Z (Z.of_nat n) * TILE_SIZE * 1.1
                 - TILE_SIZE * 1.1 / 2 == slotTarget cw (S n) n)%Q).
    { unfold slotTarget, TILE_SIZE. rewrite Nat.add_1_r. field. }
    repeat split; try reflexivity; try exact E.
    rewrite E. reflexivity.
  - repeat split; reflexivity.
Qed.

Lemma hand_loss_releases_the_active_tile_witness :
  activeTileId (Rich.game dogState) = Some (tileId "G" 2) /\
  find (fun t => (id t =? tileId "G" 2)%string) (tiles (Rich.game dogState))
  = Some (2, heldTile "G" 2 TRAY_Y) /\
  activeTileId (Rich.game (fst (Rich.onResults Qsqrt 1280 720 [] dogState)))
  = None /\
  exists t',
    nth_error (tiles (Rich.game (fst (Rich.onResults Qsqrt 1280 720 [] dogState))))
              2 = Some t' /\
    (x t' == 440.95)%Q /\ (targetX t' == 673)%Q /\ trayIndex t' = Some 2.
Proof.
  split; [reflexivity|]. split; [reflexivity|].
  destruct (hand_loss_releases_the_active_tile Qsqrt 1280 720 dogState
              (tileId "G" 2) 2 (heldTile "G" 2 TRAY_Y) eq_refl eq_refl)
    as (_ & _ & _ & Hn & (t' & Hk & _ & _ & _ & Hx & Htx & _ & Hi & _) & _).
  split; [exact Hn|].
  exists t'. split; [exact Hk|].
  split; [rewrite Hx; reflexivity|].
  split; [rewrite Htx; reflexivity | exact Hi].
Defined.

Lemma settle_tray ts :
  map trayIndex (filter inTray (settle ts)) = map trayIndex (filter inTray ts)
  /\ List.length (filter inTray (settle ts)) = List.length (filter inTray ts).
Proof.
  unfold settle. rewrite filter_map_swap.
  assert (E : filter (fun a => inTray (ease a)) ts = filter inTray ts).
  { apply filter_ext. intros t. unfold ease. now destruct (isDragging t). }
  rewrite E, map_map, length_map. split; auto.
  apply map_ext. intros t. unfold ease. now destruct (isDragging t).
Qed.

(** C2, as the specification words it, fails on a drop outside the band:
    A, B and C fill slots 0, 1 and 2, A is grabbed again and released far
    below the tray; B and C keep slots 1 and 2, which are not the slots
    0 and 1. *)
Lemma drop_outside_band_leaves_a_gap :
  let g := regrabbedGame 500 in
  let g' := fst (Simple.onResults Qsqrt 1280 720 [] g) in
  activeTileId g = Some (tileId "A" 0) /\
  activeTileId g' = None /\
  map inTray (tiles g') = [false; true; true] /\
  map trayIndex (filter inTray (tiles g')) = [Some 1; Some 2] /\
  ~ Permutation (map trayIndex (filter inTray (tiles g')))
                (map Some (seq 0 (List.length (filter inTray (tiles g'))))).
Proof.
  cbv zeta.
  assert (E : map trayIndex
                (filter inTray
                   (tiles (fst (Simple.onResults Qsqrt 1280 720 []
                                  (regrabbedGame 500)))))
              = [Some 1; Some 2]) by (vm_compute; reflexivity).
  split; [reflexivity|]. split; [vm_compute; reflexivity|].
  split; [vm_compute; reflexivity|]. split; [exact E|].
  intros H. rewrite E in H.
  assert (Hl : List.length
                 (filter inTray
                    (tiles (fst (Simple.onResults Qsqrt 1280 720 []
                                   (regrabbedGame 500))))) = 2)
    by (vm_compute; reflexivity).
  rewrite Hl in H. simpl in H.
  apply Permutation_sym in H.
  apply (Permutation_in (Some 0)) in H; [|now left].
  destruct H as [H|[H|[]]]; discriminate.
Qed.

(** C2, amended. After a Dragging to Idle transition of either screen in
    which the active tile is found in a pool of distinct ids: if the tile is
    dropped inside the capture band, the slots of the in-tray tiles are
    exactly 0 .. n-1, without gaps or duplicates; if it is dropped outside
    the band, it leaves the tray and loses its slot, and every other tile
    keeps its tray membership and its slot as they were. *)
Theorem release_renumbers_tray_inside_band :
  forall sqrt g g' snds aid k tile,
    frame sqrt g g' snds ->
    activeTileId g = Some aid -> activeTileId g' = None ->
    find (fun t => (id t =? aid)%string) (tiles g) = Some (k, tile) ->
    NoDup (map id (tiles g)) ->
    (inBand tile = true ->
     Permutation (map trayIndex (filter inTray (tiles g')))
                 (map Some (seq 0 (List.length (filter inTray (tiles g')))))) /\
    (inBand tile = false ->
     (exists t', nth_error (tiles g') k = Some t' /\
                 inTray t' = false /\ trayIndex t' = None) /\
     (forall p t, p <> k -> nth_error (tiles g) p = Some t ->
        exists t', nth_error (tiles g') p = Some t' /\
                   inTray t' = inTray t /\ trayIndex t' = trayIndex t)).
Proof.
  intros sqrt g g' snds aid k tile Hf Ha Hn Hfind Hnd.
  destruct (frame_release_inv _ _ _ _ _ Hf Ha Hn) as (cw & Ht & _).
  pose proof (find_Some _ _ _ _ Hfind) as (Hk & Hid & _).
  apply String.eqb_eq in Hid.
  split; intros Hb.
  - rewrite (dropActive_inside _ _ _ _ _ Hfind Hb) in Ht. simpl in Ht.
    rewrite Ht.
    destruct (settle_tray (dropInside cw k tile
                             (updateAt k (setDragging false) (tiles g))))
      as [E1 E2].
    rewrite E1, E2.
    apply (dropInside_slots cw k tile (setDragging false tile)).
    + rewrite map_updateAt; auto.
    + rewrite nth_error_updateAt, Nat.eqb_refl, Hk. reflexivity.
    + reflexivity.
  - rewrite (dropActive_outside _ _ _ _ _ Hfind Hb) in Ht. simpl in Ht.
    rewrite Ht. unfold dropOutside. split.
    + rewrite nth_error_settle, !nth_error_updateAt, Nat.eqb_refl, Hk. simpl.
      eexists; split; [reflexivity|]. unfold ease; simpl. auto.
    + intros p t Hp Hpt.
      rewrite nth_error_settle, !nth_error_updateAt.
      destruct (Nat.eqb_spec k p) as [E|_]; [congruence|].
      rewrite Hpt. simpl. eexists; split; [reflexivity|].
      unfold ease. destruct (isDragging t); auto.
Qed.

Lemma release_renumbers_tray_inside_band_witness :
  let g := regrabbedGame TRAY_Y in
  let g' := fst (Simple.onResults Qsqrt 1280 720 [] g) in
  frame Qsqrt g g' (snd (Simple.onResults Qsqrt 1280 720 [] g)) /\
  activeTileId g = Some (tileId "A" 0) /\ activeTileId g' = None /\
  find (fun t => (id t =? tileId "A" 0)%string) (tiles g)
  = Some (0, mkTile (tileId "A" 0) "A" 300 TRAY_Y 0 TRAY_Y red true true (Some 0)) /\
  NoDup (map id (tiles g)) /\
  inBand (mkTile (tileId "A" 0) "A" 300 TRAY_Y 0 TRAY_Y red true true (Some 0))
  = true /\
  Permutation (map trayIndex (filter inTray (tiles g')))
              (map Some (seq 0 (List.length (filter inTray (tiles g'))))).
Proof.
  cbv zeta.
  assert (Hnd : NoDup (map id (tiles (regrabbedGame TRAY_Y)))).
  { simpl. repeat constructor; simpl; intuition discriminate. }
  split; [apply frame_simple|].
  split; [reflexivity|]. split; [vm_compute; reflexivity|].
  split; [reflexivity|]. split; [exact Hnd|]. split; [reflexivity|].
  apply (release_renumbers_tray_inside_band Qsqrt (regrabbedGame TRAY_Y) _
           (snd (Simple.onResults Qsqrt 1280 720 [] (regrabbedGame TRAY_Y)))
           (tileId "A" 0) 0
           (mkTile (tileId "A" 0) "A" 300 TRAY_Y 0 TRAY_Y red true true (Some 0))).
  - apply frame_simple.
  - reflexivity.
  - vm_compute; reflexivity.
  - reflexivity.
  - exact Hnd.
  - reflexivity.
Defined.

Lemma updateTrayWord_sounds g : ~ In click (snd (updateTrayWord g)).
Proof.
  unfold updateTrayWord. destruct (_ && _); simpl; intuition discriminate.
Qed.

(** The slot an other tile of the tray receives on a drop inside the band. *)
Lemma other_tile_after_drop cw k tile ts p t :
  NoDup (map id ts) -> nth_error ts k = Some tile ->
  p <> k -> nth_error ts p = Some t -> inTray t = true ->
  let ts0 := updateAt k (setDragging false) ts in
  let others := otherTrayTiles k tile ts0 in
  exists j t',
    nth_error others j = Some (p, t) /\ j < List.length others /\
    nth_error (settle (dropInside cw k tile ts0)) p = Some t' /\
    inTray t' = true /\ trayIndex t' = Some j.
Proof.
  intros Hnd Hk Hne Hp Ht ts0 others.
  assert (Hnd0 : NoDup (map id ts0))
    by (unfold ts0; rewrite map_updateAt; auto).
  assert (Hk0 : nth_error ts0 k = Some (setDragging false tile))
    by (unfold ts0; rewrite nth_error_updateAt, Nat.eqb_refl, Hk; reflexivity).
  assert (Hp0 : nth_error ts0 p = Some t).
  { unfold ts0. rewrite nth_error_updateAt.
    destruct (Nat.eqb_spec k p); [congruence | exact Hp]. }
  destruct (slot_of_other k tile _ ts0 Hnd0 Hk0 eq_refl p t Hne Hp0 Ht)
    as (j & Hj & Hi & Hlt).
  destruct (dropInside_slot_order cw k tile _ ts0 Hnd0 Hk0 eq_refl p j Hi)
    as (t2 & H2 & Hin & Hidx).
  exists j, (ease t2). repeat split; auto.
  - rewrite nth_error_settle, H2. reflexivity.
  - unfold ease. destruct (isDragging t2); auto.
  - unfold ease. destruct (isDragging t2); auto.
Qed.

(** C10. When a tile that already is in the tray is released inside the
    capture band (in a pool of distinct ids, on either screen), no placement
    sound is played, the tile takes the last slot n-1 whatever its former
    slot was, and the other in-tray tiles take the slots below n-1 in the
    order of their former slots; together the slots are exactly 0 .. n-1. *)
Theorem regrabbed_tray_tile_goes_to_last_slot :
  forall sqrt g g' snds aid k tile,
    frame sqrt g g' snds ->
    activeTileId g = Some aid -> activeTileId g' = None ->
    find (fun t => (id t =? aid)%string) (tiles g) = Some (k, tile) ->
    NoDup (map id (tiles g)) ->
    inBand tile = true -> inTray tile = true ->
    let n := List.length (filter inTray (tiles g')) in
    ~ In click snds /\
    (exists t', nth_error (tiles g') k = Some t' /\
                inTray t' = true /\ trayIndex t' = Some (n - 1)) /\
    (forall p t, p <> k -> nth_error (tiles g) p = Some t -> inTray t = true ->
       exists t' j, nth_error (tiles g') p = Some t' /\ inTray t' = true /\
                    trayIndex t' = Some j /\ j < n - 1) /\
    (forall p q tp tq,
       p <> k -> q <> k ->
       nth_error (tiles g) p = Some tp -> nth_error (tiles g) q = Some tq ->
       inTray tp = true -> inTray tq = true -> trayKey tp < trayKey tq ->
       exists tp' tq' i j,
         nth_error (tiles g') p = Some tp' /\ nth_error (tiles g') q = Some tq' /\
         trayIndex tp' = Some i /\ trayIndex tq' = Some j /\ i < j) /\
    Permutation (map trayIndex (filter inTray (tiles g')))
                (map Some (seq 0 n)).
Proof.
  intros sqrt g g' snds aid k tile Hf Ha Hn Hfind Hnd Hb Hin n.
  destruct (frame_release_inv _ _ _ _ _ Hf Ha Hn) as (cw & Ht & Hs).
  pose proof (find_Some _ _ _ _ Hfind) as (Hk & _ & _).
  rewrite (dropActive_inside _ _ _ _ _ Hfind Hb) in Ht, Hs.
  simpl in Ht, Hs. rewrite Hin in Hs. simpl in Hs.
  set (ts0 := updateAt k (setDragging false) (tiles g)) in *.
  set (others := otherTrayTiles k tile ts0).
  assert (Hnd0 : NoDup (map id ts0))
    by (unfold ts0; rewrite map_updateAt; auto).
  assert (Hk0 : nth_error ts0 k = Some (setDragging false tile))
    by (unfold ts0; rewrite nth_error_updateAt, Nat.eqb_refl, Hk; reflexivity).
  destruct (dropInside_slots cw k tile _ ts0 Hnd0 Hk0 eq_refl) as [Hlen Hperm].
  destruct (settle_tray (dropInside cw k tile ts0)) as [E1 E2].
  assert (Hn' : n = S (List.length others))
    by (unfold n; rewrite Ht, E2; exact Hlen).
  split; [rewrite Hs; apply updateTrayWord_sounds|].
  split.
  { pose proof (slot_of_released k tile _ ts0 Hk0 eq_refl) as Hi.
    destruct (dropInside_slot_order cw k tile _ ts0 Hnd0 Hk0 eq_refl k _ Hi)
      as (t2 & H2 & Hin2 & Hidx).
    exists (ease t2). rewrite Ht, nth_error_settle, H2.
    split; [reflexivity|].
    replace (n - 1) with (List.length others) by lia.
    unfold ease. destruct (isDragging t2); auto. }
  split.
  { intros p t Hne Hp Hpt.
    destruct (other_tile_after_drop cw k tile (tiles g) p t Hnd Hk Hne Hp Hpt)
      as (j & t' & Hj & Hlt & Hnth & Hin' & Hidx).
    exists t', j. rewrite Ht. repeat split; auto.
    fold ts0 in Hlt. fold others in Hlt. lia. }
  split.
  { intros p q tp tq Hp Hq Hnp Hnq Hip Hiq Hlt.
    destruct (other_tile_after_drop cw k tile (tiles g) p tp Hnd Hk Hp Hnp Hip)
      as (i & tp' & Hi & _ & Hnth & _ & Hidx).
    destruct (other_tile_after_drop cw k tile (tiles g) q tq Hnd Hk Hq Hnq Hiq)
      as (j & tq' & Hj & _ & Hnth' & _ & Hidx').
    exists tp', tq', i, j. rewrite Ht. repeat split; auto.
    exact (others_keep_their_order k tile ts0 i j p q tp tq Hi Hj Hlt). }
  unfold n. rewrite Ht, E1, E2. exact Hperm.
Qed.

Lemma regrabbed_tray_tile_goes_to_last_slot_witness :
  let g := regrabbedGame TRAY_Y in
  let tile := mkTile (tileId "A" 0) "A" 300 TRAY_Y 0 TRAY_Y red true true (Some 0) in
  let g' := fst (Rich.onResults Qsqrt 1280 720 []
                   (Rich.mkState g (Point.mk 300 220) 3 true)) in
  activeTileId g = Some (tileId "A" 0) /\ activeTileId (Rich.game g') = None /\
  find (fun t => (id t =? tileId "A" 0)%string) (tiles g) = Some (0, tile) /\
  NoDup (map id (tiles g)) /\ inBand tile = true /\ inTray tile = true /\
  map trayIndex (tiles (Rich.game g')) = [Some 2; Some 0; Some 1] /\
  exists t', nth_error (tiles (Rich.game g')) 0 = Some t' /\
             inTray t' = true /\
             trayIndex t'
             = Some (List.length (filter inTray (tiles (Rich.game g'))) - 1).
Proof.
  cbv zeta.
  assert (Hnd : NoDup (map id (tiles (regrabbedGame TRAY_Y)))).
  { simpl. repeat constructor; simpl; intuition discriminate. }
  split; [reflexivity|]. split; [vm_compute; reflexivity|].
  split; [reflexivity|]. split; [exact Hnd|].
  split; [reflexivity|]. split; [reflexivity|].
  split; [vm_compute; reflexivity|].
  apply (regrabbed_tray_tile_goes_to_last_slot Qsqrt (regrabbedGame TRAY_Y) _ _
           (tileId "A" 0) 0
           (mkTile (tileId "A" 0) "A" 300 TRAY_Y 0 TRAY_Y red true true (Some 0))
           (frame_rich Qsqrt 1280 720 []
              (Rich.mkState (regrabbedGame TRAY_Y) (Point.mk 300 220) 3 true)));
    try reflexivity; try exact Hnd.
Defined.

(** ** Shuffling and pool construction *)

Lemma updateAt_const_perm {A : Type} (l : list A) (i : nat) (a b : A) :
  nth_error l i = Some a ->
  Permutation (a :: updateAt i (fun _ => b) l) (b :: l).
Proof.
  revert i; induction l as [|c l IH]; intros [|i] H; simpl in *;
    try discriminate.
  - inversion H; subst. apply perm_swap.
  - rewrite perm_swap. rewrite (IH i H). apply perm_swap.
Qed.

Lemma swap_perm {A : Type} (i j : nat) (l : list A) :
  Permutation (swap i j l) l.
Proof.
  unfold swap.
  destruct (nth_error l i) as [a|] eqn:Hi; auto.
  destruct (nth_error l j) as [b|] eqn:Hj; auto.
  pose proof (updateAt_const_perm l j b a Hj) as P1.
  assert (Hi' : nth_error (updateAt j (fun _ => a) l) i = Some a).
  { rewrite nth_error_updateAt. destruct (j =? i); rewrite Hi; reflexivity. }
  pose proof (updateAt_const_perm _ i a b Hi') as P2.
  apply (Permutation_cons_inv (a := a)).
  rewrite P2, P1. reflexivity.
Qed.

Lemma shuffleLoop_perm {A : Type} (rnd : Draws) (i k : nat) (l : list A) :
  Permutation (shuffleLoop rnd k i l) l.
Proof.
  revert k l; induction i as [|i IH]; intros k l; simpl; auto.
  rewrite IH. apply swap_perm.
Qed.

Lemma shuffleArray_perm {A : Type} (rnd : Draws) (l : list A) :
  Permutation (shuffleArray rnd l) l.
Proof. apply shuffleLoop_perm. Qed.

Lemma enumerateFrom_app {A : Type} (l1 l2 : list A) (i : nat) :
  enumerateFrom i (l1 ++ l2)
  = enumerateFrom i l1 ++ enumerateFrom (i + List.length l1) l2.
Proof.
  revert i; induction l1 as [|a l1 IH]; intros i; simpl.
  - now rewrite Nat.add_0_r.
  - rewrite IH. now rewrite Nat.add_succ_r.
Qed.

Lemma firstn_plus {A : Type} (m n : nat) (l : list A) :
  firstn (m + n) l = firstn m l ++ firstn n (skipn m l).
Proof.
  revert l; induction m as [|m IH]; intros l; simpl; auto.
  destruct l as [|a l]; simpl.
  - now rewrite firstn_nil.
  - now rewrite IH.
Qed.

Section PoolProjection.

Context {B : Type} (g : LetterTile -> B) (h : ascii -> nat -> B).
Hypothesis g_newTile : forall c j px py, g (newTile c j px py) = h c j.

Lemma layoutCols_spec rx py cols col ci ls :
  map g (fst (layoutCols rx py cols col ci ls))
  = map (fun r => h (snd r) (fst r)) (enumerateFrom ci (firstn cols ls)) /\
  snd (layoutCols rx py cols col ci ls)
  = (ci + List.length (firstn cols ls), skipn cols ls).
Proof.
  revert col ci ls; induction cols as [|cols IH]; intros col ci ls.
  - simpl. rewrite Nat.add_0_r. destruct ls; auto.
  - destruct ls as [|c rest].
    + simpl. rewrite Nat.add_0_r. auto.
    + simpl. specialize (IH (S col) (S ci) rest).
      destruct (layoutCols rx py cols (S col) (S ci) rest) as [ts out].
      simpl in *. destruct IH as [IH1 IH2].
      rewrite g_newTile, IH1, IH2. split; auto.
      f_equal. lia.
Qed.

Lemma layoutRows_spec w y0 rows ri ci ls :
  map g (layoutRows w y0 rows ri ci ls)
  = map (fun r => h (snd r) (fst r))
        (enumerateFrom ci (firstn (list_sum rows) ls)).
Proof.
  revert ri ci ls; induction rows as [|c rows IH]; intros ri ci ls; simpl; auto.
  match goal with |- context [layoutCols ?a ?b ?c0 ?d ?e ?f] =>
    pose proof (layoutCols_spec a b c0 d e f) as [H1 H2];
    destruct (layoutCols a b c0 d e f) as [ts [ci' rest]] end.
  simpl in H1, H2. inversion H2; subst.
  rewrite map_app, H1, IH, firstn_plus, enumerateFrom_app, map_app.
  reflexivity.
Qed.

Lemma buildPool_spec w hgt rows ls :
  map g (buildPool w hgt rows ls)
  = map (fun r => h (snd r) (fst r))
        (enumerateFrom 0 (firstn (list_sum rows) ls)).
Proof. apply layoutRows_spec. Qed.

End PoolProjection.

Lemma string_of_uint_inj d d' :
  NilEmpty.string_of_uint d = NilEmpty.string_of_uint d' -> d = d'.
Proof.
  intros H. apply (f_equal NilEmpty.uint_of_string) in H.
  rewrite !NilEmpty.usu in H. congruence.
Qed.

Lemma tileId_index c i c' i' : tileId c i = tileId c' i' -> i = i'.
Proof.
  unfold tileId. simpl. intros H. injection H as _ H.
  apply string_of_uint_inj in H.
  apply (f_equal Nat.of_uint) in H. now rewrite !Unsigned.of_to in H.
Qed.

Lemma NoDup_map_by_fst {A B C : Type} (f : A * B -> C) (l : list (A * B)) :
  (forall r r', f r = f r' -> fst r = fst r') ->
  NoDup (map fst l) -> NoDup (map f l).
Proof.
  intros Hf. induction l as [|r l IH]; simpl; intros H; [constructor|].
  inversion H as [|? ? Hn Hd]; subst. constructor; auto.
  intros Hin. apply Hn. apply in_map_iff in Hin.
  destruct Hin as (r' & E & Hr'). apply Hf in E. rewrite <- E.
  now apply in_map.
Qed.

(** A freshly built pool: distinct ids, nothing dragged, nothing in the
    tray, and the letters it was given, in order. *)
Lemma buildPool_fresh w hgt rows ls :
  NoDup (map id (buildPool w hgt rows ls)) /\
  (forall t, In t (buildPool w hgt rows ls) ->
             isDragging t = false /\ inTray t = false) /\
  map char (buildPool w hgt rows ls) = firstn (list_sum rows) ls.
Proof.
  split; [|split].
  - rewrite (buildPool_spec id (fun c j => tileId c j)) by reflexivity.
    apply NoDup_map_by_fst.
    + intros [j c] [j' c']. simpl. apply tileId_index.
    + rewrite enumerateFrom_fst. apply seq_NoDup.
  - intros t Ht.
    apply (in_map (fun t => (isDragging t, inTray t))) in Ht.
    rewrite (buildPool_spec _ (fun _ _ => (false, false))) in Ht by reflexivity.
    apply in_map_iff in Ht. destruct Ht as (r & E & _).
    inversion E; auto.
  - rewrite (buildPool_spec char (fun c _ => c)) by reflexivity.
    rewrite <- (enumerateFrom_snd (firstn (list_sum rows) ls) 0) at 2.
    reflexivity.
Qed.

(** The [while] loop of the richer [initPool] has fuel enough: its rows hold
    every letter, so the pool is the shuffled alphabet with the extra
    letters of the word. *)
Lemma rowsOf_sum fuel remaining :
  remaining <= fuel -> list_sum (Rich.rowsOf fuel remaining) = remaining.
Proof.
  revert remaining; induction fuel as [|fuel IH]; intros remaining H.
  - simpl. lia.
  - cbn -[Nat.min Nat.ltb].
    destruct (Nat.ltb_spec 0 remaining) as [Hpos|Hz]; cbn -[Nat.min]; [|lia].
    rewrite IH by lia. lia.
Qed.

Lemma rich_initPool_chars rnd w h word :
  map char (Rich.initPool rnd w h word)
  = shuffleArray rnd (alphabet ++ Rich.extraLetters word).
Proof.
  unfold Rich.initPool.
  match goal with |- context [buildPool w h ?rows ?ls] =>
    destruct (buildPool_fresh w h rows ls) as (_ & _ & E) end.
  rewrite E, rowsOf_sum by lia. apply firstn_all.
Qed.

(** ** At most one tile is dragged *)

Lemma dragInvariant_flags g :
  dragInvariant g <->
  NoDup (map fst (map flagsOf (tiles g))) /\
  (forall i, In (i, true) (map flagsOf (tiles g)) -> activeTileId g = Some i).
Proof.
  unfold dragInvariant. rewrite map_map. simpl.
  split; intros [Hn H]; split; auto.
  - intros i Hi. apply in_map_iff in Hi. destruct Hi as (t & E & Ht).
    inversion E; subst. auto.
  - intros t Ht Hd. apply H. apply in_map_iff. exists t.
    unfold flagsOf. rewrite Hd. auto.
Qed.

Lemma map_updateAt_comm {A B : Type} (g : A -> B) (f : A -> A) (f' : B -> B)
  (l : list A) (i : nat) :
  (forall a, g (f a) = f' (g a)) ->
  map g (updateAt i f l) = updateAt i f' (map g l).
Proof.
  intros H. revert i; induction l as [|a l IH]; intros [|i]; simpl;
    rewrite ?H, ?IH; auto.
Qed.

Lemma flags_settle ts : map flagsOf (settle ts) = map flagsOf ts.
Proof. apply settle_map. reflexivity. Qed.

Lemma flags_dropActive cw aid ts :
  map flagsOf (fst (dropActive cw aid ts)) =
  match find (fun t => (id t =? aid)%string) ts with
  | Some (k, _) => updateAt k (fun r => (fst r, false)) (map flagsOf ts)
  | None => map flagsOf ts
  end.
Proof.
  unfold dropActive.
  destruct (find _ ts) as [[k tile]|]; auto.
  rewrite <- (map_updateAt_comm flagsOf (setDragging false)) by reflexivity.
  destruct (inBand tile); simpl.
  - apply dropInside_map; reflexivity.
  - unfold dropOutside. apply map_updateAt. reflexivity.
Qed.

Lemma in_updateAt_fst {A B : Type} (F : list (A * B)) (k : nat) (b b' : B) (i : A) :
  b <> b' ->
  In (i, b) (updateAt k (fun r => (fst r, b')) F) ->
  exists p, p <> k /\ nth_error F p = Some (i, b).
Proof.
  intros Hb H. apply In_nth_error in H. destruct H as [p Hp].
  rewrite nth_error_updateAt in Hp.
  destruct (Nat.eqb_spec k p) as [->|Hne].
  - destruct (nth_error F p); simpl in Hp; inversion Hp; congruence.
  - exists p. split; auto.
Qed.

(** A frame preserves the drag invariant. *)
Lemma frameTail_dragInvariant cw handPos isPinching g :
  dragInvariant g -> dragInvariant (fst (frameTail cw handPos isPinching g)).
Proof.
  rewrite !dragInvariant_flags. intros [Hn Ha].
  destruct (frameTail_outcome cw handPos isPinching g)
    as [Hnone _|h k c Hh Hp Hc Hnone Hf|h aid Hh Hp Hc Hact|aid Hact _];
    simpl.
  - rewrite flags_settle. auto.
  - rewrite flags_settle.
    rewrite (map_updateAt_comm flagsOf _ (fun r => (fst r, true)))
      by reflexivity.
    split.
    + rewrite map_updateAt; auto.
    + intros i Hi. apply In_nth_error in Hi. destruct Hi as [p Hi].
      rewrite nth_error_updateAt in Hi.
      apply find_Some in Hf. destruct Hf as (Hk & _ & _).
      destruct (Nat.eqb_spec k p) as [->|Hne].
      * rewrite nth_error_map, Hk in Hi. simpl in Hi. congruence.
      * apply nth_error_In in Hi. apply Ha in Hi. congruence.
  - rewrite flags_settle.
    destruct (find _ (tiles g)) as [[k t]|]; auto.
    rewrite map_updateAt by reflexivity. auto.
  - rewrite updateTrayWord_active. simpl.
    rewrite flags_settle, flags_dropActive.
    destruct (find _ (tiles g)) as [[k tile]|] eqn:Hf.
    + split; [rewrite map_updateAt; auto|].
      intros i Hi. exfalso.
      apply in_updateAt_fst in Hi; [|discriminate].
      destruct Hi as (p & Hne & Hp).
      pose proof (Ha i (nth_error_In _ _ Hp)) as Hi.
      apply find_Some in Hf. destruct Hf as (Hk & Hid & _).
      apply String.eqb_eq in Hid.
      apply Hne.
      apply (proj1 (NoDup_nth_error _) Hn).
      * apply nth_error_Some. rewrite nth_error_map, Hp. discriminate.
      * rewrite (nth_error_map fst p), Hp, !nth_error_map, Hk. simpl.
        congruence.
    + split; auto. intros i Hi. exfalso.
      pose proof (Ha i Hi) as Hi'.
      apply in_map_iff in Hi. destruct Hi as (t & E & Ht).
      inversion E; subst.
      pose proof (find_None _ _ Hf t Ht) as Hne. simpl in Hne.
      apply String.eqb_neq in Hne. congruence.
Qed.

Lemma fresh_pool_dragInvariant g ts :
  tiles g = ts ->
  NoDup (map id ts) -> (forall t, In t ts -> isDragging t = false /\ inTray t = false) ->
  dragInvariant g.
Proof.
  intros E Hn Hf. unfold dragInvariant. rewrite E. split; auto.
  intros t Ht Hd. apply Hf in Ht. destruct Ht. congruence.
Qed.

Lemma richPool_dragInvariant rnd w h word g :
  tiles g = Rich.initPool rnd w h word -> dragInvariant g.
Proof.
  intros E. eapply fresh_pool_dragInvariant; eauto;
    unfold Rich.initPool; apply buildPool_fresh.
Qed.

Lemma simplePool_dragInvariant rnd w h g :
  tiles g = Simple.initPool rnd w h -> dragInvariant g.
Proof.
  intros E. eapply fresh_pool_dragInvariant; eauto;
    unfold Simple.initPool; apply buildPool_fresh.
Qed.

Lemma retargetCols_map {B : Type} (g : LetterTile -> B) rx py cols col ts :
  (forall a b t, g (setTarget a b t) = g t) ->
  map g (fst (Simple.retargetCols rx py cols col ts))
  ++ map g (snd (Simple.retargetCols rx py cols col ts)) = map g ts.
Proof.
  intros Hg. revert col ts; induction cols as [|cols IH]; intros col ts; simpl.
  - destruct ts; reflexivity.
  - destruct ts as [|t rest]; auto.
    specialize (IH (S col) rest).
    destruct (Simple.retargetCols rx py cols (S col) rest) as [done rest'].
    simpl in *. now rewrite Hg, IH.
Qed.

Lemma retargetRows_map {B : Type} (g : LetterTile -> B) w y0 rs ri ts :
  (forall a b t, g (setTarget a b t) = g t) ->
  map g (Simple.retargetRows w y0 rs ri ts) = map g ts.
Proof.
  intros Hg. revert ri ts; induction rs as [|c rs IH]; intros ri ts; simpl; auto.
  match goal with |- context [Simple.retargetCols ?a ?b ?c0 ?d ?e] =>
    pose proof (retargetCols_map g a b c0 d e Hg) as H;
    destruct (Simple.retargetCols a b c0 d e) as [done rest] end.
  simpl in H. rewrite map_app, IH. exact H.
Qed.

Lemma filter_split_perm {A : Type} (f : A -> bool) (l : list A) :
  Permutation (filter (fun a => negb (f a)) l ++ filter f l) l.
Proof.
  induction l as [|a l IH]; simpl; auto.
  destruct (f a); simpl.
  - rewrite <- Permutation_middle. now constructor.
  - now constructor.
Qed.

(** The scramble permutes the pool and touches targets only. *)
Lemma scramblePool_perm {B : Type} (g : LetterTile -> B) rnd w h ts :
  (forall a b t, g (setTarget a b t) = g t) ->
  Permutation (map g (Simple.scramblePool rnd w h ts)) (map g ts).
Proof.
  intros Hg. unfold Simple.scramblePool.
  rewrite map_app, retargetRows_map by exact Hg.
  rewrite <- (filter_split_perm inTray ts) at 3.
  rewrite map_app. apply Permutation_app_tail, Permutation_map.
  apply shuffleArray_perm.
Qed.

Lemma scramblePool_dragInvariant rnd w h g :
  dragInvariant g ->
  dragInvariant (withTiles (Simple.scramblePool rnd w h (tiles g)) g).
Proof.
  rewrite !dragInvariant_flags. simpl. intros [Hn Ha].
  pose proof (scramblePool_perm flagsOf rnd w h (tiles g)
                (fun _ _ _ => eq_refl)) as P.
  split.
  - eapply Permutation_NoDup; [|exact Hn].
    apply Permutation_map. now symmetry.
  - intros i Hi. apply Ha. eapply Permutation_in; eauto.
Qed.

Lemma rich_reachable_dragInvariant sqrt s :
  Rich.reachable sqrt s -> dragInvariant (Rich.game s).
Proof.
  induction 1 as [|s cw ch hands _ IH|s rnd w h word _ _ IH
                  |s rnd w h _ _ IH|s _ IH|s d _ IH]; simpl.
  - split; [constructor | intros t []].
  - destruct (rich_onResults_frameTail sqrt cw ch hands s)
      as (hp & pinch & E & _).
    rewrite E. now apply frameTail_dragInvariant.
  - eapply richPool_dragInvariant. reflexivity.
  - unfold Rich.resize. destruct (tiles (Rich.game s)) eqn:E.
    + eapply richPool_dragInvariant. reflexivity.
    + exact IH.
  - exact IH.
  - exact IH.
Qed.

Lemma simple_reachable_dragInvariant sqrt g :
  Simple.reachable sqrt g -> dragInvariant g.
Proof.
  induction 1 as [|g cw ch hands _ IH|g rnd w h word _ _ IH
                  |g rnd w h _ _ IH|g rnd w h seen0 _ _ IH|g _ IH|g d _ IH]; simpl.
  - split; [constructor | intros t []].
  - destruct (simple_onResults_frameTail sqrt cw ch hands g)
      as (hp & pinch & E & _).
    rewrite E. now apply frameTail_dragInvariant.
  - eapply simplePool_dragInvariant. reflexivity.
  - unfold Simple.resize. destruct (tiles g) eqn:E.
    + eapply simplePool_dragInvariant. reflexivity.
    + exact IH.
  - unfold Simple.scrambleTick. destruct seen0, (isCorrect g); auto.
    now apply scramblePool_dragInvariant.
  - exact IH.
  - exact IH.
Qed.

Lemma dragInvariant_oneTileDragged g : dragInvariant g -> oneTileDragged g.
Proof.
  intros [Hn Ha]. split; auto.
  intros i j ti tj Hi Hj Hdi Hdj.
  pose proof (Ha ti (nth_error_In _ _ Hi) Hdi) as Ei.
  pose proof (Ha tj (nth_error_In _ _ Hj) Hdj) as Ej.
  apply (proj1 (NoDup_nth_error _) Hn).
  - rewrite length_map. apply nth_error_Some. congruence.
  - rewrite !nth_error_map, Hi, Hj. simpl. congruence.
Qed.

(** C6. In every state either screen can reach, by any sequence of frames,
    new rounds (which replace the pool, also in the middle of a drag),
    resizes, scrambles, timer ticks and changes of difficulty, at most one
    tile of the pool has [isDragging = true], and the id of a dragged tile is
    the active tile id. *)
Theorem at_most_one_tile_is_dragged :
  forall sqrt (g : Game),
    Simple.reachable sqrt g \/
    (exists s, Rich.reachable sqrt s /\ Rich.game s = g) ->
    (forall i j ti tj,
        nth_error (tiles g) i = Some ti -> nth_error (tiles g) j = Some tj ->
        isDragging ti = true -> isDragging tj = true -> i = j) /\
    (forall t, In t (tiles g) -> isDragging t = true ->
               activeTileId g = Some (id t)).
Proof.
  intros sqrt g [H|(s & H & <-)];
    apply dragInvariant_oneTileDragged.
  - eapply simple_reachable_dragInvariant; eauto.
  - eapply rich_reachable_dragInvariant; eauto.
Qed.

Lemma zeroDraws_unit : unitDraws zeroDraws.
Proof. intros k. unfold zeroDraws. split; [apply Qle_refl | reflexivity]. Qed.

Lemma grabbedGame_reachable : Simple.reachable Qsqrt grabbedGame.
Proof.
  unfold grabbedGame. apply Simple.reach_frame.
  apply Simple.reach_nextWord; [apply zeroDraws_unit | apply Simple.reach_initial].
Qed.

Lemma at_most_one_tile_is_dragged_witness :
  Simple.reachable Qsqrt grabbedGame /\
  activeTileId grabbedGame = Some (tileId "B" 0) /\
  (exists t, nth_error (tiles grabbedGame) 0 = Some t /\ isDragging t = true) /\
  (forall t, In t (tiles grabbedGame) -> isDragging t = true ->
             activeTileId grabbedGame = Some (id t)).
Proof.
  split; [exact grabbedGame_reachable|].
  split; [vm_compute; reflexivity|].
  split; [vm_compute; eexists; split; reflexivity|].
  apply (at_most_one_tile_is_dragged Qsqrt grabbedGame).
  left. exact grabbedGame_reachable.
Defined.

(** ** The simpler pool has one tile per letter *)

Lemma letters_trayLetters ts :
  letters (trayLetters ts) = map char (sortBy trayKey (filter inTray ts)).
Proof. apply list_ascii_of_string_of_list_ascii. Qed.

Lemma trayLetters_NoDup ts :
  NoDup (map char ts) -> NoDup (letters (trayLetters ts)).
Proof.
  intros H. rewrite letters_trayLetters.
  eapply Permutation_NoDup.
  - apply Permutation_map. symmetry. apply sortBy_perm.
  - now apply NoDup_map_filter.
Qed.

Lemma dropActive_map {B : Type} (g : LetterTile -> B) cw aid ts :
  (forall a b t, g (setTarget a b t) = g t) ->
  (forall o t, g (setTrayIndex o t) = g t) ->
  (forall b t, g (setInTray b t) = g t) ->
  (forall b t, g (setDragging b t) = g t) ->
  map g (fst (dropActive cw aid ts)) = map g ts.
Proof.
  intros H1 H2 H3 H4. unfold dropActive.
  destruct (find _ ts) as [[k tile]|]; auto.
  destruct (inBand tile); simpl.
  - rewrite dropInside_map, map_updateAt; auto.
  - unfold dropOutside. rewrite !map_updateAt; auto.
    intros; now rewrite H2, H3.
Qed.

Lemma frameTail_chars cw handPos isPinching g :
  map char (tiles (fst (frameTail cw handPos isPinching g)))
  = map char (tiles g).
Proof.
  destruct (frameTail_outcome cw handPos isPinching g)
    as [Hnone _|h k c Hh Hp Hc Hnone Hf|h aid Hh Hp Hc Hact|aid Hact _];
    simpl; rewrite settle_map by reflexivity; auto.
  - apply map_updateAt. reflexivity.
  - destruct (find _ (tiles g)) as [[k t]|]; auto.
    apply map_updateAt. reflexivity.
  - apply dropActive_map; reflexivity.
Qed.

Lemma frameTail_currentWord cw handPos isPinching g :
  currentWord (fst (frameTail cw handPos isPinching g)) = currentWord g.
Proof.
  destruct (frameTail_outcome cw handPos isPinching g); simpl; auto.
  unfold updateTrayWord. destruct (_ && _); reflexivity.
Qed.

Lemma frameTail_poolInvariant cw handPos isPinching g :
  poolInvariant g -> poolInvariant (fst (frameTail cw handPos isPinching g)).
Proof.
  intros [Hn Hc]. split.
  - rewrite frameTail_chars. exact Hn.
  - rewrite frameTail_currentWord.
    destruct (frameTail_outcome cw handPos isPinching g)
      as [Hnone _|h k c Hh Hp Hcor Hnone Hf|h aid Hh Hp Hcor Hact|aid Hact _];
      simpl; auto.
    rewrite updateTrayWord_isCorrect. simpl. intros H.
    apply andb_prop in H. destruct H as [H _].
    apply String.eqb_eq in H. rewrite <- H.
    apply trayLetters_NoDup.
    rewrite dropActive_map by reflexivity. exact Hn.
Qed.

Lemma alphabet_NoDup : NoDup alphabet.
Proof.
  assert (E : nodup ascii_dec alphabet = alphabet) by (vm_compute; reflexivity).
  rewrite <- E. apply NoDup_nodup.
Qed.

(** The pool of the simpler screen is the shuffled alphabet. *)
Lemma simple_initPool_chars rnd w h :
  map char (Simple.initPool rnd w h) = shuffleArray rnd alphabet.
Proof.
  unfold Simple.initPool.
  destruct (buildPool_fresh w h Simple.rows (shuffleArray rnd alphabet))
    as (_ & _ & E).
  rewrite E. apply firstn_all2.
  rewrite (Permutation_length (shuffleArray_perm rnd alphabet)).
  vm_compute. lia.
Qed.

Lemma simple_initPool_alphabet rnd w h :
  List.length (Simple.initPool rnd w h) = 26 /\
  Permutation (map char (Simple.initPool rnd w h)) alphabet /\
  NoDup (map char (Simple.initPool rnd w h)).
Proof.
  assert (P : Permutation (map char (Simple.initPool rnd w h)) alphabet)
    by (rewrite simple_initPool_chars; apply shuffleArray_perm).
  split; [|split]; auto.
  - rewrite <- (length_map char). now rewrite (Permutation_length P).
  - eapply Permutation_NoDup; [symmetry; exact P | apply alphabet_NoDup].
Qed.

Lemma simple_reachable_poolInvariant sqrt g :
  Simple.reachable sqrt g -> poolInvariant g.
Proof.
  induction 1 as [|g cw ch hands _ IH|g rnd w h word _ _ IH
                  |g rnd w h _ _ IH|g rnd w h seen0 _ _ IH|g _ IH|g d _ IH].
  - split; [constructor | discriminate].
  - destruct (simple_onResults_frameTail sqrt cw ch hands g)
      as (hp & pinch & E & _).
    rewrite E. now apply frameTail_poolInvariant.
  - split; [apply simple_initPool_alphabet | discriminate].
  - unfold Simple.resize. destruct (tiles g) eqn:E; auto.
    destruct IH as [_ Hc]. split; [apply simple_initPool_alphabet | exact Hc].
  - unfold Simple.scrambleTick.
    destruct seen0, (isCorrect g) eqn:Hcor; auto.
    destruct IH as [Hn Hc]. split.
    + simpl. eapply Permutation_NoDup; [|exact Hn].
      symmetry. apply scramblePool_perm. reflexivity.
    + simpl. exact Hc.
  - exact IH.
  - exact IH.
Qed.

(** C9. On the simpler screen the pool built for a round has exactly 26
    tiles whose characters are the letters of the alphabet, each once,
    whatever the target word is.  Hence in every reachable state the tray
    word has pairwise distinct characters, and when the target word contains
    a repeated letter the tray word differs from the target and the round is
    not solved. *)
Theorem simple_pool_cannot_spell_repeated_letters :
  forall sqrt rnd w h (g : Game),
    unitDraws rnd ->
    Simple.reachable sqrt g ->
    (List.length (Simple.initPool rnd w h) = 26 /\
     Permutation (map char (Simple.initPool rnd w h)) alphabet /\
     NoDup (map char (Simple.initPool rnd w h))) /\
    NoDup (map char (tiles g)) /\
    NoDup (letters (trayLetters (tiles g))) /\
    (~ NoDup (letters (currentWord g)) ->
     trayLetters (tiles g) <> currentWord g /\ isCorrect g = false).
Proof.
  intros sqrt rnd w h g _ Hr.
  destruct (simple_reachable_poolInvariant sqrt g Hr) as [Hn Hc].
  split; [apply simple_initPool_alphabet|].
  split; [exact Hn|].
  split; [now apply trayLetters_NoDup|].
  intros Hrep. split.
  - intros E. apply Hrep. rewrite <- E. now apply trayLetters_NoDup.
  - destruct (isCorrect g); auto. exfalso. auto.
Qed.

Lemma simple_pool_cannot_spell_repeated_letters_witness :
  unitDraws zeroDraws /\
  Simple.reachable Qsqrt grabbedGame /\
  currentWord grabbedGame = "CHEETAH" /\
  ~ NoDup (letters (currentWord grabbedGame)) /\
  trayLetters (tiles grabbedGame) <> currentWord grabbedGame /\
  isCorrect grabbedGame = false.
Proof.
  assert (Hrep : ~ NoDup (letters (currentWord grabbedGame))).
  { intros H.
    pose proof (proj1 (NoDup_count_occ ascii_dec _) H "E"%char) as H'.
    vm_compute in H'. lia. }
  split; [exact zeroDraws_unit|].
  split; [exact grabbedGame_reachable|].
  split; [vm_compute; reflexivity|].
  split; [exact Hrep|].
  apply (simple_pool_cannot_spell_repeated_letters
           Qsqrt zeroDraws 1280 720 grabbedGame
           zeroDraws_unit grabbedGame_reachable).
  exact Hrep.
Defined.

(** * Further properties of the code *)

(** ** The countdown *)

Lemma repeat_tick_app (a b : nat) :
  repeat tick a ++ repeat tick b = repeat tick (a + b).
Proof. symmetry. apply repeat_app. Qed.

Lemma countdown_spec (n : nat) :
  forall limit : Z,
    (1 <= limit)%Z ->
    countdown n limit =
    if (Z.of_nat n <? limit)%Z
    then ((limit - Z.of_nat n)%Z,
          repeat tick
            (Z.to_nat (Z.min limit 5 - Z.min (limit - Z.of_nat n) 5)),
          false)
    else (0%Z, repeat tick (Z.to_nat (Z.min limit 5)) ++ [failure], true).
Proof.
  induction n as [|n IH]; intros limit Hl.
  - simpl countdown.
    destruct (Z.ltb_spec (Z.of_nat 0) limit) as [_|H]; [|simpl in H; lia].
    simpl Z.of_nat. rewrite Z.sub_0_r, Z.sub_diag. reflexivity.
  - cbn [countdown]. unfold timerCallback.
    destruct (Z.leb_spec limit 1) as [H1|H1].
    + assert (limit = 1%Z) by lia. subst limit. cbn [andb Z.leb Z.ltb Z.compare].
      destruct (Z.ltb_spec (Z.of_nat (S n)) 1) as [H|_]; [lia|].
      reflexivity.
    + rewrite IH by lia.
      destruct (Z.ltb_spec (Z.of_nat n) (limit - 1)) as [Hn|Hn];
        destruct (Z.ltb_spec (Z.of_nat (S n)) limit) as [Hs|Hs]; try lia.
      * replace (limit - Z.of_nat (S n))%Z with (limit - 1 - Z.of_nat n)%Z by lia.
        do 2 f_equal.
        destruct (Z.leb_spec limit 5) as [H5|H5];
          destruct (Z.ltb_spec 0 limit) as [H0|H0]; try lia; cbn [andb app].
        -- change (tick :: repeat tick ?k) with (repeat tick (S k)).
           f_equal. lia.
        -- f_equal. lia.
      * do 2 f_equal.
        destruct (Z.leb_spec limit 5) as [H5|H5];
          destruct (Z.ltb_spec 0 limit) as [H0|H0]; try lia; cbn [andb app].
        -- change (tick :: repeat tick ?k ++ [failure])
             with (repeat tick (S k) ++ [failure]).
           do 2 f_equal. lia.
        -- do 2 f_equal. lia.
Qed.

(** X1. A countdown started at [limit >= 1] seconds shows [limit - n] after
    [n < limit] firings of the interval and is still running; from the
    [limit]-th firing on it shows 0 and the interval has cleared itself,
    having played one tick for each of the last (at most five) seconds and
    then one failure sound.  The shown time is what one timer tick of the
    session leaves as [timeLeft], and it never becomes negative. *)
Theorem countdown_reaches_zero_once :
  forall (n : nat) (limit : Z) (g : Game),
    (1 <= limit)%Z ->
    (Z.of_nat n < limit ->
     fst (fst (countdown n limit)) = limit - Z.of_nat n /\
     snd (countdown n limit) = false /\
     ~ In failure (snd (fst (countdown n limit))))%Z /\
    (limit <= Z.of_nat n ->
     countdown n limit =
     (0, repeat tick (Z.to_nat (Z.min limit 5)) ++ [failure], true))%Z /\
    timeLeft (tickTimer g) = fst (fst (timerCallback (timeLeft g))) /\
    (0 <= timeLeft g -> 0 <= timeLeft (tickTimer g))%Z.
Proof.
  intros n limit g Hl.
  pose proof (countdown_spec n limit Hl) as E.
  split; [|split; [|split]].
  - intros Hn. destruct (Z.ltb_spec (Z.of_nat n) limit); [|lia].
    rewrite E. simpl. repeat split; auto.
    intros Hin. apply repeat_spec in Hin. discriminate.
  - intros Hn. destruct (Z.ltb_spec (Z.of_nat n) limit); [lia|]. exact E.
  - unfold tickTimer, timerCallback. simpl.
    destruct (timeLeft g <=? 1)%Z; reflexivity.
  - unfold tickTimer. simpl. intros H.
    destruct (Z.leb_spec (timeLeft g) 1); lia.
Qed.

Lemma countdown_reaches_zero_once_witness :
  (1 <= time MEDIUM)%Z /\ (time MEDIUM <= Z.of_nat 30)%Z /\
  countdown 30 (time MEDIUM)
  = (0%Z, [tick; tick; tick; tick; tick; failure], true).
Proof.
  split; [vm_compute; discriminate|]. split; [vm_compute; discriminate|].
  apply (countdown_reaches_zero_once 30 (time MEDIUM) Simple.initial).
  - vm_compute; discriminate.
  - vm_compute; discriminate.
Defined.

(** ** The hand cursor *)

(** X2. Whatever the fingertip distance, the pinch strength of the cursor
    lies in [0, 1], the outer ring has a radius between 18 and 30 and the
    inner dot one between 4 and 12; the strength is 1 for a distance of 0 or
    less, 0 from twice the grab threshold on, and never grows with the
    distance. *)
Theorem cursor_rings_stay_in_range :
  forall d d' : Q,
    (0 <= pinchStrength d /\ pinchStrength d <= 1 /\
     18 <= outerR d /\ outerR d <= 30 /\
     4 <= innerR d /\ innerR d <= 12 /\
     (d <= 0 -> pinchStrength d == 1) /\
     (Rich.PINCH_GRAB_THRESHOLD * 2 <= d -> pinchStrength d == 0) /\
     (d <= d' -> pinchStrength d' <= pinchStrength d))%Q.
Proof.
  intros d d'.
  assert (Hden : (Rich.PINCH_GRAB_THRESHOLD * 2 == 13 # 100)%Q) by reflexivity.
  assert (Hf : forall e : Q,
             ((e - 0) / (Rich.PINCH_GRAB_THRESHOLD * 2) == e * (100 # 13))%Q).
  { intros e. rewrite Hden. field. }
  assert (Hlo : (0 <= pinchStrength d)%Q) by apply Q.le_max_l.
  assert (Hhi : (pinchStrength d <= 1)%Q).
  { unfold pinchStrength. apply Q.max_lub; [discriminate | apply Q.le_min_l]. }
  unfold outerR, innerR.
  repeat split; try lra.
  - intros Hd. unfold pinchStrength. rewrite Hf.
    rewrite Q.min_l by lra. apply Q.max_r. discriminate.
  - intros Hd. unfold pinchStrength. rewrite Hf. rewrite Hden in Hd.
    rewrite Q.min_r by lra. apply Q.max_l. lra.
  - intros Hd. unfold pinchStrength. rewrite !Hf.
    apply Q.max_le_compat_l, Q.min_le_compat_l. lra.
Qed.

Lemma cursor_rings_stay_in_range_witness :
  (Rich.PINCH_GRAB_THRESHOLD * 2 <= 0.2)%Q /\ (pinchStrength 0.2 == 0)%Q.
Proof.
  split; [vm_compute; discriminate|].
  apply (cursor_rings_stay_in_range 0.2 0.2). vm_compute; discriminate.
Defined.

(** ** The advisory service, continued *)

(** X3. Whatever the remote model and the JSON parser do,
    [getStrategicHint] returns a response, with one exception: a model call
    that rejects with [null] or [undefined] makes the promise reject with
    the TypeError of reading [.message].  A call that fails with any other
    value gives the hint "Tactical computer offline...", an answer that does
    not parse gives "Focus on the big clusters!", in both cases with the
    error recorded in the debug field, and a parsed answer is passed on with
    no error recorded. *)
Theorem getStrategicHint_returns_unless_rejection_is_nullish :
  forall (Json : Type) (JSON_parse : string -> GeminiService.Thrown + Json)
         (stringify pretty : list StrategicHint.TargetCandidate -> string)
         (numberText : Q -> string)
         (generateContent :
            GeminiService.Request -> GeminiService.Thrown + GeminiService.Response)
         (startTime endTime : Q)
         (timestamp head middle tail typeErrorText : string)
         (imageBase64 : string)
         (allClusters : list StrategicHint.TargetCandidate) (maxRow : Q),
  let result :=
    StrategicHint.getStrategicHint Json JSON_parse stringify pretty numberText
      generateContent startTime endTime timestamp head middle tail
      typeErrorText imageBase64 allClusters maxRow in
  let offline :=
    StrategicHint.literalHint Json
      (StrategicHint.mkHint "Tactical computer offline..."
                            "API communication issue.") in
  match generateContent
          (StrategicHint.requestFor pretty numberText head middle tail
             imageBase64 allClusters maxRow)
  with
  | inl GeminiService.nullish =>
      result = inl (GeminiService.thrown (Some typeErrorText)) /\
      forall r, result <> inr r
  | inl (GeminiService.thrown m) =>
      exists r,
        result = inr r /\
        StrategicHint.hint Json r = offline /\
        GeminiService.error Json (StrategicHint.debug Json r) =
          Some (GeminiService.orElse m "Unknown API Error")
  | inr response =>
      exists r,
        result = inr r /\
        match JSON_parse
                (GeminiService.orElse (GeminiService.text response) "{}")
        with
        | inl (GeminiService.thrown m) =>
            StrategicHint.hint Json r =
              StrategicHint.literalHint Json
                (StrategicHint.mkHint "Focus on the big clusters!"
                                      "AI advice encountered a parsing snag.") /\
            GeminiService.error Json (StrategicHint.debug Json r) =
              Some ("JSON Parse Error: " ++ GeminiService.interpolate m)%string
        | inl GeminiService.nullish =>
            StrategicHint.hint Json r = offline /\
            GeminiService.error Json (StrategicHint.debug Json r) =
              Some (GeminiService.orElse (Some typeErrorText)
                                         "Unknown API Error")
        | inr json =>
            StrategicHint.hint Json r = StrategicHint.parsedHint Json json /\
            GeminiService.error Json (StrategicHint.debug Json r) = None
        end
  end.
Proof.
  intros. unfold result, StrategicHint.getStrategicHint.
  destruct (generateContent _) as [[|m]|response]; simpl.
  - split; [reflexivity | discriminate].
  - eexists; split; [reflexivity|]. split; reflexivity.
  - destruct (JSON_parse _) as [[|m]|json]; simpl;
      eexists; (split; [reflexivity|]); split; reflexivity.
Qed.

Lemma stripPrefix_Some p : forall s r,
  GeminiService.stripPrefix p s = Some r <-> s = (p ++ r)%string.
Proof.
  induction p as [|a p IH]; intros s r; simpl.
  - split; congruence.
  - destruct s as [|b s]; [split; discriminate|].
    destruct (Ascii.eqb_spec a b) as [->|Hne].
    + rewrite IH. split; congruence.
    + split; [discriminate | congruence].
Qed.

Lemma stripPrefix_None p s :
  (forall r, s <> (p ++ r)%string) -> GeminiService.stripPrefix p s = None.
Proof.
  intros H. destruct (GeminiService.stripPrefix p s) as [r|] eqn:E; auto.
  apply stripPrefix_Some in E. now elim (H r).
Qed.

(** X4. The screenshot goes to the model without its data-URL header: an
    image that starts with the png, the jpeg or the jpg header is sent as
    what follows that header (one header only: a second one stays), and
    every image that starts with none of the three is sent exactly as it
    is.  Whenever [getSpellingFeedback] returns, the debug record keeps the
    image as it was given; after a failed model call its latency is 0 and
    its raw response is empty, otherwise the latency is the rounded elapsed
    time and the raw response is the text of the answer, or "{}" when the
    answer has no text. *)
Theorem feedback_request_and_debug_record :
  forall (Json : Type) (JSON_parse : string -> GeminiService.Thrown + Json)
         (generateContent :
            GeminiService.Request -> GeminiService.Thrown + GeminiService.Response)
         (startTime endTime : Q)
         (timestamp head middle tail typeErrorText : string)
         (image payload tray : string) (pool : list string)
         (r : GeminiService.AiResponse Json),
    let sent img :=
      GeminiService.data
        (GeminiService.requestFor head middle tail img tray pool) in
    (sent ("data:image/png;base64," ++ payload) = payload /\
     sent ("data:image/jpeg;base64," ++ payload) = payload /\
     sent ("data:image/jpg;base64," ++ payload) = payload /\
     ((forall rest, image <> "data:image/png;base64," ++ rest) ->
      (forall rest, image <> "data:image/jpeg;base64," ++ rest) ->
      (forall rest, image <> "data:image/jpg;base64," ++ rest) ->
      sent image = image))%string /\
    (GeminiService.getSpellingFeedback Json JSON_parse generateContent
       startTime endTime timestamp head middle tail typeErrorText
       image tray pool = inr r ->
     let d := GeminiService.debug Json r in
     GeminiService.screenshotBase64 Json d = Some image /\
     GeminiService.debugTimestamp Json d = timestamp /\
     match generateContent
             (GeminiService.requestFor head middle tail image tray pool)
     with
     | inl _ =>
         GeminiService.latency Json d = 0%Z /\
         GeminiService.rawResponse Json d = ""
     | inr response =>
         GeminiService.latency Json d
         = GeminiService.round (endTime - startTime) /\
         GeminiService.rawResponse Json d
         = match GeminiService.text response with
           | Some (String a rest) => String a rest
           | _ => "{}"
           end
     end).
Proof.
  intros. split.
  - unfold sent, GeminiService.requestFor, GeminiService.stripDataUrl.
    cbn [GeminiService.data].
    split; [reflexivity|]. split; [reflexivity|]. split; [reflexivity|].
    intros H1 H2 H3.
    now rewrite (stripPrefix_None _ _ H1), (stripPrefix_None _ _ H2),
      (stripPrefix_None _ _ H3).
  - unfold GeminiService.getSpellingFeedback.
    destruct (generateContent _) as [[|m]|response]; simpl.
    + discriminate.
    + intros E. injection E as <-. repeat split.
    + destruct (JSON_parse _) as [[|m]|json]; simpl;
        intros E; injection E as <-; simpl; repeat split;
        destruct (GeminiService.text response) as [[|a rest]|]; reflexivity.
Qed.

Lemma feedback_request_and_debug_record_witness :
  GeminiService.data
    (GeminiService.requestFor "" "" "" "data:image/gif;base64,R0lG" "" [])
  = "data:image/gif;base64,R0lG" /\
  exists r,
    GeminiService.getSpellingFeedback unit (fun _ => inr tt)
      (fun _ => inr (GeminiService.mkResponse None))
      0 (9 # 2) "noon" "" "" "" "TypeError"
      "data:image/gif;base64,R0lG" "" []
    = inr r /\
    GeminiService.latency unit (GeminiService.debug unit r) = 5%Z /\
    GeminiService.rawResponse unit (GeminiService.debug unit r) = "{}".
Proof.
  destruct (GeminiService.getSpellingFeedback unit (fun _ => inr tt)
              (fun _ => inr (GeminiService.mkResponse None))
              0 (9 # 2) "noon" "" "" "" "TypeError"
              "data:image/gif;base64,R0lG" "" []) as [e|r] eqn:E;
    [vm_compute in E; discriminate|].
  destruct (feedback_request_and_debug_record unit (fun _ => inr tt)
              (fun _ => inr (GeminiService.mkResponse None))
              0 (9 # 2) "noon" "" "" "" "TypeError"
              "data:image/gif;base64,R0lG" "" "" [] r)
    as [(_ & _ & _ & Hg) Hd].
  split; [apply Hg; intros rest H; discriminate H|].
  exists r. split; [reflexivity|].
  destruct (Hd E) as (_ & _ & Hl & Hr).
  split; [exact Hl | exact Hr].
Defined.

(** ** What a frame leaves alone *)

Lemma frameTail_identity cw handPos isPinching g :
  map identityOf (tiles (fst (frameTail cw handPos isPinching g)))
  = map identityOf (tiles g).
Proof.
  destruct (frameTail_outcome cw handPos isPinching g)
    as [Hnone _|h k c Hh Hp Hc Hnone Hf|h aid Hh Hp Hc Hact|aid Hact _];
    simpl; rewrite settle_map by reflexivity; auto.
  - apply map_updateAt. reflexivity.
  - destruct (find _ (tiles g)) as [[k t]|]; auto.
    apply map_updateAt. reflexivity.
  - apply dropActive_map; reflexivity.
Qed.

Lemma frameTail_round cw handPos isPinching g :
  let g' := fst (frameTail cw handPos isPinching g) in
  currentWord g' = currentWord g /\ difficulty g' = difficulty g /\
  timeLeft g' = timeLeft g /\ wordsCompleted g' = wordsCompleted g.
Proof.
  destruct (frameTail_outcome cw handPos isPinching g); simpl; auto.
  unfold updateTrayWord. destruct (_ && _); simpl; auto.
Qed.

(** X5. No frame of either screen adds, removes or reorders tiles, and none
    changes the id, the character or the colour of a tile, the target word,
    the difficulty, the seconds left or the count of rounds. *)
Theorem frame_keeps_pool_identity :
  forall sqrt cw ch hands (s : Rich.State),
    let g := Rich.game s in
    let g1 := Rich.game (fst (Rich.onResults sqrt cw ch hands s)) in
    let g2 := fst (Simple.onResults sqrt cw ch hands g) in
    (map identityOf (tiles g1) = map identityOf (tiles g) /\
     List.length (tiles g1) = List.length (tiles g) /\
     currentWord g1 = currentWord g /\ difficulty g1 = difficulty g /\
     timeLeft g1 = timeLeft g /\ wordsCompleted g1 = wordsCompleted g) /\
    (map identityOf (tiles g2) = map identityOf (tiles g) /\
     List.length (tiles g2) = List.length (tiles g) /\
     currentWord g2 = currentWord g /\ difficulty g2 = difficulty g /\
     timeLeft g2 = timeLeft g /\ wordsCompleted g2 = wordsCompleted g).
Proof.
  intros sqrt cw ch hands s g g1 g2.
  assert (H : forall hp pinch,
             let g' := fst (frameTail cw hp pinch g) in
             map identityOf (tiles g') = map identityOf (tiles g) /\
             List.length (tiles g') = List.length (tiles g) /\
             currentWord g' = currentWord g /\ difficulty g' = difficulty g /\
             timeLeft g' = timeLeft g /\ wordsCompleted g' = wordsCompleted g).
  { intros hp pinch g'.
    pose proof (frameTail_identity cw hp pinch g) as E.
    split; [exact E|]. split; [|apply frameTail_round].
    apply (f_equal (@List.length _)) in E. now rewrite !length_map in E. }
  split.
  - destruct (rich_onResults_frameTail sqrt cw ch hands s)
      as (hp & pinch & E & _).
    unfold g1. rewrite E. apply H.
  - destruct (simple_onResults_frameTail sqrt cw ch hands g)
      as (hp & pinch & E & _).
    unfold g2. rewrite E. apply H.
Qed.

(** ** The tray word and the solved flag *)

Lemma insertBy_map {A B : Type} (f : A -> B) (key : B -> nat) (a : A)
  (l : list A) :
  map f (insertBy (fun u => key (f u)) a l) = insertBy key (f a) (map f l).
Proof.
  induction l as [|b l IH]; simpl; auto.
  destruct (key (f b) <? key (f a)); simpl; [rewrite IH|]; reflexivity.
Qed.

Lemma sortBy_map {A B : Type} (f : A -> B) (key : B -> nat) (l : list A) :
  map f (sortBy (fun u => key (f u)) l) = sortBy key (map f l).
Proof.
  induction l as [|a l IH]; simpl; auto.
  now rewrite insertBy_map, IH.
Qed.

(** The tray word is read from the tray view of the tiles alone. *)
Lemma trayLetters_view ts ts' :
  map trayView ts = map trayView ts' -> trayLetters ts = trayLetters ts'.
Proof.
  intros E. unfold trayLetters. f_equal.
  assert (V : forall l,
             map char (sortBy trayKey (filter inTray l))
             = map snd (sortBy (fun v : bool * nat * ascii => snd (fst v))
                          (filter (fun v => fst (fst v)) (map trayView l)))).
  { intros l. rewrite filter_map_swap.
    rewrite <- (sortBy_map trayView (fun v => snd (fst v))).
    rewrite map_map. reflexivity. }
  now rewrite !V, E.
Qed.

Lemma updateTrayWord_session g :
  let g' := fst (updateTrayWord g) in
  trayWord g' = trayLetters (tiles g) /\
  (isCorrect g' = true ->
   trayLetters (tiles g) = currentWord g /\ currentWord g <> "").
Proof.
  unfold updateTrayWord.
  destruct (_ && _) eqn:E; simpl; split; auto; try discriminate.
  intros _. apply andb_prop in E. destruct E as [E1 E2].
  apply String.eqb_eq in E1. apply nonempty_length in E2.
  split; congruence.
Qed.

Lemma frameTail_sessionInvariant cw handPos isPinching g :
  sessionInvariant g ->
  sessionInvariant (fst (frameTail cw handPos isPinching g)).
Proof.
  intros [Hw Hs].
  destruct (frameTail_outcome cw handPos isPinching g)
    as [Hnone _|h k c Hh Hp Hc Hnone Hf|h aid Hh Hp Hc Hact|aid Hact _];
    unfold sessionInvariant; simpl.
  - rewrite (trayLetters_view (settle (tiles g)) (tiles g))
      by (apply settle_map; reflexivity). auto.
  - rewrite (trayLetters_view (settle _) (tiles g))
      by (rewrite settle_map, map_updateAt; reflexivity).
    split; [exact Hw|]. intros H. congruence.
  - rewrite (trayLetters_view (settle _) (tiles g)).
    + split; [exact Hw|]. intros H. congruence.
    + rewrite settle_map by reflexivity.
      destruct (find _ (tiles g)) as [[k t]|]; auto.
      apply map_updateAt. reflexivity.
  - set (ts' := fst (dropActive cw aid (tiles g))).
    pose proof (updateTrayWord_session (withActive None (withTiles ts' g)))
      as [E1 E2]. simpl in E1, E2.
    rewrite (trayLetters_view (settle ts') ts')
      by (apply settle_map; reflexivity).
    split; [exact E1|]. intros H. split.
    + rewrite updateTrayWord_active. reflexivity.
    + replace (currentWord (fst (updateTrayWord (withActive None (withTiles ts' g)))))
        with (currentWord g).
      * now apply E2.
      * unfold updateTrayWord. destruct (_ && _); reflexivity.
Qed.

Lemma fresh_pool_trayLetters ts :
  (forall t, In t ts -> isDragging t = false /\ inTray t = false) ->
  trayLetters ts = "".
Proof.
  intros H. unfold trayLetters.
  replace (filter inTray ts) with (@nil LetterTile); [reflexivity|].
  symmetry. induction ts as [|t ts IH]; simpl; auto.
  destruct (H t (or_introl eq_refl)) as [_ E]. rewrite E.
  apply IH. intros u Hu. apply H. now right.
Qed.

Lemma filter_none {A : Type} (f : A -> bool) (l : list A) :
  (forall a, In a l -> f a = false) -> filter f l = [].
Proof.
  induction l as [|a l IH]; simpl; intros H; auto.
  rewrite (H a (or_introl eq_refl)). apply IH. intros b Hb. apply H. now right.
Qed.

Lemma filter_idem {A : Type} (f : A -> bool) (l : list A) :
  filter f (filter f l) = filter f l.
Proof.
  induction l as [|a l IH]; simpl; auto.
  destruct (f a) eqn:E; simpl; rewrite ?E, IH; reflexivity.
Qed.

(** The scramble leaves the tiles of the tray where they are in the pool
    order, after the others. *)
Lemma scramblePool_tray rnd w h ts :
  filter inTray (Simple.scramblePool rnd w h ts) = filter inTray ts.
Proof.
  unfold Simple.scramblePool. rewrite filter_app, filter_idem.
  rewrite filter_none; [reflexivity|].
  intros t Ht. apply (in_map inTray) in Ht.
  rewrite retargetRows_map in Ht by reflexivity.
  apply in_map_iff in Ht. destruct Ht as (u & E & Hu).
  apply (Permutation_in _ (shuffleArray_perm rnd _)) in Hu.
  apply filter_In in Hu. destruct Hu as [_ Hu].
  apply negb_true_iff in Hu. congruence.
Qed.

Lemma simple_reachable_sessionInvariant sqrt g :
  Simple.reachable sqrt g -> sessionInvariant g.
Proof.
  induction 1 as [|g cw ch hands _ IH|g rnd w h word _ _ IH
                  |g rnd w h _ _ IH|g rnd w h seen0 _ _ IH|g _ IH|g d _ IH].
  - split; [reflexivity | discriminate].
  - destruct (simple_onResults_frameTail sqrt cw ch hands g)
      as (hp & pinch & E & _).
    rewrite E. now apply frameTail_sessionInvariant.
  - split; [|discriminate]. simpl. symmetry. apply fresh_pool_trayLetters.
    unfold Simple.initPool. apply buildPool_fresh.
  - unfold Simple.resize. destruct (tiles g) eqn:E; auto.
    destruct IH as [Hw Hs]. rewrite E in Hw, Hs.
    assert (F : trayLetters (Simple.initPool rnd w h) = "")
      by (apply fresh_pool_trayLetters; unfold Simple.initPool;
          apply buildPool_fresh).
    split; simpl; rewrite F; auto.
  - unfold Simple.scrambleTick.
    destruct seen0, (isCorrect g) eqn:Hcor; auto.
    destruct IH as [Hw Hs]. unfold sessionInvariant, trayLetters. simpl.
    rewrite scramblePool_tray. split; [exact Hw|]. congruence.
  - exact IH.
  - exact IH.
Qed.

Lemma rich_reachable_sessionInvariant sqrt s :
  Rich.reachable sqrt s -> sessionInvariant (Rich.game s).
Proof.
  induction 1 as [|s cw ch hands _ IH|s rnd w h word _ _ IH
                  |s rnd w h _ _ IH|s _ IH|s d _ IH]; simpl.
  - split; [reflexivity | discriminate].
  - destruct (rich_onResults_frameTail sqrt cw ch hands s)
      as (hp & pinch & E & _).
    rewrite E. now apply frameTail_sessionInvariant.
  - split; [|discriminate]. simpl. symmetry. apply fresh_pool_trayLetters.
    unfold Rich.initPool. apply buildPool_fresh.
  - unfold Rich.resize. destruct (tiles (Rich.game s)) eqn:E; auto.
    destruct IH as [Hw Hs]. rewrite E in Hw, Hs.
    assert (F : trayLetters (Rich.initPool rnd w h (currentWord (Rich.game s))) = "")
      by (apply fresh_pool_trayLetters; unfold Rich.initPool;
          apply buildPool_fresh).
    split; simpl; rewrite F; auto.
  - exact IH.
  - exact IH.
Qed.

Lemma carriedGame_reachable : Simple.reachable Qsqrt carriedGame.
Proof.
  unfold carriedGame. do 2 apply Simple.reach_frame.
  apply Simple.reach_nextWord; [apply zeroDraws_unit | apply Simple.reach_initial].
Qed.

Lemma solvedGame_reachable : Simple.reachable Qsqrt solvedGame.
Proof. unfold solvedGame. apply Simple.reach_frame, carriedGame_reachable. Qed.

(** X6. In every state either screen can reach, the displayed tray word is
    the word the tiles spell (the characters of the in-tray tiles in slot
    order), and a round that is marked solved has no active tile and a tray
    that spells the target, which is not empty. *)
Theorem tray_word_never_drifts :
  forall sqrt (g : Game),
    Simple.reachable sqrt g \/
    (exists s, Rich.reachable sqrt s /\ Rich.game s = g) ->
    trayWord g = trayLetters (tiles g) /\
    (isCorrect g = true ->
     activeTileId g = None /\ trayWord g = currentWord g /\
     currentWord g <> "").
Proof.
  intros sqrt g H.
  assert (I : sessionInvariant g).
  { destruct H as [H|(s & H & <-)].
    - eapply simple_reachable_sessionInvariant; eauto.
    - eapply rich_reachable_sessionInvariant; eauto. }
  destruct I as [Hw Hs]. split; [exact Hw|].
  intros Hc. destruct (Hs Hc) as (H1 & H2 & H3). rewrite Hw. auto.
Qed.

Lemma tray_word_never_drifts_witness :
  Simple.reachable Qsqrt solvedGame /\
  isCorrect solvedGame = true /\
  trayWord solvedGame = trayLetters (tiles solvedGame) /\
  (isCorrect solvedGame = true ->
   activeTileId solvedGame = None /\
   trayWord solvedGame = currentWord solvedGame /\
   currentWord solvedGame <> "").
Proof.
  split; [exact solvedGame_reachable|].
  split; [vm_compute; reflexivity|].
  apply (tray_word_never_drifts Qsqrt solvedGame).
  left. exact solvedGame_reachable.
Defined.

(** X7. Once a round is solved nothing is scored twice: in a reachable
    state with [isCorrect] set, a frame of either screen, whatever the hand
    does, plays no sound and changes nothing but the positions of the tiles,
    which settle; score, solved flag and tray word stay. *)
Theorem solved_round_is_frozen :
  forall sqrt (g g' : Game) snds,
    Simple.reachable sqrt g \/
    (exists s, Rich.reachable sqrt s /\ Rich.game s = g) ->
    isCorrect g = true ->
    frame sqrt g g' snds ->
    g' = withTiles (settle (tiles g)) g /\ snds = [] /\
    score g' = score g /\ isCorrect g' = true.
Proof.
  intros sqrt g g' snds H Hc Hf.
  assert (I : sessionInvariant g).
  { destruct H as [H|(s & H & <-)].
    - eapply simple_reachable_sessionInvariant; eauto.
    - eapply rich_reachable_sessionInvariant; eauto. }
  destruct I as [_ Hs]. destruct (Hs Hc) as (Hn & _).
  destruct (frame_is_frameTail _ _ _ _ Hf) as (cw & hp & pinch & -> & ->).
  destruct (frameTail_outcome cw hp pinch g)
    as [Hnone _|h k c Hh Hp Hcor Hnone Hfind|h aid Hh Hp Hcor Hact|aid Hact _];
    try congruence.
  simpl. auto.
Qed.

Lemma solved_round_is_frozen_witness :
  let out := Simple.onResults Qsqrt 1280 720 [pinchOnFirstTile] solvedGame in
  isCorrect solvedGame = true /\
  fst out = withTiles (settle (tiles solvedGame)) solvedGame /\ snd out = [] /\
  score (fst out) = score solvedGame /\ isCorrect (fst out) = true.
Proof.
  split; [vm_compute; reflexivity|].
  apply (solved_round_is_frozen Qsqrt solvedGame).
  - left. exact solvedGame_reachable.
  - vm_compute; reflexivity.
  - apply frame_simple.
Defined.

(** ** Grabbing, holding and letting go, frame by frame *)

Lemma rich_lost_frame_idles sqrt cw ch (s : Rich.State) :
  let lost := fst (Rich.onResults sqrt cw ch [] s) in
  activeTileId (Rich.game lost) = None /\
  Rich.pinchConfirmed lost = false /\ Rich.pinchFrames lost = 0.
Proof.
  cbv zeta. rewrite rich_lost_frame. simpl.
  split; [|split; reflexivity].
  destruct (frameTail_outcome cw None false (Rich.game s))
    as [Hnone _|h k c Hh|h aid Hh|aid Hact _]; try discriminate.
  - exact Hnone.
  - simpl. apply updateTrayWord_active.
Qed.

(** X8. The grab is debounced on the richer screen: with no tile active, no
    confirmed pinch and no pinch frame counted, one frame never grabs,
    whatever the hand does; it plays no sound and only lets the tiles
    settle.  A frame without a hand leaves every state, whatever it was,
    in such a state; so the first frame of a hand that comes back never
    grabs. *)
Theorem first_pinch_frame_never_grabs :
  forall sqrt cw ch hands (s s0 : Rich.State),
    activeTileId (Rich.game s) = None ->
    Rich.pinchConfirmed s = false ->
    Rich.pinchFrames s = 0 ->
    let out := Rich.onResults sqrt cw ch hands s in
    let lost := fst (Rich.onResults sqrt cw ch [] s0) in
    let back := Rich.onResults sqrt cw ch hands lost in
    (Rich.game (fst out)
     = withTiles (settle (tiles (Rich.game s))) (Rich.game s) /\
     snd out = [] /\
     Rich.pinchConfirmed (fst out) = false /\
     Rich.pinchFrames (fst out) <= 1) /\
    (activeTileId (Rich.game lost) = None /\
     Rich.pinchConfirmed lost = false /\ Rich.pinchFrames lost = 0) /\
    (Rich.game (fst back)
     = withTiles (settle (tiles (Rich.game lost))) (Rich.game lost) /\
     snd back = []).
Proof.
  intros sqrt cw ch hands s s0 Ha Hc Hf out lost back.
  assert (G : forall s1 : Rich.State,
             activeTileId (Rich.game s1) = None ->
             Rich.pinchConfirmed s1 = false ->
             Rich.pinchFrames s1 = 0 ->
             let o := Rich.onResults sqrt cw ch hands s1 in
             Rich.game (fst o)
             = withTiles (settle (tiles (Rich.game s1))) (Rich.game s1) /\
             snd o = [] /\
             Rich.pinchConfirmed (fst o) = false /\
             Rich.pinchFrames (fst o) <= 1).
  { intros s1 Ha1 Hc1 Hf1 o. unfold o. destruct hands as [|h hs].
    - rewrite rich_lost_frame. simpl.
      destruct (frameTail_outcome cw None false (Rich.game s1))
        as [Hnone _|h k c Hh|h aid Hh|aid Hact _]; try congruence.
      simpl. auto.
    - rewrite rich_tracked_frame. rewrite Ha1, Hc1, Hf1. simpl.
      destruct (Qltb _ _); simpl;
        (destruct (frameTail_outcome cw
                     (Some (Rich.smooth (Rich.smoothHandPos s1)
                              (Rich.rawSample cw ch h)))
                     false (Rich.game s1))
          as [Hnone _|h' k c Hh Hp|h' aid Hh Hp|aid Hact _]; try congruence);
        simpl; auto. }
  destruct (rich_lost_frame_idles sqrt cw ch s0) as (L1 & L2 & L3).
  split; [exact (G s Ha Hc Hf)|].
  split; [exact (conj L1 (conj L2 L3))|].
  destruct (G lost L1 L2 L3) as (B1 & B2 & _).
  split; [exact B1 | exact B2].
Qed.

Lemma first_pinch_frame_never_grabs_witness :
  let s := restingState 0 false in
  let h := pinchAt 1000 1000 0 220 in
  let out := Rich.onResults Qsqrt 1000 1000 [h] s in
  let lost := fst (Rich.onResults Qsqrt 1000 1000 [] dogsState) in
  Qltb (Rich.pinchDistanceOf Qsqrt h) Rich.PINCH_GRAB_THRESHOLD = true /\
  hitTest (Rich.smooth (Rich.smoothHandPos s) (Rich.rawSample 1000 1000 h))
          (trayTile "D" 0) = true /\
  Rich.game (fst out)
  = withTiles (settle (tiles (Rich.game s))) (Rich.game s) /\
  snd out = [] /\
  activeTileId (Rich.game dogsState) = Some (tileId "G" 2) /\
  Rich.pinchConfirmed dogsState = true /\
  activeTileId (Rich.game lost) = None /\
  Rich.pinchConfirmed lost = false /\
  snd (Rich.onResults Qsqrt 1000 1000 [h] lost) = [].
Proof.
  split; [vm_compute; reflexivity|].
  split; [vm_compute; reflexivity|].
  destruct (first_pinch_frame_never_grabs Qsqrt 1000 1000
              [pinchAt 1000 1000 0 220] (restingState 0 false) dogsState
              eq_refl eq_refl eq_refl)
    as [(H1 & H2 & _) [(L1 & L2 & _) (_ & B2)]].
  split; [exact H1|]. split; [exact H2|].
  split; [reflexivity|]. split; [reflexivity|].
  split; [exact L1|]. split; [exact L2 | exact B2].
Defined.

(** The frame of the richer screen that grabs, as one equation. *)
Lemma rich_grab_frame sqrt cw ch h hs (s : Rich.State) k clicked :
  let sm := Rich.smooth (Rich.smoothHandPos s) (Rich.rawSample cw ch h) in
  activeTileId (Rich.game s) = None ->
  isCorrect (Rich.game s) = false ->
  (Rich.pinchDistanceOf sqrt h < Rich.PINCH_GRAB_THRESHOLD)%Q ->
  Rich.pinchConfirmed s = true \/ 1 <= Rich.pinchFrames s ->
  find (hitTest sm) (tiles (Rich.game s)) = Some (k, clicked) ->
  Rich.onResults sqrt cw ch (h :: hs) s =
  (Rich.mkState
     (withActive (Some (id clicked))
        (withTiles (settle (updateAt k (setDragging true) (tiles (Rich.game s))))
                   (Rich.game s)))
     sm (Nat.min (Rich.pinchFrames s + 1) 3) true,
   [click]).
Proof.
  intros sm Ha Hc Hd Hconf Hfind.
  rewrite rich_tracked_frame. rewrite Ha. simpl Rich.isSome.
  simpl Rich.threshold. apply Qltb_lt in Hd. rewrite Hd.
  assert (Epc : Rich.pinchConfirmed s
                || (2 <=? Nat.min (Rich.pinchFrames s + 1) 3) = true).
  { destruct Hconf as [->|Hn]; [reflexivity|].
    apply orb_true_iff. right. apply Nat.leb_le. lia. }
  rewrite Epc. cbn [andb orb]. fold sm.
  destruct (frameTail_outcome cw (Some sm) true (Rich.game s))
    as [Hnone Hno|h' k' c' Hh Hp Hcor Hnone Hf|h' aid Hh Hp Hcor Hact
        |aid Hact _]; try congruence.
  - specialize (Hno sm eq_refl). rewrite Hc in Hno.
    specialize (Hno eq_refl). congruence.
  - injection Hh as <-. rewrite Hfind in Hf. injection Hf as <- <-.
    reflexivity.
Qed.

(** X9. On the richer screen a pinch that is confirmed (an earlier pinch
    frame was counted, or the confirmation is still standing) grabs, when no
    tile is active and the round is not solved, the first tile in pool order
    whose square contains the smoothed cursor: that tile becomes the active
    one and is marked dragged without moving on this frame, a click is
    played, every other tile takes one easing step, and the score stays. *)
Theorem confirmed_pinch_grabs_first_tile_under_cursor :
  forall sqrt cw ch h hs (s : Rich.State) k clicked,
    let sm := Rich.smooth (Rich.smoothHandPos s) (Rich.rawSample cw ch h) in
    let out := Rich.onResults sqrt cw ch (h :: hs) s in
    activeTileId (Rich.game s) = None ->
    isCorrect (Rich.game s) = false ->
    (Rich.pinchDistanceOf sqrt h < Rich.PINCH_GRAB_THRESHOLD)%Q ->
    Rich.pinchConfirmed s = true \/ 1 <= Rich.pinchFrames s ->
    find (hitTest sm) (tiles (Rich.game s)) = Some (k, clicked) ->
    activeTileId (Rich.game (fst out)) = Some (id clicked) /\
    snd out = [click] /\
    nth_error (tiles (Rich.game (fst out))) k
    = Some (setDragging true clicked) /\
    (forall j t, j < k -> nth_error (tiles (Rich.game s)) j = Some t ->
                 hitTest sm t = false) /\
    (forall j t, j <> k -> nth_error (tiles (Rich.game s)) j = Some t ->
                 nth_error (tiles (Rich.game (fst out))) j = Some (ease t)) /\
    score (Rich.game (fst out)) = score (Rich.game s) /\
    Rich.pinchConfirmed (fst out) = true.
Proof.
  intros sqrt cw ch h hs s k clicked sm out Ha Hc Hd Hconf Hfind.
  unfold out.
  rewrite (rich_grab_frame sqrt cw ch h hs s k clicked Ha Hc Hd Hconf Hfind).
  destruct (find_Some _ _ _ _ Hfind) as (Hk & Hhit & Hmin).
  cbn [fst snd Rich.game Rich.pinchConfirmed].
  split; [reflexivity|]. split; [reflexivity|].
  split.
  { simpl. rewrite nth_error_settle, nth_error_updateAt, Nat.eqb_refl, Hk.
    reflexivity. }
  split; [exact Hmin|].
  split; [|split; reflexivity].
  intros j t Hj Ht. simpl.
  rewrite nth_error_settle, nth_error_updateAt.
  destruct (k =? j) eqn:E; [apply Nat.eqb_eq in E; congruence|].
  now rewrite Ht.
Qed.

Lemma confirmed_pinch_grabs_first_tile_under_cursor_witness :
  let s := restingState 1 false in
  let h := pinchAt 1000 1000 0 220 in
  let out := Rich.onResults Qsqrt 1000 1000 [h] s in
  activeTileId (Rich.game (fst out)) = Some (tileId "D" 0) /\
  snd out = [click] /\
  nth_error (tiles (Rich.game (fst out))) 0
  = Some (setDragging true (trayTile "D" 0)).
Proof.
  destruct (confirmed_pinch_grabs_first_tile_under_cursor Qsqrt 1000 1000
              (pinchAt 1000 1000 0 220) [] (restingState 1 false)
              0 (trayTile "D" 0))
    as (H1 & H2 & H3 & _).
  - reflexivity.
  - reflexivity.
  - vm_compute; reflexivity.
  - right. vm_compute. apply le_n.
  - vm_compute; reflexivity.
  - split; [exact H1|]. split; [exact H2 | exact H3].
Defined.

(** X10. While a tile is held on the richer screen and the round is not
    solved, a frame whose fingertip distance is below the RELEASE threshold
    (it may be above the GRAB threshold) keeps the tile active, plays no
    sound and puts the held tile exactly at the smoothed cursor, leaving its
    targets and flags alone; every other tile takes one easing step. *)
Theorem held_tile_follows_smoothed_cursor :
  forall sqrt cw ch h hs (s : Rich.State) aid k tile,
    let sm := Rich.smooth (Rich.smoothHandPos s) (Rich.rawSample cw ch h) in
    let out := Rich.onResults sqrt cw ch (h :: hs) s in
    activeTileId (Rich.game s) = Some aid ->
    isCorrect (Rich.game s) = false ->
    (Rich.pinchDistanceOf sqrt h < Rich.PINCH_RELEASE_THRESHOLD)%Q ->
    find (fun t => (id t =? aid)%string) (tiles (Rich.game s))
    = Some (k, tile) ->
    isDragging tile = true ->
    activeTileId (Rich.game (fst out)) = Some aid /\
    snd out = [] /\
    nth_error (tiles (Rich.game (fst out))) k
    = Some (setPos (Point.x sm) (Point.y sm) tile) /\
    (forall j t, j <> k -> nth_error (tiles (Rich.game s)) j = Some t ->
                 nth_error (tiles (Rich.game (fst out))) j = Some (ease t)) /\
    score (Rich.game (fst out)) = score (Rich.game s) /\
    trayWord (Rich.game (fst out)) = trayWord (Rich.game s).
Proof.
  intros sqrt cw ch h hs s aid k tile sm out Ha Hc Hd Hfind Hdrag.
  unfold out. rewrite rich_tracked_frame. rewrite Ha. simpl Rich.isSome.
  simpl Rich.threshold. apply Qltb_lt in Hd. rewrite Hd.
  rewrite orb_true_r. cbn [andb fst snd Rich.game]. fold sm.
  destruct (find_Some _ _ _ _ Hfind) as (Hk & _ & _).
  destruct (frameTail_outcome cw (Some sm) true (Rich.game s))
    as [Hnone Hno|h' k' c' Hh Hp Hcor Hnone Hf|h' aid' Hh Hp Hcor Hact
        |aid' Hact [Hl|[Hl|Hl]]]; try congruence.
  injection Hh as <-. rewrite Ha in Hact. injection Hact as <-.
  rewrite Hfind. simpl. repeat split; auto.
  - rewrite nth_error_settle, nth_error_updateAt, Nat.eqb_refl, Hk.
    simpl. unfold ease. simpl. now rewrite Hdrag.
  - intros j t Hj Ht.
    rewrite nth_error_settle, nth_error_updateAt.
    destruct (k =? j) eqn:E; [apply Nat.eqb_eq in E; congruence|].
    now rewrite Ht.
Qed.

Lemma held_tile_follows_smoothed_cursor_witness :
  let out := Rich.onResults Qsqrt 1000 1000 [looseHand] dogState in
  Qltb (Rich.pinchDistanceOf Qsqrt looseHand) Rich.PINCH_GRAB_THRESHOLD = false /\
  activeTileId (Rich.game (fst out)) = Some (tileId "G" 2) /\
  snd out = [] /\
  exists t, nth_error (tiles (Rich.game (fst out))) 2 = Some t /\
            (x t == 400)%Q /\ (y t == 220)%Q.
Proof.
  split; [vm_compute; reflexivity|].
  destruct (held_tile_follows_smoothed_cursor Qsqrt 1000 1000 looseHand []
              dogState (tileId "G" 2) 2 (heldTile "G" 2 TRAY_Y))
    as (H1 & H2 & H3 & _).
  - reflexivity.
  - reflexivity.
  - vm_compute; reflexivity.
  - vm_compute; reflexivity.
  - reflexivity.
  - split; [exact H1|]. split; [exact H2|].
    eexists. split; [exact H3|]. split; vm_compute; reflexivity.
Defined.

(** X11. A new round keeps the active id, which may name no tile of the new
    pool.  A frame of either screen that meets such an id moves and marks no
    tile (the tiles only settle) and plays no click; it either keeps the id
    while the pinch holds, or clears it and re-evaluates the tray. *)
Theorem stale_active_id_is_harmless :
  forall sqrt (g g' : Game) snds aid,
    frame sqrt g g' snds ->
    activeTileId g = Some aid ->
    find (fun t => (id t =? aid)%string) (tiles g) = None ->
    tiles g' = settle (tiles g) /\
    ~ In click snds /\
    (activeTileId g' = Some aid /\ snds = [] \/
     activeTileId g' = None /\ trayWord g' = trayLetters (tiles g)).
Proof.
  intros sqrt g g' snds aid Hf Ha Hfind.
  destruct (frame_is_frameTail _ _ _ _ Hf) as (cw & hp & pinch & -> & ->).
  destruct (frameTail_outcome cw hp pinch g)
    as [Hnone _|h k c Hh Hp Hcor Hnone Hfd|h aid' Hh Hp Hcor Hact
        |aid' Hact _]; try congruence;
    rewrite Ha in Hact; injection Hact as <-.
  - rewrite Hfind. simpl. split; [reflexivity|]. split; [tauto|]. left. auto.
  - unfold dropActive. rewrite Hfind. simpl.
    split; [reflexivity|]. split.
    + unfold updateTrayWord. simpl.
      destruct (_ && _); simpl; intuition discriminate.
    + right. split.
      * rewrite updateTrayWord_active. reflexivity.
      * apply (updateTrayWord_session (withActive None (withTiles (tiles g) g))).
Qed.

Lemma halfDraws_unit : unitDraws halfDraws.
Proof. intros k. unfold halfDraws. split; [discriminate | reflexivity]. Qed.

Lemma staleGame_reachable : Simple.reachable Qsqrt staleGame.
Proof.
  unfold staleGame. apply Simple.reach_nextWord;
    [apply halfDraws_unit | apply grabbedGame_reachable].
Qed.

Lemma stale_active_id_is_harmless_witness :
  let out := Simple.onResults Qsqrt 1280 720 [] staleGame in
  Simple.reachable Qsqrt staleGame /\
  activeTileId staleGame = Some (tileId "B" 0) /\
  tiles (fst out) = settle (tiles staleGame) /\
  ~ In click (snd out) /\
  (activeTileId (fst out) = Some (tileId "B" 0) /\ snd out = [] \/
   activeTileId (fst out) = None /\
   trayWord (fst out) = trayLetters (tiles staleGame)).
Proof.
  split; [exact staleGame_reachable|].
  split; [vm_compute; reflexivity|].
  apply (stale_active_id_is_harmless Qsqrt staleGame).
  - apply frame_simple.
  - vm_compute; reflexivity.
  - vm_compute; reflexivity.
Defined.

(** ** The smoothed cursor over many frames *)

Lemma Qpower_succ (a : Q) (n : nat) :
  (a ^ Z.of_nat (S n) == a * a ^ Z.of_nat n)%Q.
Proof.
  rewrite Nat2Z.inj_succ. unfold Z.succ.
  rewrite Qpower_plus'; [|lia].
  rewrite Qmult_comm. reflexivity.
Qed.

(** X12. Fed the same hand sample frame after frame, the smoothed cursor of
    the richer screen closes in on the raw sample geometrically: after [n]
    frames the remaining offset is 0.55^n times the initial one, in x and
    in y.  Frames without a hand leave the cursor where it is. *)
Theorem smoothed_cursor_closes_in_geometrically :
  forall sqrt cw ch h hs n (s : Rich.State),
    let raw := Rich.rawSample cw ch h in
    let tracked := runFrames sqrt cw ch (repeat (h :: hs) n) s in
    let lost := runFrames sqrt cw ch (repeat [] n) s in
    (Point.x raw - Point.x (Rich.smoothHandPos tracked)
     == (11 # 20) ^ Z.of_nat n * (Point.x raw - Point.x (Rich.smoothHandPos s)))%Q /\
    (Point.y raw - Point.y (Rich.smoothHandPos tracked)
     == (11 # 20) ^ Z.of_nat n * (Point.y raw - Point.y (Rich.smoothHandPos s)))%Q /\
    Rich.smoothHandPos lost = Rich.smoothHandPos s.
Proof.
  intros sqrt cw ch h hs n. induction n as [|n IH]; intros s; cbv zeta.
  - simpl. repeat split; ring.
  - destruct (IH (fst (Rich.onResults sqrt cw ch (h :: hs) s)))
      as (Hx & Hy & _).
    destruct (IH (fst (Rich.onResults sqrt cw ch [] s))) as (_ & _ & Hl).
    cbv zeta in Hx, Hy, Hl.
    rewrite tracked_frame_blends in Hx, Hy.
    rewrite lost_frame_keeps_cursor in Hl.
    split; [|split]; [| |exact Hl];
      cbn [repeat runFrames]; rewrite Qpower_succ;
      [rewrite Hx | rewrite Hy]; unfold Rich.smooth, Rich.HAND_SMOOTH;
      simpl Point.x; simpl Point.y; ring.
Qed.

(** X13. With normalised landmarks (coordinates between 0 and 1) the raw
    sample, the midpoint of the two mirrored fingertips, lies on the canvas,
    and a smoothed cursor that is on the canvas stays on it after the frame,
    with or without a hand. *)
Theorem cursor_stays_on_canvas :
  forall sqrt cw ch hands (s : Rich.State),
    (0 <= cw)%Q -> (0 <= ch)%Q ->
    (forall h, In h hands -> normalised (idxTip h) /\ normalised (thumbTip h)) ->
    onCanvas cw ch (Rich.smoothHandPos s) ->
    (forall h, In h hands -> onCanvas cw ch (Rich.rawSample cw ch h)) /\
    onCanvas cw ch (Rich.smoothHandPos (fst (Rich.onResults sqrt cw ch hands s))).
Proof.
  intros sqrt cw ch hands s Hw Hh Hn Hs.
  assert (Hraw : forall h, In h hands -> onCanvas cw ch (Rich.rawSample cw ch h)).
  { intros h Hin. destruct (Hn h Hin) as [[[A1 A2] [A3 A4]] [[B1 B2] [B3 B4]]].
    unfold onCanvas, Rich.rawSample. simpl Point.x. simpl Point.y.
    assert (M : forall a c, (0 <= a <= 1)%Q -> (0 <= c)%Q ->
                            (0 <= a * c)%Q /\ (a * c <= c)%Q).
    { intros a c [Ha1 Ha2] Hc. split.
      - now apply Qmult_le_0_compat.
      - rewrite <- (Qmult_1_l c) at 2. apply Qmult_le_compat_r; auto. }
    destruct (M (1 - lx (idxTip h))%Q cw) as [P1 P2]; [split; lra | auto |].
    destruct (M (1 - lx (thumbTip h))%Q cw) as [P3 P4]; [split; lra | auto |].
    destruct (M (ly (idxTip h)) ch) as [P5 P6]; [split; lra | auto |].
    destruct (M (ly (thumbTip h)) ch) as [P7 P8]; [split; lra | auto |].
    revert P1 P2 P3 P4 P5 P6 P7 P8.
    generalize ((1 - lx (idxTip h)) * cw)%Q ((1 - lx (thumbTip h)) * cw)%Q
               (ly (idxTip h) * ch)%Q (ly (thumbTip h) * ch)%Q.
    intros q1 q2 q3 q4 P1 P2 P3 P4 P5 P6 P7 P8.
    unfold Qdiv. change (/ 2)%Q with (1 # 2)%Q.
    split; split; lra. }
  split; [exact Hraw|].
  destruct hands as [|h hs].
  - rewrite lost_frame_keeps_cursor. exact Hs.
  - rewrite tracked_frame_blends.
    pose proof (Hraw h (or_introl eq_refl)) as Hr.
    destruct (Rich.rawSample cw ch h) as [rx ry].
    destruct (Rich.smoothHandPos s) as [sx sy].
    destruct Hr as [[R1 R2] [R3 R4]]. destruct Hs as [[S1 S2] [S3 S4]].
    unfold onCanvas, Rich.smooth, Rich.HAND_SMOOTH.
    simpl in *. split; split; lra.
Qed.

Lemma cursor_stays_on_canvas_witness :
  onCanvas 1000 1000 (Rich.smoothHandPos dogState) /\
  onCanvas 1000 1000 (Rich.rawSample 1000 1000 openHand) /\
  onCanvas 1000 1000
    (Rich.smoothHandPos (fst (Rich.onResults Qsqrt 1000 1000 [openHand] dogState))).
Proof.
  assert (Hs : onCanvas 1000 1000 (Rich.smoothHandPos dogState))
    by (repeat split; discriminate).
  split; [exact Hs|].
  destruct (cursor_stays_on_canvas Qsqrt 1000 1000 [openHand] dogState)
    as [H1 H2].
  - discriminate.
  - discriminate.
  - intros h [<-|[]]. repeat split; discriminate.
  - exact Hs.
  - split; [apply H1; left; reflexivity | exact H2].
Defined.

(** ** The settle animator over many frames *)

Lemma settleTimes_nth_error n : forall ts k t,
  nth_error ts k = Some t ->
  exists t',
    nth_error (settleTimes n ts) k = Some t' /\
    identityOf t' = identityOf t /\
    (isDragging t', inTray t', trayIndex t', targetX t', targetY t')
    = (isDragging t, inTray t, trayIndex t, targetX t, targetY t) /\
    (isDragging t = true -> t' = t) /\
    (isDragging t = false ->
     (targetX t - x t' == (17 # 20) ^ Z.of_nat n * (targetX t - x t))%Q /\
     (targetY t - y t' == (17 # 20) ^ Z.of_nat n * (targetY t - y t))%Q).
Proof.
  induction n as [|n IH]; intros ts k t Hk.
  - exists t. simpl.
    split; [exact Hk|]. split; [reflexivity|]. split; [reflexivity|].
    split; [reflexivity|]. intros _. split; ring.
  - destruct (IH (settle ts) k (ease t)) as (t' & H1 & H2 & H3 & H4 & H5).
    { rewrite nth_error_settle, Hk. reflexivity. }
    exists t'. cbn [settleTimes]. split; [exact H1|].
    unfold ease in *. destruct (isDragging t) eqn:Hd.
    + specialize (H4 Hd). subst t'. rewrite Hd.
      split; [reflexivity|]. split; [reflexivity|]. split; [reflexivity|].
      discriminate.
    + simpl in H2, H3, H4, H5. specialize (H5 Hd). destruct H5 as [Hx Hy].
      rewrite Hd in H3.
      split; [exact H2|]. split; [exact H3|]. split; [discriminate|].
      intros _. split; rewrite Qpower_succ; [rewrite Hx | rewrite Hy]; ring.
Qed.

(** X14. The settle animator covers 15% of the remaining distance per
    frame: after [n] frames without a hand and with no tile active, a tile
    that is not dragged is 0.85^n of its initial offset away from its
    target, in x and in y; a tile that is marked dragged does not move; no
    frame of settling changes an id, a character, a colour, a flag, a slot
    or a target. *)
Theorem resting_tiles_close_in_on_their_targets :
  forall sqrt cw ch n (s : Rich.State) k t,
    activeTileId (Rich.game s) = None ->
    nth_error (tiles (Rich.game s)) k = Some t ->
    exists t',
      nth_error (tiles (Rich.game (runFrames sqrt cw ch (repeat [] n) s))) k
      = Some t' /\
      identityOf t' = identityOf t /\
      (isDragging t', inTray t', trayIndex t', targetX t', targetY t')
      = (isDragging t, inTray t, trayIndex t, targetX t, targetY t) /\
      (isDragging t = true -> t' = t) /\
      (isDragging t = false ->
       (targetX t - x t' == (17 # 20) ^ Z.of_nat n * (targetX t - x t))%Q /\
       (targetY t - y t' == (17 # 20) ^ Z.of_nat n * (targetY t - y t))%Q).
Proof.
  intros sqrt cw ch n s k t Ha Hk.
  assert (E : forall m s0, activeTileId (Rich.game s0) = None ->
                tiles (Rich.game (runFrames sqrt cw ch (repeat [] m) s0))
                = settleTimes m (tiles (Rich.game s0))).
  { induction m as [|m IH]; intros s0 H0; [reflexivity|].
    cbn [repeat runFrames settleTimes].
    assert (F : Rich.game (fst (Rich.onResults sqrt cw ch [] s0))
                = withTiles (settle (tiles (Rich.game s0))) (Rich.game s0)).
    { rewrite rich_lost_frame. simpl.
      destruct (frameTail_outcome cw None false (Rich.game s0))
        as [Hnone _|h' k' c' Hh|h' aid Hh|aid Hact _]; try congruence.
      reflexivity. }
    rewrite IH; rewrite F; simpl; auto. }
  rewrite (E n s Ha). now apply settleTimes_nth_error.
Qed.

Lemma resting_tiles_close_in_on_their_targets_witness :
  let s := Rich.mkState
             (mkGame [mkTile (tileId "A" 0) "A" 0 0 100 200 red false false None]
                     None "A" "" false 0%Z 20%Z MEDIUM 1)
             (Point.mk 0 0) 0 false in
  exists t',
    nth_error (tiles (Rich.game (runFrames Qsqrt 1000 1000 (repeat [] 2) s))) 0
    = Some t' /\
    (x t' == 100 - (289 # 400) * 100)%Q /\ (y t' == 200 - (289 # 400) * 200)%Q.
Proof.
  cbv zeta.
  destruct (resting_tiles_close_in_on_their_targets Qsqrt 1000 1000 2
              (Rich.mkState
                 (mkGame [mkTile (tileId "A" 0) "A" 0 0 100 200 red false false None]
                         None "A" "" false 0%Z 20%Z MEDIUM 1)
                 (Point.mk 0 0) 0 false)
              0 (mkTile (tileId "A" 0) "A" 0 0 100 200 red false false None)
              eq_refl eq_refl)
    as (t' & H1 & _ & _ & _ & H5).
  exists t'. split; [exact H1|].
  destruct (H5 eq_refl) as [Hx Hy]. simpl targetX in Hx. simpl targetY in Hy.
  simpl x in Hx. simpl y in Hy.
  split.
  - setoid_replace (x t') with (100 - (100 - x t'))%Q by ring.
    rewrite Hx. reflexivity.
  - setoid_replace (y t') with (200 - (200 - y t'))%Q by ring.
    rewrite Hy. reflexivity.
Defined.

(** ** The tray row *)

Lemma frameTail_tray_layout cw handPos isPinching g aid k tile :
  activeTileId g = Some aid ->
  activeTileId (fst (frameTail cw handPos isPinching g)) = None ->
  find (fun t => (id t =? aid)%string) (tiles g) = Some (k, tile) ->
  NoDup (map id (tiles g)) ->
  inBand tile = true ->
  trayLaidOut cw (tiles (fst (frameTail cw handPos isPinching g))).
Proof.
  intros Ha Hn Hfind Hnd Hb.
  destruct (frameTail_outcome cw handPos isPinching g)
    as [Hnone _|h k' c Hh Hp Hc Hnone _|h aid' Hh Hp Hc Ha'|aid' Ha' _];
    try congruence.
  { simpl in Hn. congruence. }
  replace aid' with aid by congruence.
  rewrite (dropActive_inside _ _ _ _ _ Hfind Hb). simpl.
  pose proof (find_Some _ _ _ _ Hfind) as (Hk & Hid & _).
  apply String.eqb_eq in Hid.
  set (ts0 := updateAt k (setDragging false) (tiles g)).
  assert (Hnd0 : NoDup (map id ts0))
    by (unfold ts0; rewrite map_updateAt; auto).
  assert (Hk0 : nth_error ts0 k = Some (setDragging false tile))
    by (unfold ts0; rewrite nth_error_updateAt, Nat.eqb_refl, Hk; reflexivity).
  intros p t Hp Ht.
  rewrite nth_error_settle in Hp.
  destruct (nth_error (dropInside cw k tile ts0) p) as [u|] eqn:Hu;
    [|discriminate].
  simpl in Hp. injection Hp as <-.
  assert (Hut : inTray u = true)
    by (unfold ease in Ht; destruct (isDragging u); exact Ht).
  destruct (dropInside_in_tray cw k tile (setDragging false tile) ts0
              Hnd0 Hk0 eq_refl p u Hu Hut) as (j & Hj & Hji).
  destruct (dropInside_slots cw k tile (setDragging false tile) ts0
              Hnd0 Hk0 eq_refl) as [Hlen _].
  destruct (settle_tray (dropInside cw k tile ts0)) as [_ Hl2].
  rewrite Hl2, Hlen.
  rewrite (dropInside_nth_error cw k tile (setDragging false tile) ts0
             Hk0 eq_refl), Hj in Hu.
  destruct (nth_error (updateAt k (setInTray true) ts0) p) as [v|];
    [|discriminate].
  simpl in Hu. injection Hu as <-.
  exists j. unfold ease.
  destruct (isDragging (slot _ j _)); simpl;
    (split; [reflexivity|]; split; [reflexivity|]);
    unfold slotTarget, TILE_SIZE; rewrite Nat.add_1_r; field.
Qed.

(** X15. After a release inside the capture band, on either screen, every
    tile of the tray aims at the tray line (y = 220) and at the abscissa of
    its slot: slot j of a row of n tiles has target x
    (width - 66 n) / 2 + 66 j, so neighbouring slots are 66 apart. *)
Theorem released_tray_row_is_laid_out :
  forall sqrt cw ch hands (s : Rich.State) aid k tile,
    let g := Rich.game s in
    let g1 := Rich.game (fst (Rich.onResults sqrt cw ch hands s)) in
    let g2 := fst (Simple.onResults sqrt cw ch hands g) in
    activeTileId g = Some aid ->
    find (fun t => (id t =? aid)%string) (tiles g) = Some (k, tile) ->
    NoDup (map id (tiles g)) ->
    inBand tile = true ->
    (activeTileId g1 = None -> trayLaidOut cw (tiles g1)) /\
    (activeTileId g2 = None -> trayLaidOut cw (tiles g2)).
Proof.
  intros sqrt cw ch hands s aid k tile g g1 g2 Ha Hfind Hnd Hb. split.
  - destruct (rich_onResults_frameTail sqrt cw ch hands s)
      as (hp & pinch & E & _).
    unfold g1. rewrite E. intros Hn.
    eapply frameTail_tray_layout; eauto.
  - destruct (simple_onResults_frameTail sqrt cw ch hands g)
      as (hp & pinch & E & _).
    unfold g2. rewrite E. intros Hn.
    eapply frameTail_tray_layout; eauto.
Qed.

Lemma released_tray_row_is_laid_out_witness :
  let s := Rich.mkState (regrabbedGame TRAY_Y) (Point.mk 300 220) 3 true in
  let g := regrabbedGame TRAY_Y in
  inBand (mkTile (tileId "A" 0) "A" 300 TRAY_Y 0 TRAY_Y red true true (Some 0))
  = true /\
  trayLaidOut 1280 (tiles (Rich.game (fst (Rich.onResults Qsqrt 1280 720 [] s)))) /\
  trayLaidOut 1280 (tiles (fst (Simple.onResults Qsqrt 1280 720 [] g))).
Proof.
  cbv zeta. split; [reflexivity|].
  destruct (released_tray_row_is_laid_out Qsqrt 1280 720 []
              (Rich.mkState (regrabbedGame TRAY_Y) (Point.mk 300 220) 3 true)
              (tileId "A" 0) 0
              (mkTile (tileId "A" 0) "A" 300 TRAY_Y 0 TRAY_Y red true true (Some 0)))
    as [H1 H2].
  - reflexivity.
  - reflexivity.
  - simpl. repeat constructor; simpl; intuition discriminate.
  - reflexivity.
  - split; [apply H1 | apply H2]; vm_compute; reflexivity.
Defined.

(** ** Building and scrambling the pool *)

Lemma drawIndex_bound rnd k i : unitDraws rnd -> drawIndex rnd k i <= i.
Proof.
  intros H. destruct (H k) as [H0 H1]. unfold drawIndex.
  set (m := inject_Z (Z.of_nat (i + 1))).
  assert (Hm : (0 < m)%Q).
  { unfold m. rewrite <- (Zlt_Qlt 0). lia. }
  assert (Hlt : (rnd k * m < m)%Q).
  { rewrite <- (Qmult_1_l m) at 2. apply Qmult_lt_compat_r; auto. }
  pose proof (Qfloor_le (rnd k * m)) as Hf.
  assert (Hz : (Qfloor (rnd k * m) < Z.of_nat (i + 1))%Z).
  { rewrite Zlt_Qlt. fold m. eapply Qle_lt_trans; eauto. }
  lia.
Qed.

(** X16. The shuffle neither loses nor duplicates an element: its result is
    a permutation of its argument, of the same length.  With draws in
    [0, 1) the index drawn at step i is at most i, so both positions of
    every swap exist. *)
Theorem shuffle_is_a_permutation :
  forall (A : Type) (rnd : Draws) (l : list A),
    unitDraws rnd ->
    Permutation (shuffleArray rnd l) l /\
    List.length (shuffleArray rnd l) = List.length l /\
    (forall k i, drawIndex rnd k i <= i) /\
    (forall k i (l0 : list A),
       shuffleLoop rnd k (S i) l0
       = shuffleLoop rnd (S k) i (swap (S i) (drawIndex rnd k (S i)) l0)).
Proof.
  intros A rnd l H.
  split; [apply shuffleArray_perm|].
  split; [apply Permutation_length, shuffleArray_perm|].
  split; [intros k i; now apply drawIndex_bound | reflexivity].
Qed.

Lemma shuffle_is_a_permutation_witness :
  unitDraws halfDraws /\
  shuffleArray halfDraws [1; 2; 3; 4] = [1; 4; 2; 3] /\
  Permutation (shuffleArray halfDraws [1; 2; 3; 4]) [1; 2; 3; 4].
Proof.
  split; [exact halfDraws_unit|].
  split; [vm_compute; reflexivity|].
  apply (shuffle_is_a_permutation nat halfDraws [1; 2; 3; 4] halfDraws_unit).
Defined.

Lemma countIn_bump c ch m :
  countIn c (Rich.bump ch m)
  = countIn c m + (if ascii_dec ch c then 1 else 0).
Proof.
  unfold countIn. induction m as [|[k n] m IH]; simpl.
  - destruct (ascii_dec ch c); lia.
  - destruct (Ascii.eqb_spec k ch) as [->|Hne]; simpl.
    + destruct (ascii_dec ch c); lia.
    + rewrite IH. lia.
Qed.

Lemma bump_keys ch m :
  NoDup (map fst m) ->
  NoDup (map fst (Rich.bump ch m)) /\
  (forall k, In k (map fst (Rich.bump ch m)) -> k = ch \/ In k (map fst m)).
Proof.
  induction m as [|[k n] m IH]; simpl; intros H.
  - split; [constructor; [simpl; tauto | constructor]|].
    intros k [<-|[]]. now left.
  - inversion H as [|? ? Hn Hd]; subst.
    destruct (Ascii.eqb_spec k ch) as [->|Hne]; simpl.
    + split; [exact H|]. intros k' Hk'. now right.
    + destruct (IH Hd) as [I1 I2]. split.
      * constructor; auto. intros Hin. apply I2 in Hin.
        destruct Hin as [->|Hin]; [now apply Hne | now apply Hn].
      * intros k' [<-|Hin]; [right; now left|].
        apply I2 in Hin. destruct Hin as [->|Hin]; [now left | right; now right].
Qed.

Lemma wordLetterCounts_spec l : forall m c,
  NoDup (map fst m) ->
  let m' := fold_left (fun m ch => Rich.bump ch m) l m in
  NoDup (map fst m') /\ countIn c m' = countIn c m + count_occ ascii_dec l c.
Proof.
  induction l as [|ch l IH]; intros m c H; cbv zeta; simpl.
  - split; [exact H | lia].
  - destruct (bump_keys ch m H) as [Hb _].
    destruct (IH (Rich.bump ch m) c Hb) as [I1 I2]. cbv zeta in I1, I2.
    split; [exact I1|]. rewrite I2, countIn_bump.
    destruct (ascii_dec ch c); lia.
Qed.

Lemma countIn_absent c m : ~ In c (map fst m) -> countIn c m = 0.
Proof.
  unfold countIn. induction m as [|[k n] m IH]; simpl; intros H; auto.
  destruct (ascii_dec k c); [tauto|]. apply IH. tauto.
Qed.

Lemma extras_count c m :
  NoDup (map fst m) ->
  count_occ ascii_dec (flat_map (fun e => repeat (fst e) (snd e - 1)) m) c
  = countIn c m - 1.
Proof.
  induction m as [|[k n] m IH]; simpl; intros H; auto.
  inversion H as [|? ? Hn Hd]; subst.
  rewrite count_occ_app, (IH Hd). unfold countIn at 2. simpl.
  fold (countIn c m).
  destruct (ascii_dec k c) as [->|Hne].
  - rewrite count_occ_repeat_eq by reflexivity.
    rewrite (countIn_absent c m Hn). lia.
  - rewrite count_occ_repeat_neq by congruence. lia.
Qed.

Lemma objectEntries_perm m : Permutation (Rich.objectEntries m) m.
Proof.
  unfold Rich.objectEntries.
  rewrite sortBy_perm.
  rewrite Permutation_app_comm.
  apply (filter_split_perm (fun e => Rich.isDigit (fst e))).
Qed.

Lemma extraLetters_count word c :
  count_occ ascii_dec (Rich.extraLetters word) c
  = count_occ ascii_dec (list_ascii_of_string (toUpperCase word)) c - 1.
Proof.
  unfold Rich.extraLetters.
  destruct (wordLetterCounts_spec (list_ascii_of_string (toUpperCase word))
              [] c (NoDup_nil _)) as [Hnd Hc].
  cbv zeta in Hnd, Hc. fold (Rich.wordLetterCounts word) in Hnd, Hc.
  rewrite (proj1 (Permutation_count_occ ascii_dec _ _)
             (Permutation_flat_map _ (objectEntries_perm _)) c).
  rewrite (extras_count c _ Hnd), Hc. reflexivity.
Qed.

(** X17. The richer screen deals every letter the word needs.  For a round
    with target [word], the pool holds each character as often as the
    alphabet does plus, for a character the upper-cased word repeats, one
    tile for each occurrence after the first; so a letter of A-Z is there
    at least once and at least as often as the word uses it, and the pool
    has 26 tiles plus the extra ones. *)
Theorem rich_pool_covers_the_word :
  forall rnd w h word c,
    unitDraws rnd ->
    let pool := map char (Rich.initPool rnd w h word) in
    let inWord :=
      count_occ ascii_dec (list_ascii_of_string (toUpperCase word)) c in
    count_occ ascii_dec pool c
    = count_occ ascii_dec alphabet c + (inWord - 1) /\
    (In c alphabet ->
     1 <= count_occ ascii_dec pool c /\ inWord <= count_occ ascii_dec pool c) /\
    List.length (Rich.initPool rnd w h word)
    = 26 + List.length (Rich.extraLetters word).
Proof.
  intros rnd w h word c _ pool inWord.
  assert (E : count_occ ascii_dec pool c
              = count_occ ascii_dec alphabet c + (inWord - 1)).
  { unfold pool. rewrite rich_initPool_chars.
    rewrite (proj1 (Permutation_count_occ ascii_dec _ _)
               (shuffleArray_perm rnd _) c).
    rewrite count_occ_app, extraLetters_count. reflexivity. }
  split; [exact E|]. split.
  - intros Hin.
    assert (H1 : count_occ ascii_dec alphabet c = 1).
    { apply (proj1 (NoDup_count_occ' ascii_dec alphabet) alphabet_NoDup c Hin). }
    lia.
  - rewrite <- (length_map char), rich_initPool_chars.
    rewrite (Permutation_length (shuffleArray_perm rnd _)), length_app.
    reflexivity.
Qed.

Lemma rich_pool_covers_the_word_witness :
  let pool := map char (Rich.initPool zeroDraws 1280 720 "cheetah") in
  unitDraws zeroDraws /\
  count_occ ascii_dec pool "E"%char = 2 /\
  count_occ ascii_dec pool "H"%char = 2 /\
  count_occ ascii_dec pool "C"%char = 1 /\
  List.length (Rich.initPool zeroDraws 1280 720 "cheetah") = 28.
Proof.
  cbv zeta. split; [exact zeroDraws_unit|].
  destruct (rich_pool_covers_the_word zeroDraws 1280 720 "cheetah" "E"%char
              zeroDraws_unit) as (E1 & _ & L).
  destruct (rich_pool_covers_the_word zeroDraws 1280 720 "cheetah" "H"%char
              zeroDraws_unit) as (E2 & _ & _).
  destruct (rich_pool_covers_the_word zeroDraws 1280 720 "cheetah" "C"%char
              zeroDraws_unit) as (E3 & _ & _).
  cbv zeta in E1, E2, E3, L.
  split; [rewrite E1; reflexivity|].
  split; [rewrite E2; reflexivity|].
  split; [rewrite E3; reflexivity|].
  rewrite L. reflexivity.
Defined.

Lemma layoutCols_new sx py cols col ci ls :
  Forall (fun t => exists c j px qy, t = newTile c j px qy)
         (fst (layoutCols sx py cols col ci ls)).
Proof.
  revert col ci ls; induction cols as [|cols IH]; intros col ci ls; simpl.
  - constructor.
  - destruct ls as [|c rest]; [constructor|].
    specialize (IH (S col) (S ci) rest).
    destruct (layoutCols sx py cols (S col) (S ci) rest) as [ts out].
    simpl in *. constructor; auto. eauto.
Qed.

Lemma layoutRows_new w y0 rows ri ci ls :
  Forall (fun t => exists c j px qy, t = newTile c j px qy)
         (layoutRows w y0 rows ri ci ls).
Proof.
  revert ri ci ls; induction rows as [|c rows IH]; intros ri ci ls; simpl.
  - constructor.
  - match goal with |- context [layoutCols ?a ?b ?c0 ?d ?e ?f] =>
      pose proof (layoutCols_new a b c0 d e f) as H;
      destruct (layoutCols a b c0 d e f) as [ts [ci' rest]] end.
    simpl in H. apply Forall_app. split; auto.
Qed.

Lemma buildPool_nth_error w hgt rows ls i t :
  nth_error (buildPool w hgt rows ls) i = Some t ->
  identityOf t = identityAt (char t) i /\ atRest t /\
  nth_error ls i = Some (char t).
Proof.
  intros Ht.
  pose proof (layoutRows_new w (hgt - inject_Z (Z.of_nat (List.length rows))
                                      * TILE_SIZE * POOL_SPACING - 40)%Q
                rows 0 0 ls) as Hnew.
  fold (buildPool w hgt rows ls) in Hnew.
  rewrite Forall_forall in Hnew.
  destruct (Hnew t (nth_error_In _ _ Ht)) as (c & j & px & qy & ->).
  pose proof (buildPool_spec (fun t => (id t, char t))
                (fun c j => (tileId c j, c)) (fun _ _ _ _ => eq_refl)
                w hgt rows ls) as Hs.
  apply (f_equal (fun l => nth_error l i)) in Hs.
  rewrite !nth_error_map, Ht in Hs. simpl in Hs.
  destruct (nth_error (enumerateFrom 0 (firstn (list_sum rows) ls)) i)
    as [[j' c']|] eqn:Hi; [|discriminate].
  simpl in Hs.
  assert (Hid : tileId c j = tileId c' j') by congruence.
  assert (Hc : c' = c) by congruence.
  clear Hs. subst c'.
  apply tileId_index in Hid. subst j'.
  assert (Hin : In (j, c) (enumerateFrom 0 (firstn (list_sum rows) ls)))
    by (eapply nth_error_In; eauto).
  apply in_enumerate in Hin.
  assert (Hji : nth_error (map fst (enumerateFrom 0 (firstn (list_sum rows) ls))) i
                = Some j) by (rewrite nth_error_map, Hi; reflexivity).
  rewrite enumerateFrom_fst in Hji.
  assert (Hlt : i < List.length (seq 0 (List.length (firstn (list_sum rows) ls))))
    by (apply nth_error_Some; congruence).
  rewrite length_seq in Hlt.
  rewrite (nth_error_nth' _ 0) in Hji by (now rewrite length_seq).
  rewrite seq_nth in Hji by exact Hlt. simpl in Hji. injection Hji as <-.
  split; [reflexivity|]. split; [repeat split|].
  simpl. clear - Hin. revert Hin.
  generalize (list_sum rows) as n. intros n. revert i ls.
  induction n as [|n IH]; intros i ls H.
  - simpl in H. destruct i; discriminate.
  - destruct ls as [|a ls]; [destruct i; discriminate|].
    destruct i as [|i]; simpl in *; auto.
Qed.

Lemma rich_initPool_nth_error rnd w h word i t :
  nth_error (Rich.initPool rnd w h word) i = Some t ->
  identityOf t = identityAt (char t) i /\ atRest t.
Proof.
  unfold Rich.initPool. cbv zeta. intros H.
  destruct (buildPool_nth_error _ _ _ _ _ _ H) as (A1 & A2 & _).
  split; assumption.
Qed.

Lemma simple_initPool_nth_error rnd w h i t :
  nth_error (Simple.initPool rnd w h) i = Some t ->
  identityOf t = identityAt (char t) i /\ atRest t.
Proof.
  unfold Simple.initPool. intros H.
  destruct (buildPool_nth_error _ _ _ _ _ _ H) as (A1 & A2 & _).
  split; assumption.
Qed.

Lemma initPool_ids rnd w h word :
  NoDup (map id (Rich.initPool rnd w h word)) /\
  NoDup (map id (Simple.initPool rnd w h)).
Proof.
  split.
  - unfold Rich.initPool. cbv zeta. exact (proj1 (buildPool_fresh _ _ _ _)).
  - unfold Simple.initPool. exact (proj1 (buildPool_fresh _ _ _ _)).
Qed.

(** X18. The pool a round starts with, on either screen: the tile at
    position i carries the id tile-<its character>-<i> and the colour
    number i modulo 8 of the palette, rests on its own target, is neither
    dragged nor in the tray and has no slot; the ids are pairwise
    distinct. *)
Theorem fresh_pool_tiles_are_numbered_and_at_rest :
  forall rnd w h word i t,
    nth_error (Rich.initPool rnd w h word) i = Some t \/
    nth_error (Simple.initPool rnd w h) i = Some t ->
    identityOf t = identityAt (char t) i /\ atRest t /\
    NoDup (map id (Rich.initPool rnd w h word)) /\
    NoDup (map id (Simple.initPool rnd w h)).
Proof.
  intros rnd w h word i t H.
  assert (H' : identityOf t = identityAt (char t) i /\ atRest t).
  { destruct H as [H|H].
    - exact (rich_initPool_nth_error _ _ _ _ _ _ H).
    - exact (simple_initPool_nth_error _ _ _ _ _ H). }
  destruct H' as [H1 H2]. split; [exact H1|]. split; [exact H2|].
  apply initPool_ids.
Qed.

Lemma fresh_pool_tiles_are_numbered_and_at_rest_witness :
  exists t,
    nth_error (Simple.initPool zeroDraws 1280 720) 9 = Some t /\
    char t = "K"%char /\
    id t = tileId "K" 9 /\ color t = blue /\ atRest t.
Proof.
  destruct (nth_error (Simple.initPool zeroDraws 1280 720) 9) as [t|] eqn:E;
    [|vm_compute in E; discriminate].
  exists t. split; [reflexivity|].
  assert (Hc : char t = "K"%char).
  { assert (H : option_map char (nth_error (Simple.initPool zeroDraws 1280 720) 9)
                = Some "K"%char) by (vm_compute; reflexivity).
    rewrite E in H. simpl in H. congruence. }
  split; [exact Hc|].
  destruct (fresh_pool_tiles_are_numbered_and_at_rest zeroDraws 1280 720
              "DOG" 9 t (or_intror E)) as (H1 & H2 & _).
  rewrite Hc in H1. unfold identityOf, identityAt in H1.
  injection H1 as Hi _ Hcol.
  split; [exact Hi|]. split; [exact Hcol | exact H2].
Defined.

(** X19. The periodic scramble of the simpler screen only re-deals the
    pool: the tiles of the tray stay as they are and in their order, behind
    the others; no tile is lost or duplicated and nothing but targets
    changes; the tray word is the same.  The interval callback decides by
    the [isCorrect] it captured when the round was started, not by the
    current one: a round started from a render in which the previous round
    was solved (the Next Word button is shown only then) is never scrambled,
    a round started from an unsolved render is scrambled until it is
    solved. *)
Theorem scramble_only_retargets_pool_tiles :
  forall rnd w h (g0 g : Game),
    unitDraws rnd ->
    let ts' := Simple.scramblePool rnd w h (tiles g) in
    let tick := Simple.scrambleTick rnd w h (Simple.startScrambleTimer g0) g in
    filter inTray ts' = filter inTray (tiles g) /\
    (exists pool, ts' = pool ++ filter inTray (tiles g) /\
                  Forall (fun t => inTray t = false) pool) /\
    Permutation (map untargeted ts') (map untargeted (tiles g)) /\
    List.length ts' = List.length (tiles g) /\
    trayLetters ts' = trayLetters (tiles g) /\
    (isCorrect g0 = true -> tick = g) /\
    (isCorrect g = true -> tick = g) /\
    (isCorrect g0 = false -> isCorrect g = false -> tick = withTiles ts' g).
Proof.
  intros rnd w h g0 g _ ts' tick.
  assert (P : Permutation (map untargeted ts') (map untargeted (tiles g)))
    by (apply scramblePool_perm; reflexivity).
  split; [apply scramblePool_tray|].
  split.
  { eexists. split; [reflexivity|]. apply Forall_forall. intros t Ht.
    apply (in_map inTray) in Ht.
    rewrite retargetRows_map in Ht by reflexivity.
    apply in_map_iff in Ht. destruct Ht as (u & E & Hu).
    apply (Permutation_in _ (shuffleArray_perm rnd _)) in Hu.
    apply filter_In in Hu. destruct Hu as [_ Hu].
    apply negb_true_iff in Hu. congruence. }
  split; [exact P|].
  split.
  { apply Permutation_length in P. now rewrite !length_map in P. }
  split.
  { unfold trayLetters, ts'. now rewrite scramblePool_tray. }
  unfold tick, Simple.scrambleTick, Simple.startScrambleTimer.
  split; [intros ->; reflexivity|].
  split; [intros ->; now rewrite orb_true_r|].
  intros -> ->. reflexivity.
Qed.

Lemma scramble_only_retargets_pool_tiles_witness :
  let ts' := Simple.scramblePool halfDraws 1280 720 (tiles carriedGame) in
  unitDraws halfDraws /\
  isCorrect solvedGame = true /\ isCorrect carriedGame = false /\
  isCorrect Simple.initial = false /\
  filter inTray ts' = filter inTray (tiles carriedGame) /\
  List.length ts' = 26 /\
  map char (firstn 3 ts') <> map char (firstn 3 (tiles carriedGame)) /\
  Simple.scrambleTick halfDraws 1280 720
    (Simple.startScrambleTimer solvedGame) carriedGame = carriedGame /\
  Simple.scrambleTick halfDraws 1280 720
    (Simple.startScrambleTimer Simple.initial) carriedGame
  = withTiles ts' carriedGame.
Proof.
  cbv zeta. split; [exact halfDraws_unit|].
  assert (H1 : isCorrect solvedGame = true) by (vm_compute; reflexivity).
  assert (H2 : isCorrect carriedGame = false) by (vm_compute; reflexivity).
  split; [exact H1|]. split; [exact H2|]. split; [reflexivity|].
  destruct (scramble_only_retargets_pool_tiles halfDraws 1280 720
              solvedGame carriedGame halfDraws_unit)
    as (A1 & _ & _ & A4 & _ & A6 & _).
  destruct (scramble_only_retargets_pool_tiles halfDraws 1280 720
              Simple.initial carriedGame halfDraws_unit)
    as (_ & _ & _ & _ & _ & _ & _ & B8).
  cbv zeta in A1, A4, A6, B8.
  split; [exact A1|].
  split; [rewrite A4; vm_compute; reflexivity|].
  split; [vm_compute; discriminate|].
  split; [exact (A6 H1) | exact (B8 eq_refl H2)].
Defined.

(** X20. The simpler screen has no grab confirmation: with no tile active
    and the round unsolved, a single frame whose fingertips are closer than
    its GRAB threshold grabs the first tile in pool order whose square
    contains the raw midpoint of the fingertips, and plays a click. *)
Theorem simple_screen_grabs_on_the_first_pinch_frame :
  forall sqrt cw ch h hs (g : Game) k clicked,
    let p := Rich.rawSample cw ch h in
    let out := Simple.onResults sqrt cw ch (h :: hs) g in
    activeTileId g = None ->
    isCorrect g = false ->
    (Rich.pinchDistanceOf sqrt h < Simple.PINCH_GRAB_THRESHOLD)%Q ->
    find (hitTest p) (tiles g) = Some (k, clicked) ->
    activeTileId (fst out) = Some (id clicked) /\
    snd out = [click] /\
    nth_error (tiles (fst out)) k = Some (setDragging true clicked) /\
    (forall j t, j < k -> nth_error (tiles g) j = Some t -> hitTest p t = false) /\
    score (fst out) = score g.
Proof.
  intros sqrt cw ch h hs g k clicked p out Ha Hc Hd Hfind.
  assert (E : out = frameTail cw (Some p) true g).
  { unfold out, Simple.onResults. rewrite Ha.
    apply Qltb_lt in Hd. unfold Rich.pinchDistanceOf in Hd. cbv zeta in Hd.
    rewrite Hd. reflexivity. }
  rewrite E.
  destruct (find_Some _ _ _ _ Hfind) as (Hk & Hhit & Hmin).
  destruct (frameTail_outcome cw (Some p) true g)
    as [Hnone Hno|h' k' c' Hh Hp Hcor Hnone Hf|h' aid Hh Hp Hcor Hact
        |aid Hact _]; try congruence.
  - specialize (Hno p eq_refl). rewrite Hc in Hno.
    specialize (Hno eq_refl). congruence.
  - injection Hh as <-. rewrite Hfind in Hf. injection Hf as <- <-.
    simpl. repeat split; auto.
    rewrite nth_error_settle, nth_error_updateAt, Nat.eqb_refl, Hk.
    reflexivity.
Qed.

Lemma simple_screen_grabs_on_the_first_pinch_frame_witness :
  let g := Simple.nextWord zeroDraws 1280 720 "CHEETAH" Simple.initial in
  let out := Simple.onResults Qsqrt 1280 720 [pinchOnFirstTile] g in
  activeTileId g = None /\
  activeTileId (fst out) = Some (tileId "B" 0) /\ snd out = [click].
Proof.
  cbv zeta. split; [reflexivity|].
  destruct (nth_error
              (tiles (Simple.nextWord zeroDraws 1280 720 "CHEETAH" Simple.initial))
              0) as [t|] eqn:E; [|vm_compute in E; discriminate].
  destruct (simple_screen_grabs_on_the_first_pinch_frame Qsqrt 1280 720
              pinchOnFirstTile []
              (Simple.nextWord zeroDraws 1280 720 "CHEETAH" Simple.initial)
              0 t) as (H1 & H2 & _).
  - reflexivity.
  - reflexivity.
  - vm_compute; reflexivity.
  - vm_compute in E. injection E as <-. vm_compute. reflexivity.
  - split; [|exact H2]. rewrite H1.
    vm_compute in E. injection E as <-. reflexivity.
Defined.

(** ** The score *)

Lemma tickTimer_nonneg g : (0 <= timeLeft g)%Z -> (0 <= timeLeft (tickTimer g))%Z.
Proof.
  intros H. unfold tickTimer. simpl.
  destruct (Z.leb_spec (timeLeft g) 1); lia.
Qed.

Lemma time_pos d : (0 <= time d)%Z.
Proof. destruct d; simpl; lia. Qed.

Lemma simple_reachable_timeLeft sqrt g :
  Simple.reachable sqrt g -> (0 <= timeLeft g)%Z.
Proof.
  induction 1 as [|g cw ch hands _ IH|g rnd w h word _ _ IH
                  |g rnd w h _ _ IH|g rnd w h seen0 _ _ IH|g _ IH|g d _ IH].
  - simpl. lia.
  - destruct (simple_onResults_frameTail sqrt cw ch hands g)
      as (hp & pinch & E & _).
    rewrite E. destruct (frameTail_round cw hp pinch g) as (_ & _ & -> & _).
    exact IH.
  - simpl. apply time_pos.
  - unfold Simple.resize. destruct (tiles g); exact IH.
  - unfold Simple.scrambleTick. destruct seen0, (isCorrect g); exact IH.
  - now apply tickTimer_nonneg.
  - exact IH.
Qed.

Lemma rich_reachable_timeLeft sqrt s :
  Rich.reachable sqrt s -> (0 <= timeLeft (Rich.game s))%Z.
Proof.
  induction 1 as [|s cw ch hands _ IH|s rnd w h word _ _ IH
                  |s rnd w h _ _ IH|s _ IH|s d _ IH]; simpl.
  - lia.
  - destruct (rich_onResults_frameTail sqrt cw ch hands s)
      as (hp & pinch & E & _).
    rewrite E. destruct (frameTail_round cw hp pinch (Rich.game s))
      as (_ & _ & -> & _).
    exact IH.
  - apply time_pos.
  - unfold Rich.resize. destruct (tiles (Rich.game s)); exact IH.
  - now apply tickTimer_nonneg.
  - exact IH.
Qed.

Lemma multiplier_ge_1 d : (1 <= multiplier d)%Q.
Proof. destruct d; simpl; discriminate. Qed.

Lemma solveBonus_lower word d secs :
  (0 <= secs)%Z ->
  (10 * Z.of_nat (String.length word) <= solveBonus word d secs)%Z.
Proof.
  intros Hs. unfold solveBonus.
  pose proof (multiplier_ge_1 d) as Hm.
  assert (H1 : (10 * Z.of_nat (String.length word)
                <= Qfloor (inject_Z (Z.of_nat (String.length word)) * 10
                           * multiplier d))%Z).
  { rewrite <- (Qfloor_Z (10 * Z.of_nat (String.length word))).
    apply Qfloor_resp_le.
    rewrite inject_Z_mult.
    assert (H0 : (0 <= inject_Z (Z.of_nat (String.length word)))%Q)
      by (rewrite <- (Zle_Qle 0); lia).
    revert H0. generalize (inject_Z (Z.of_nat (String.length word))).
    intros q Hq. change (inject_Z 10) with 10%Q.
    setoid_replace (10 * q)%Q with (q * 10 * 1)%Q by ring.
    apply Qmult_le_compat_nonneg; split; try lra. }
  assert (H2 : (0 <= Qfloor (inject_Z secs * multiplier d))%Z).
  { change 0%Z with (Qfloor 0). apply Qfloor_resp_le.
    apply Qmult_le_0_compat; [|lra].
    rewrite <- (Zle_Qle 0). exact Hs. }
  lia.
Qed.

(** X21. The score never goes down and moves only when a round is solved:
    in every reachable state of either screen the seconds left are not
    negative, and a frame either leaves the score alone or plays the success
    sound, turns an unsolved round into a solved one and adds at least ten
    points per letter of the target word. *)
Theorem score_only_grows_and_only_on_a_solve :
  forall sqrt (g g' : Game) snds,
    Simple.reachable sqrt g \/
    (exists s, Rich.reachable sqrt s /\ Rich.game s = g) ->
    frame sqrt g g' snds ->
    (0 <= timeLeft g)%Z /\
    (score g <= score g')%Z /\
    (~ In success snds -> score g' = score g /\
                          (isCorrect g' = true -> isCorrect g = true)) /\
    (In success snds ->
     isCorrect g = false /\ isCorrect g' = true /\
     (score g + 10 * Z.of_nat (String.length (currentWord g)) <= score g')%Z).
Proof.
  intros sqrt g g' snds H Hf.
  assert (Ht : (0 <= timeLeft g)%Z).
  { destruct H as [H|(s & H & <-)].
    - eapply simple_reachable_timeLeft; eauto.
    - eapply rich_reachable_timeLeft; eauto. }
  assert (I : sessionInvariant g).
  { destruct H as [H|(s & H & <-)].
    - eapply simple_reachable_sessionInvariant; eauto.
    - eapply rich_reachable_sessionInvariant; eauto. }
  destruct I as [_ Hs].
  destruct (frame_is_frameTail _ _ _ _ Hf) as (cw & hp & pinch & -> & ->).
  pose proof (solveBonus_lower (currentWord g) (difficulty g) (timeLeft g) Ht)
    as Hb.
  assert (Hlen : (0 <= Z.of_nat (String.length (currentWord g)))%Z) by lia.
  split; [exact Ht|].
  destruct (frameTail_outcome cw hp pinch g)
    as [Hnone _|h k c Hh Hp Hcor Hnone Hfind|h aid Hh Hp Hcor Hact|aid Hact _].
  - simpl. split; [lia|]. split; [auto | intros []].
  - simpl. split; [lia|]. split; [auto|].
    intros [E|[]]; discriminate.
  - simpl. split; [lia|]. split; [auto | intros []].
  - assert (Hc : isCorrect g = false).
    { destruct (isCorrect g) eqn:E; auto.
      destruct (Hs eq_refl) as (Hn & _). congruence. }
    cbv zeta. cbn [fst snd].
    set (g0 := withActive None (withTiles (fst (dropActive cw aid (tiles g))) g)).
    pose proof (dropActive_sounds cw aid (tiles g)) as Hd.
    unfold withTiles. cbn [score isCorrect].
    unfold updateTrayWord.
    destruct ((trayLetters (tiles g0) =? currentWord g0)%string
              && (0 <? String.length (trayLetters (tiles g0)))) eqn:E;
      cbn [fst snd score isCorrect].
    + apply andb_prop in E. destruct E as [E _].
      apply String.eqb_eq in E. rewrite E.
      change (currentWord g0) with (currentWord g).
      change (score g0) with (score g).
      change (difficulty g0) with (difficulty g).
      change (timeLeft g0) with (timeLeft g).
      split; [lia|]. split.
      * intros Hn. exfalso. apply Hn. apply in_or_app. right. now left.
      * intros _. split; [exact Hc|]. split; [reflexivity | lia].
    + change (score g0) with (score g).
      split; [lia|]. split.
      * intros _. split; [reflexivity | discriminate].
      * intros Hin. apply in_app_or in Hin.
        destruct Hin as [Hin|[]]. exfalso. now apply Hd.
Qed.

Lemma score_only_grows_and_only_on_a_solve_witness :
  let out := Simple.onResults Qsqrt 1280 720 [] carriedGame in
  Simple.reachable Qsqrt carriedGame /\
  In success (snd out) /\
  score carriedGame = 0%Z /\ score (fst out) = 60%Z /\
  isCorrect carriedGame = false /\ isCorrect (fst out) = true.
Proof.
  cbv zeta. split; [exact carriedGame_reachable|].
  assert (Hin : In success (snd (Simple.onResults Qsqrt 1280 720 [] carriedGame)))
    by (vm_compute; right; left; reflexivity).
  split; [exact Hin|].
  split; [vm_compute; reflexivity|].
  split; [vm_compute; reflexivity|].
  destruct (score_only_grows_and_only_on_a_solve Qsqrt carriedGame
              (fst (Simple.onResults Qsqrt 1280 720 [] carriedGame))
              (snd (Simple.onResults Qsqrt 1280 720 [] carriedGame)))
    as (_ & _ & _ & H).
  - left. exact carriedGame_reachable.
  - apply frame_simple.
  - destruct (H Hin) as (H1 & H2 & _). split; [exact H1 | exact H2].
Defined.

(** ** The word lists *)

Lemma existsb_eqb_In (c : ascii) (l : list ascii) :
  existsb (Ascii.eqb c) l = true <-> In c l.
Proof.
  rewrite existsb_exists. split.
  - intros (a & Ha & E). apply Ascii.eqb_eq in E. now subst.
  - intros H. exists c. split; auto. apply Ascii.eqb_refl.
Qed.

Lemma distinctb_NoDup (l : list ascii) : distinctb l = true <-> NoDup l.
Proof.
  induction l as [|c l IH]; simpl.
  - split; [constructor | reflexivity].
  - rewrite andb_true_iff, negb_true_iff, IH. split.
    + intros [H1 H2]. constructor; auto.
      intros Hin. apply existsb_eqb_In in Hin. congruence.
    + intros H. inversion H as [|? ? Hn Hd]; subst. split; auto.
      destruct (existsb (Ascii.eqb c) l) eqn:E; auto.
      apply existsb_eqb_In in E. tauto.
Qed.

Lemma listed_words_are_plain cat d word :
  In word (WORD_CATEGORIES cat d) -> plainWord word = true.
Proof.
  assert (H : forallb plainWord (WORD_CATEGORIES cat d) = true)
    by (destruct cat, d; vm_compute; reflexivity).
  rewrite forallb_forall in H. apply H.
Qed.

Lemma pickWord_in_range r (wordList : list string) :
  (0 <= r)%Q -> (r < 1)%Q -> wordList <> [] ->
  exists word, pickWord r wordList = Some word /\ In word wordList.
Proof.
  intros H0 H1 Hne. unfold pickWord.
  destruct wordList as [|w0 ws]; [congruence|].
  assert (Hb : drawIndex (fun _ => r) 0 (List.length ws) <= List.length ws)
    by (apply drawIndex_bound; intros k; split; assumption).
  unfold drawIndex in Hb. rewrite Nat.add_1_r in Hb.
  change (List.length (w0 :: ws)) with (S (List.length ws)).
  destruct (nth_error (w0 :: ws) _) as [word|] eqn:E.
  - exists word. split; auto. eapply nth_error_In; eauto.
  - apply nth_error_None in E. cbn [List.length] in E. lia.
Qed.

(** X22. A new round always gets a word: for a draw in [0, 1) the index
    into the word list of any category and difficulty is in range.  Every
    listed word is a non-empty upper-case word over A-Z, and the pool the
    richer screen builds for it holds each letter at least as often as the
    word needs it, so the word can be spelled. *)
Theorem listed_words_can_be_spelled_on_the_richer_screen :
  forall cat d r,
    (0 <= r)%Q -> (r < 1)%Q ->
    exists word,
      pickWord r (WORD_CATEGORIES cat d) = Some word /\
      In word (WORD_CATEGORIES cat d) /\
      word <> "" /\ toUpperCase word = word /\
      (forall c, In c (letters word) -> In c alphabet) /\
      (forall rnd w h c,
         unitDraws rnd ->
         count_occ ascii_dec (letters word) c
         <= count_occ ascii_dec (map char (Rich.initPool rnd w h word)) c).
Proof.
  intros cat d r H0 H1.
  destruct (pickWord_in_range r (WORD_CATEGORIES cat d) H0 H1)
    as (word & Hp & Hin); [destruct cat, d; discriminate|].
  exists word. split; [exact Hp|]. split; [exact Hin|].
  pose proof (listed_words_are_plain cat d word Hin) as Hw.
  unfold plainWord in Hw.
  apply andb_prop in Hw. destruct Hw as [Hw Hall].
  apply andb_prop in Hw. destruct Hw as [Hup Hlen].
  apply String.eqb_eq in Hup. apply Nat.ltb_lt in Hlen.
  rewrite forallb_forall in Hall.
  assert (Hab : forall c, In c (letters word) -> In c alphabet)
    by (intros c Hc; apply existsb_eqb_In; now apply Hall).
  split; [intros ->; simpl in Hlen; lia|].
  split; [exact Hup|]. split; [exact Hab|].
  intros rnd w h c _.
  rewrite rich_initPool_chars.
  rewrite (proj1 (Permutation_count_occ ascii_dec _ _)
             (shuffleArray_perm rnd _) c).
  rewrite count_occ_app, extraLetters_count, Hup. fold (letters word).
  destruct (count_occ ascii_dec (letters word) c) as [|n] eqn:E; [lia|].
  assert (Hc : In c (letters word))
    by (apply (count_occ_In ascii_dec); lia).
  pose proof (proj1 (NoDup_count_occ' ascii_dec alphabet) alphabet_NoDup c
                (Hab c Hc)) as Ha.
  lia.
Qed.

Lemma listed_words_can_be_spelled_on_the_richer_screen_witness :
  pickWord (45 # 100) (WORD_CATEGORIES ANIMALS HARD) = Some "CHEETAH" /\
  exists word,
    pickWord (45 # 100) (WORD_CATEGORIES ANIMALS HARD) = Some word /\
    forall rnd w h c,
      unitDraws rnd ->
      count_occ ascii_dec (letters word) c
      <= count_occ ascii_dec (map char (Rich.initPool rnd w h word)) c.
Proof.
  split; [vm_compute; reflexivity|].
  destruct (listed_words_can_be_spelled_on_the_richer_screen
              ANIMALS HARD (45 # 100)) as (word & H1 & _ & _ & _ & _ & H6).
  - discriminate.
  - reflexivity.
  - exists word. split; [exact H1 | exact H6].
Defined.

(** X23. On the simpler screen, whose pool holds each letter once, the
    36 of the 120 listed words that repeat a letter (BEE, SHEEP, CHEETAH,
    ...) can never be solved: in every reachable state whose target is one
    of them the tray word differs from the target and the round is not
    marked solved. *)
Theorem listed_words_the_simpler_screen_cannot_solve :
  forall sqrt (g : Game),
    Simple.reachable sqrt g ->
    In (currentWord g) repeatedLetterWords ->
    List.length allWords = 120 /\
    List.length repeatedLetterWords = 36 /\
    In (currentWord g) allWords /\
    trayLetters (tiles g) <> currentWord g /\ isCorrect g = false.
Proof.
  intros sqrt g Hr Hin.
  split; [reflexivity|]. split; [vm_compute; reflexivity|].
  unfold repeatedLetterWords in Hin. apply filter_In in Hin.
  destruct Hin as [Hall Hrep]. split; [exact Hall|].
  assert (Hnd : ~ NoDup (letters (currentWord g))).
  { intros H. apply distinctb_NoDup in H. rewrite H in Hrep. discriminate. }
  destruct (simple_reachable_poolInvariant sqrt g Hr) as [Hn Hc].
  split.
  - intros E. apply Hnd. rewrite <- E. now apply trayLetters_NoDup.
  - destruct (isCorrect g); auto. exfalso. auto.
Qed.

Lemma listed_words_the_simpler_screen_cannot_solve_witness :
  Simple.reachable Qsqrt grabbedGame /\
  currentWord grabbedGame = "CHEETAH" /\
  In "CHEETAH" (WORD_CATEGORIES ANIMALS HARD) /\
  isCorrect grabbedGame = false.
Proof.
  split; [exact grabbedGame_reachable|].
  split; [reflexivity|].
  split; [vm_compute; tauto|].
  apply (listed_words_the_simpler_screen_cannot_solve Qsqrt grabbedGame
           grabbedGame_reachable).
  vm_compute. tauto.
Defined.

(** ** Letting go and pinching again *)

(** X24. Opening the pinch while a tile is held releases the tile but keeps
    the grab confirmation standing: the frame that releases leaves the
    confirmation flag set with the pinch-frame count at 0, and if the very
    next frame pinches over a tile of an unsolved round, that tile is
    grabbed at once, on the first pinch frame. *)
Theorem pinch_right_after_release_grabs_at_once :
  forall sqrt cw ch h1 hs1 h2 hs2 (s : Rich.State) aid k clicked,
    let s1 := fst (Rich.onResults sqrt cw ch (h1 :: hs1) s) in
    let sm2 := Rich.smooth (Rich.smoothHandPos s1) (Rich.rawSample cw ch h2) in
    let out := Rich.onResults sqrt cw ch (h2 :: hs2) s1 in
    activeTileId (Rich.game s) = Some aid ->
    Rich.pinchConfirmed s = true ->
    ~ (Rich.pinchDistanceOf sqrt h1 < Rich.PINCH_RELEASE_THRESHOLD)%Q ->
    (Rich.pinchDistanceOf sqrt h2 < Rich.PINCH_GRAB_THRESHOLD)%Q ->
    isCorrect (Rich.game s1) = false ->
    find (hitTest sm2) (tiles (Rich.game s1)) = Some (k, clicked) ->
    (activeTileId (Rich.game s1) = None /\
     Rich.pinchFrames s1 = 0 /\ Rich.pinchConfirmed s1 = true) /\
    (activeTileId (Rich.game (fst out)) = Some (id clicked) /\
     snd out = [click] /\ Rich.pinchFrames (fst out) = 1).
Proof.
  intros sqrt cw ch h1 hs1 h2 hs2 s aid k clicked s1 sm2 out
         Ha Hpc Hopen Hpinch Hcor Hfind.
  assert (Hraw : Qltb (Rich.pinchDistanceOf sqrt h1)
                      Rich.PINCH_RELEASE_THRESHOLD = false).
  { destruct (Qltb _ _) eqn:E; auto. apply Qltb_lt in E. tauto. }
  assert (E1 : activeTileId (Rich.game s1) = None /\
               Rich.pinchFrames s1 = 0 /\ Rich.pinchConfirmed s1 = true).
  { unfold s1. rewrite rich_tracked_frame. rewrite Ha. simpl Rich.isSome.
    simpl Rich.threshold. rewrite Hraw, Hpc.
    cbn [andb orb fst Rich.game Rich.pinchFrames Rich.pinchConfirmed].
    split; [|split; reflexivity].
    destruct (frameTail_outcome cw
                (Some (Rich.smooth (Rich.smoothHandPos s)
                         (Rich.rawSample cw ch h1)))
                false (Rich.game s))
      as [Hnone _|h' k' c' Hh Hp|h' aid' Hh Hp|aid' Hact _]; try congruence.
    simpl. rewrite updateTrayWord_active. reflexivity. }
  split; [exact E1|].
  destruct E1 as (A1 & A2 & A3).
  unfold out.
  rewrite (rich_grab_frame sqrt cw ch h2 hs2 s1 k clicked A1 Hcor Hpinch
             (or_introl A3) Hfind).
  cbn [fst snd Rich.game Rich.pinchFrames]. rewrite A2.
  split; [reflexivity|]. split; reflexivity.
Qed.

Lemma pinch_right_after_release_grabs_at_once_witness :
  let s1 := fst (Rich.onResults Qsqrt 1000 1000 [openHand] dogsState) in
  let out := Rich.onResults Qsqrt 1000 1000 [pinchAt 1000 1000 609 231] s1 in
  activeTileId (Rich.game dogsState) = Some (tileId "G" 2) /\
  activeTileId (Rich.game s1) = None /\
  Rich.pinchFrames s1 = 0 /\
  activeTileId (Rich.game (fst out)) = Some (tileId "G" 2) /\
  snd out = [click].
Proof.
  cbv zeta. split; [reflexivity|].
  destruct (find (hitTest
                    (Rich.smooth
                       (Rich.smoothHandPos
                          (fst (Rich.onResults Qsqrt 1000 1000 [openHand] dogsState)))
                       (Rich.rawSample 1000 1000 (pinchAt 1000 1000 609 231))))
                 (tiles (Rich.game
                           (fst (Rich.onResults Qsqrt 1000 1000 [openHand] dogsState)))))
    as [[k clicked]|] eqn:E; [|vm_compute in E; discriminate].
  destruct (pinch_right_after_release_grabs_at_once Qsqrt 1000 1000
              openHand [] (pinchAt 1000 1000 609 231) [] dogsState
              (tileId "G" 2) k clicked)
    as ((A1 & A2 & _) & (_ & B2 & _)).
  - reflexivity.
  - reflexivity.
  - intros H. vm_compute in H. discriminate.
  - vm_compute; reflexivity.
  - vm_compute; reflexivity.
  - exact E.
  - split; [exact A1|]. split; [exact A2|].
    split; [vm_compute; reflexivity | exact B2].
Defined.

(** ** The grid of the pool *)

Lemma layoutCols_pos sx py cols : forall col ci ls j t,
  nth_error (fst (layoutCols sx py cols col ci ls)) j = Some t ->
  x t = (sx + inject_Z (Z.of_nat (col + j)) * TILE_SIZE * POOL_SPACING
         - cell / 2)%Q /\
  y t = py.
Proof.
  induction cols as [|cols IH]; intros col ci ls j t H.
  - simpl in H. destruct j; discriminate.
  - destruct ls as [|c rest]; [simpl in H; destruct j; discriminate|].
    simpl in H. specialize (IH (S col) (S ci) rest).
    destruct (layoutCols sx py cols (S col) (S ci) rest) as [ts out].
    simpl in H, IH. destruct j as [|j].
    + simpl in H. injection H as <-. rewrite Nat.add_0_r. split; reflexivity.
    + simpl in H. rewrite Nat.add_succ_r. exact (IH j t H).
Qed.

Lemma layoutCols_rest sx py cols col ci ls :
  List.length (fst (layoutCols sx py cols col ci ls))
  = List.length (firstn cols ls) /\
  snd (snd (layoutCols sx py cols col ci ls)) = skipn cols ls.
Proof.
  destruct (layoutCols_spec (fun _ => tt) (fun _ _ => tt) (fun _ _ _ _ => eq_refl)
              sx py cols col ci ls) as [H1 H2].
  apply (f_equal (@List.length _)) in H1. rewrite !length_map in H1.
  split.
  - rewrite H1. clear. revert ci. generalize (firstn cols ls) as l.
    induction l as [|a l IH]; intros ci; simpl; auto.
  - rewrite H2. reflexivity.
Qed.

Lemma layoutRows_nil w y0 rows : forall ri ci,
  layoutRows w y0 rows ri ci [] = [].
Proof.
  induction rows as [|n rows IH]; intros ri ci; simpl; auto.
  destruct n; simpl; apply IH.
Qed.

Lemma layoutRows_pos w y0 rows : forall ri ci ls i t,
  nth_error (layoutRows w y0 rows ri ci ls) i = Some t ->
  exists r c n,
    cellOf rows ri i = Some (r, c, n) /\
    x t = ((w - inject_Z (Z.of_nat n) * TILE_SIZE * POOL_SPACING) / 2 + cell / 2
           + inject_Z (Z.of_nat c) * TILE_SIZE * POOL_SPACING - cell / 2)%Q /\
    y t = (y0 + inject_Z (Z.of_nat r) * TILE_SIZE * POOL_SPACING)%Q.
Proof.
  induction rows as [|n rows IH]; intros ri ci ls i t H.
  - simpl in H. destruct i; discriminate.
  - simpl in H.
    match type of H with context [layoutCols ?a ?b ?c0 ?d ?e ?f] =>
      pose proof (layoutCols_rest a b c0 d e f) as [L R];
      pose proof (layoutCols_pos a b c0 d e f) as P;
      destruct (layoutCols a b c0 d e f) as [ts [ci' rest]] end.
    simpl in L, R, P, H. subst rest.
    pose proof (firstn_le_length n ls) as Hle.
    destruct (Nat.lt_ge_cases i (List.length ts)) as [Hlt|Hge].
    + rewrite nth_error_app1 in H by exact Hlt.
      destruct (P i t H) as [Hx Hy].
      exists ri, i, n. simpl.
      destruct (Nat.ltb_spec i n) as [_|Hc]; [|lia].
      split; [reflexivity|]. split; assumption.
    + rewrite nth_error_app2 in H by exact Hge.
      destruct (Nat.eq_dec (List.length ts) n) as [E|Hne].
      * destruct (IH _ _ _ _ _ H) as (r & c & m & Hc & Hx & Hy).
        exists r, c, m. simpl.
        destruct (Nat.ltb_spec i n) as [Hc'|_]; [lia|].
        rewrite <- E. auto.
      * assert (Hs : skipn n ls = []).
        { apply skipn_all2. rewrite length_firstn in L. lia. }
        rewrite Hs, layoutRows_nil in H.
        destruct (i - List.length ts); discriminate.
Qed.

Lemma simple_rows_cell i :
  i < 26 ->
  cellOf Simple.rows 0 i = Some (i / 9, i mod 9, if i <? 18 then 9 else 8).
Proof.
  intros H.
  do 26 (destruct i as [|i]; [reflexivity|]). lia.
Qed.

Lemma rowsOf_cell fuel : forall m ri i,
  i < m -> m <= fuel ->
  cellOf (Rich.rowsOf fuel m) ri i
  = Some (ri + i / 9, i mod 9, Nat.min 9 (m - 9 * (i / 9))).
Proof.
  induction fuel as [|fuel IH]; intros m ri i Hi Hm; [lia|].
  cbn -[Nat.min Nat.ltb Nat.div Nat.modulo Nat.mul Nat.sub].
  destruct (Nat.ltb_spec 0 m) as [_|Hz]; [|lia].
  cbn -[Nat.min Nat.ltb Nat.div Nat.modulo Nat.mul Nat.sub].
  pose proof (Nat.div_mod_eq i 9) as D.
  pose proof (Nat.mod_upper_bound i 9 ltac:(lia)) as B.
  destruct (Nat.ltb_spec i (Nat.min 9 m)) as [Hlt|Hge].
  - assert (E : i / 9 = 0) by lia. rewrite E.
    replace (i mod 9) with i by lia.
    rewrite Nat.add_0_r, Nat.mul_0_r, Nat.sub_0_r. reflexivity.
  - assert (H9 : 9 <= i) by lia.
    replace (Nat.min 9 m) with 9 by lia.
    rewrite IH by lia.
    pose proof (Nat.div_mod_eq (i - 9) 9) as D'.
    pose proof (Nat.mod_upper_bound (i - 9) 9 ltac:(lia)) as B'.
    assert (E1 : (i - 9) / 9 = i / 9 - 1) by lia.
    assert (E2 : (i - 9) mod 9 = i mod 9) by lia.
    rewrite E1, E2. f_equal. f_equal; [f_equal; lia | lia].
Qed.

Lemma rowsOf_length fuel : forall m,
  m <= fuel -> List.length (Rich.rowsOf fuel m) = (m + 8) / 9.
Proof.
  induction fuel as [|fuel IH]; intros m Hm.
  - replace m with 0 by lia. reflexivity.
  - cbn -[Nat.min Nat.ltb Nat.div].
    pose proof (Nat.div_mod_eq (m + 8) 9) as D.
    pose proof (Nat.mod_upper_bound (m + 8) 9 ltac:(lia)) as B.
    destruct (Nat.ltb_spec 0 m) as [Hpos|Hz]; cbn -[Nat.min Nat.div]; [|lia].
    rewrite IH by lia.
    pose proof (Nat.div_mod_eq (m - 9 + 8) 9) as D'.
    pose proof (Nat.mod_upper_bound (m - 9 + 8) 9 ltac:(lia)) as B'.
    lia.
Qed.

Lemma grid_equations (w y0 : Q) (r c n : nat) :
  ((w - inject_Z (Z.of_nat n) * TILE_SIZE * POOL_SPACING) / 2 + cell / 2
   + inject_Z (Z.of_nat c) * TILE_SIZE * POOL_SPACING - cell / 2
   == gridX w n c)%Q /\
  forall (h : Q) (rowsN : nat),
    y0 = (h - inject_Z (Z.of_nat rowsN) * TILE_SIZE * POOL_SPACING - 40)%Q ->
    (y0 + inject_Z (Z.of_nat r) * TILE_SIZE * POOL_SPACING
     == gridY h rowsN r)%Q.
Proof.
  split.
  - unfold gridX, cell, TILE_SIZE, POOL_SPACING. field.
  - intros h rowsN ->. unfold gridY, TILE_SIZE, POOL_SPACING. ring.
Qed.

Lemma simple_initPool_grid rnd w h i t :
  nth_error (Simple.initPool rnd w h) i = Some t ->
  i < 26 /\
  (x t == gridX w (if i <? 18 then 9 else 8) (i mod 9))%Q /\
  (y t == gridY h 3 (i / 9))%Q.
Proof.
  unfold Simple.initPool, buildPool. cbv zeta. intros H.
  assert (Hi : i < 26).
  { assert (Hl : i < List.length (Simple.initPool rnd w h)).
    { apply nth_error_Some. unfold Simple.initPool, buildPool. cbv zeta.
      congruence. }
    now rewrite (proj1 (simple_initPool_alphabet rnd w h)) in Hl. }
  split; [exact Hi|].
  destruct (layoutRows_pos _ _ _ _ _ _ _ _ H) as (r & c & n & Hc & Hx & Hy).
  rewrite (simple_rows_cell i Hi) in Hc. injection Hc as <- <- <-.
  rewrite Hx, Hy.
  destruct (grid_equations w
              (h - inject_Z (Z.of_nat (List.length Simple.rows))
                   * TILE_SIZE * POOL_SPACING - 40)%Q
              (i / 9) (i mod 9) (if i <? 18 then 9 else 8)) as [G1 G2].
  split; [exact G1|]. exact (G2 h 3 eq_refl).
Qed.

Lemma rich_initPool_grid rnd w h word i t :
  nth_error (Rich.initPool rnd w h word) i = Some t ->
  let total := 26 + List.length (Rich.extraLetters word) in
  i < total /\
  (x t == gridX w (Nat.min 9 (total - 9 * (i / 9))) (i mod 9))%Q /\
  (y t == gridY h ((total + 8) / 9) (i / 9))%Q.
Proof.
  intros H total.
  assert (Hlen : List.length (shuffleArray rnd (alphabet ++ Rich.extraLetters word))
                 = total).
  { rewrite (Permutation_length (shuffleArray_perm rnd _)), length_app.
    reflexivity. }
  assert (Hi : i < total).
  { assert (Hl : i < List.length (Rich.initPool rnd w h word))
      by (apply nth_error_Some; congruence).
    rewrite <- (length_map char), rich_initPool_chars, Hlen in Hl. exact Hl. }
  split; [exact Hi|].
  revert H. unfold Rich.initPool, buildPool. cbv zeta. rewrite Hlen.
  intros H.
  destruct (layoutRows_pos _ _ _ _ _ _ _ _ H) as (r & c & n & Hc & Hx & Hy).
  rewrite (rowsOf_cell total total 0 i Hi (le_n _)) in Hc.
  injection Hc as <- <- <-.
  rewrite Hx, Hy.
  destruct (grid_equations w
              (h - inject_Z (Z.of_nat (List.length (Rich.rowsOf total total)))
                   * TILE_SIZE * POOL_SPACING - 40)%Q
              (0 + i / 9) (i mod 9) (Nat.min 9 (total - 9 * (i / 9))))
    as [G1 G2].
  split; [exact G1|].
  rewrite (G2 h (List.length (Rich.rowsOf total total)) eq_refl).
  rewrite (rowsOf_length total total (le_n _)). reflexivity.
Qed.

(** X25. The pool is dealt on a grid of 78-pixel cells, nine tiles to a
    row: the tile at position i sits in row i / 9 and column i mod 9; for a
    row of n tiles column c has abscissa (width - 78 n) / 2 + 78 c, and row
    r of R rows has ordinate height - 78 R - 40 + 78 r.  The simpler screen
    has the three rows of 9, 9 and 8; the richer one has as many rows of 9
    as the 26 + extra letters need, the last one shorter. *)
Theorem pool_tiles_sit_on_the_grid :
  forall rnd w h word i t,
    (nth_error (Simple.initPool rnd w h) i = Some t ->
     i < 26 /\
     (x t == gridX w (if i <? 18 then 9 else 8) (i mod 9))%Q /\
     (y t == gridY h 3 (i / 9))%Q) /\
    (nth_error (Rich.initPool rnd w h word) i = Some t ->
     let total := 26 + List.length (Rich.extraLetters word) in
     i < total /\
     (x t == gridX w (Nat.min 9 (total - 9 * (i / 9))) (i mod 9))%Q /\
     (y t == gridY h ((total + 8) / 9) (i / 9))%Q).
Proof.
  intros rnd w h word i t. split.
  - apply simple_initPool_grid.
  - apply rich_initPool_grid.
Qed.

Lemma pool_tiles_sit_on_the_grid_witness :
  exists t,
    nth_error (Simple.initPool zeroDraws 1280 720) 9 = Some t /\
    (x t == 289)%Q /\ (y t == 524)%Q.
Proof.
  destruct (nth_error (Simple.initPool zeroDraws 1280 720) 9) as [t|] eqn:E;
    [|vm_compute in E; discriminate].
  exists t. split; [reflexivity|].
  destruct (pool_tiles_sit_on_the_grid zeroDraws 1280 720 "" 9 t) as [H _].
  destruct (H E) as (_ & Hx & Hy).
  split; [rewrite Hx | rewrite Hy]; reflexivity.
Defined.

Lemma retargetCols_pos sx py cols : forall col ts j t,
  nth_error (fst (Simple.retargetCols sx py cols col ts)) j = Some t ->
  targetX t = (sx + inject_Z (Z.of_nat (col + j)) * TILE_SIZE * POOL_SPACING
               - cell / 2)%Q /\
  targetY t = py.
Proof.
  induction cols as [|cols IH]; intros col ts j t H.
  - simpl in H. destruct j; discriminate.
  - destruct ts as [|u rest]; [simpl in H; destruct j; discriminate|].
    simpl in H. specialize (IH (S col) rest).
    destruct (Simple.retargetCols sx py cols (S col) rest) as [done rest'].
    simpl in H, IH. destruct j as [|j].
    + simpl in H. injection H as <-. rewrite Nat.add_0_r. split; reflexivity.
    + simpl in H. rewrite Nat.add_succ_r. exact (IH j t H).
Qed.

Lemma retargetCols_rest sx py cols : forall col ts,
  List.length (fst (Simple.retargetCols sx py cols col ts))
  = List.length (firstn cols ts) /\
  snd (Simple.retargetCols sx py cols col ts) = skipn cols ts.
Proof.
  induction cols as [|cols IH]; intros col ts.
  - simpl. split; reflexivity.
  - destruct ts as [|u rest]; [split; reflexivity|].
    simpl. specialize (IH (S col) rest).
    destruct (Simple.retargetCols sx py cols (S col) rest) as [done rest'].
    simpl in *. destruct IH as [I1 I2]. split; congruence.
Qed.

Lemma retargetRows_nil w y0 rs : forall ri,
  Simple.retargetRows w y0 rs ri [] = [].
Proof.
  induction rs as [|n rs IH]; intros ri; simpl; auto.
  destruct n; simpl; apply IH.
Qed.

Lemma retargetRows_pos w y0 rs : forall ri ts i t r c n,
  nth_error (Simple.retargetRows w y0 rs ri ts) i = Some t ->
  cellOf rs ri i = Some (r, c, n) ->
  targetX t = ((w - inject_Z (Z.of_nat n) * TILE_SIZE * POOL_SPACING) / 2
               + cell / 2
               + inject_Z (Z.of_nat c) * TILE_SIZE * POOL_SPACING
               - cell / 2)%Q /\
  targetY t = (y0 + inject_Z (Z.of_nat r) * TILE_SIZE * POOL_SPACING)%Q.
Proof.
  induction rs as [|m rs IH]; intros ri ts i t r c n H Hc.
  - discriminate.
  - simpl in H, Hc.
    match type of H with context [Simple.retargetCols ?a ?b ?c0 ?d ?e] =>
      pose proof (retargetCols_rest a b c0 d e) as [L R];
      pose proof (retargetCols_pos a b c0 d e) as P;
      destruct (Simple.retargetCols a b c0 d e) as [done rest] end.
    simpl in L, R, P, H. subst rest.
    pose proof (firstn_le_length m ts) as Hle.
    destruct (Nat.lt_ge_cases i (List.length done)) as [Hlt|Hge].
    + rewrite nth_error_app1 in H by exact Hlt.
      destruct (Nat.ltb_spec i m) as [_|Hc']; [|lia].
      injection Hc as <- <- <-. exact (P i t H).
    + rewrite nth_error_app2 in H by exact Hge.
      destruct (Nat.eq_dec (List.length done) m) as [E|Hne].
      * destruct (Nat.ltb_spec i m) as [Hc'|_]; [lia|].
        rewrite E in H. exact (IH _ _ _ _ _ _ _ H Hc).
      * assert (Hs : skipn m ts = []).
        { apply skipn_all2. rewrite length_firstn in L. lia. }
        rewrite Hs, retargetRows_nil in H.
        destruct (i - List.length done); discriminate.
Qed.

(** X26. The scramble deals the tiles that are not in the tray on the same
    grid as a new round: the i-th of them after the shuffle gets the target
    of row i / 9 and column i mod 9 of the rows of 9, 9 and 8 tiles. *)
Theorem scramble_deals_the_pool_on_the_grid :
  forall rnd w h ts i t,
    nth_error (Simple.scramblePool rnd w h ts) i = Some t ->
    inTray t = false ->
    i < 26 ->
    (targetX t == gridX w (if i <? 18 then 9 else 8) (i mod 9))%Q /\
    (targetY t == gridY h 3 (i / 9))%Q.
Proof.
  intros rnd w h ts i t H Ht Hi.
  unfold Simple.scramblePool in H. cbv zeta in H.
  match type of H with
  | nth_error (?pool ++ _) _ = _ =>
      destruct (Nat.lt_ge_cases i (List.length pool)) as [Hlt|Hge]
  end.
  - rewrite nth_error_app1 in H by exact Hlt.
    destruct (retargetRows_pos _ _ _ _ _ _ _ _ _ _ H (simple_rows_cell i Hi))
      as [Hx Hy].
    rewrite Hx, Hy.
    destruct (grid_equations w
                (h - inject_Z (Z.of_nat (List.length Simple.rows))
                     * TILE_SIZE * POOL_SPACING - 40)%Q
                (i / 9) (i mod 9) (if i <? 18 then 9 else 8)) as [G1 G2].
    split; [exact G1|]. exact (G2 h 3 eq_refl).
  - rewrite nth_error_app2 in H by exact Hge.
    apply nth_error_In, filter_In in H. destruct H as [_ H]. congruence.
Qed.

Lemma scramble_deals_the_pool_on_the_grid_witness :
  exists t,
    nth_error (Simple.scramblePool halfDraws 1280 720 (tiles solvedGame)) 24
    = Some t /\
    inTray t = false /\
    (targetX t == 796)%Q /\ (targetY t == 602)%Q.
Proof.
  destruct (nth_error (Simple.scramblePool halfDraws 1280 720 (tiles solvedGame)) 24)
    as [t|] eqn:E; [|vm_compute in E; discriminate].
  assert (Ht : inTray t = false).
  { assert (H : option_map inTray
                  (nth_error (Simple.scramblePool halfDraws 1280 720
                                (tiles solvedGame)) 24) = Some false)
      by (vm_compute; reflexivity).
    rewrite E in H. simpl in H. congruence. }
  exists t. split; [reflexivity|]. split; [exact Ht|].
  destruct (scramble_deals_the_pool_on_the_grid halfDraws 1280 720
              (tiles solvedGame) 24 t E Ht) as [Hx Hy].
  - repeat constructor.
  - split; [rewrite Hx | rewrite Hy]; reflexivity.
Defined.

(** ** A drop outside the capture band *)

(** X27. A tile released outside the capture band keeps the targets it had:
    it leaves the tray and loses its slot, but it eases back to where it was
    aiming before, so a tile pulled out of the tray drifts back onto the
    tray line although it is no longer one of the in-tray tiles the tray
    word is read from.  No click is played for such a drop. *)
Theorem tile_dropped_outside_band_heads_back :
  forall sqrt (g g' : Game) snds aid k tile,
    frame sqrt g g' snds ->
    activeTileId g = Some aid -> activeTileId g' = None ->
    find (fun t => (id t =? aid)%string) (tiles g) = Some (k, tile) ->
    inBand tile = false ->
    ~ In click snds /\
    exists t',
      nth_error (tiles g') k = Some t' /\
      targetX t' = targetX tile /\ targetY t' = targetY tile /\
      isDragging t' = false /\ inTray t' = false /\ trayIndex t' = None /\
      x t' = (x tile + (targetX tile - x tile) * 0.15)%Q /\
      y t' = (y tile + (targetY tile - y tile) * 0.15)%Q /\
      ~ In t' (filter inTray (tiles g')).
Proof.
  intros sqrt g g' snds aid k tile Hf Ha Hn Hfind Hb.
  destruct (frame_release_inv _ _ _ _ _ Hf Ha Hn) as (cw & Ht & Hs).
  pose proof (find_Some _ _ _ _ Hfind) as (Hk & _ & _).
  rewrite (dropActive_outside _ _ _ _ _ Hfind Hb) in Ht, Hs.
  simpl in Ht, Hs. split.
  - rewrite Hs. apply updateTrayWord_sounds.
  - rewrite Ht. unfold dropOutside.
    rewrite nth_error_settle, !nth_error_updateAt, Nat.eqb_refl, Hk. simpl.
    eexists. split; [reflexivity|].
    unfold ease. simpl. repeat split.
    intros Hin. apply filter_In in Hin. destruct Hin as [_ Hin].
    discriminate.
Qed.

Lemma tile_dropped_outside_band_heads_back_witness :
  let g := regrabbedGame 500 in
  let out := Simple.onResults Qsqrt 1280 720 [] g in
  exists t',
    nth_error (tiles (fst out)) 0 = Some t' /\
    inTray t' = false /\
    targetY t' = TRAY_Y /\ (y t' == 458)%Q /\
    trayWord (fst out) = "BC".
Proof.
  cbv zeta.
  destruct (tile_dropped_outside_band_heads_back Qsqrt (regrabbedGame 500)
              (fst (Simple.onResults Qsqrt 1280 720 [] (regrabbedGame 500)))
              (snd (Simple.onResults Qsqrt 1280 720 [] (regrabbedGame 500)))
              (tileId "A" 0) 0
              (mkTile (tileId "A" 0) "A" 300 500 0 TRAY_Y red true true (Some 0)))
    as (_ & t' & H1 & _ & H3 & _ & H5 & _ & _ & H8 & _).
  - apply frame_simple.
  - reflexivity.
  - vm_compute; reflexivity.
  - reflexivity.
  - vm_compute; reflexivity.
  - exists t'. split; [exact H1|]. split; [exact H5|].
    split; [exact H3|]. split; [rewrite H8; reflexivity|].
    vm_compute; reflexivity.
Defined.
